(** * Radiocarbon calibration engine: [src/calibration-math.js]

    A shallow embedding of the calibration core (curve interpolation, curve
    lookup by binary search, search-range selection, normalisation, mode and
    highest-posterior-density intervals) together with the properties stated
    for it.

    Numbers.  JavaScript numbers are IEEE 754 doubles.  The embedding has
    two layers.  In the exact layer numbers are rationals ([Q]) and the
    arithmetic is exact; it carries what does not depend on rounding: which
    points are read, the order of the results, the shape of the search
    range, the errors thrown.  [Binary64] is the rounding of doubles on
    rationals; [Rounded] restates [interpolate] and [findHPD] with the
    arithmetic as a parameter, and [Doubles] is their instance on doubles,
    which carries what rounding touches.  [NaN] is modelled where the code
    can meet it: as the confidence of [findHPD] ([Confidence]), as the
    quotient 0 / 0 of the normalisation ([normalizedProbabilities]) and in
    the modules around the engine ([DataLoaderJs.Float]).  The two
    infinities appear where the source produces them from finite data
    ([Math.min()] and [Math.max()] of an empty argument list), as the type
    [ExtQ].  Equality of numbers ([===]) is [Qeq].

    Sorting.  [Array.prototype.sort] is stable; with a comparator that is a
    difference of keys its result is the stable sorted arrangement, which
    [js_sort] computes by insertion.

    The Gaussian density ([calculateProbability]) uses [Math.exp] and
    [Math.sqrt], which have no rational model: it is written out over the
    real numbers ([LikelihoodModel]), and the pipeline takes a density as a
    parameter.  On doubles the density is exactly 0 where [Math.exp]
    underflows ([underflows]).

    Around the engine.  The data loader ([DataLoaderJs]), the check of the
    input form ([InputForm]), the query string ([QueryParams]), the batch
    upload ([BatchUpload]) and the helpers of the validation script
    ([CompareOxCal], [OxCalTest]) are modelled in modules of their own.  What
    they take from the host (string functions that depend on the Unicode
    tables, [parseFloat], the network) enters as a parameter, and their
    numbers may be [NaN] or infinite ([DataLoaderJs.Float]). *)

From Stdlib Require Import Reals.
From Stdlib Require Import Ascii String Bool List ZArith.
From Stdlib Require Import QArith Qabs Qround Qpower.
From Stdlib Require Import Lia Lqa Permutation Sorted.
From Stdlib Require Lra Floats.
Import ListNotations.
Local Open Scope Q_scope.

(* ================================================================== *)
(** * Part I: the embedding                                             *)
(* ================================================================== *)

(** ** JavaScript values and outcomes *)

(** The argument values a caller can pass where a number or a string is
    expected. *)
Inductive JsPrim : Type :=
  | JsUndefined
  | JsNull
  | JsBoolean (b : bool)
  | JsNumber (q : Q)
  | JsNaN
  | JsString (s : string).

(** Numbers extended with the infinities [Math.min()] and [Math.max()]
    return on an empty argument list. *)
Inductive ExtQ : Type :=
  | NInf
  | Fin (q : Q)
  | PInf.

Inductive Warning : Type :=
  | WarnInvalidDistribution
  | WarnInvalidConfidence (conf : Q)
  | WarnInvalidCurveType (curveType : JsPrim).

Inductive Error : Type :=
  | TypeError
  | InvalidRadiocarbonAge (v : JsPrim)
  | InvalidUncertainty (v : JsPrim)
  | InvalidReservoirCorrection (v : JsPrim)
  | FailedToLoad (message : string)
  | CurveDataMissing (curveType : string).

(** What running a piece of code yields: a value, a thrown error, or no
    answer at all (a loop that does not finish). *)
Inductive result (A : Type) : Type :=
  | Ok (a : A)
  | Throw (e : Error)
  | Diverge.
Arguments Ok {A} a.
Arguments Throw {A} e.
Arguments Diverge {A}.

Definition bind {A B : Type} (r : result A) (f : A -> result B) : result B :=
  match r with
  | Ok a => f a
  | Throw e => Throw e
  | Diverge => Diverge
  end.

Notation "x <- c1 ;; c2" := (bind c1 (fun x => c2))
  (at level 61, c1 at next level, right associativity).

(** Code that also writes to the console: the warnings logged, in order, and
    the outcome. *)
Definition logged (A : Type) : Type := (list Warning * result A)%type.

Definition Qlt_bool (a b : Q) : bool := negb (Qle_bool b a).

(** [arr[i]]: [undefined] outside the array. *)
Definition js_index {A : Type} (arr : list A) (i : Z) : option A :=
  if (i <? 0)%Z then None else nth_error arr (Z.to_nat i).

(** [arr.slice(start, end)]. *)
Definition js_slice {A : Type} (arr : list A) (start end_ : Z) : list A :=
  let len := Z.of_nat (length arr) in
  let k := if (start <? 0)%Z then Z.max (len + start) 0 else Z.min start len in
  let final := if (end_ <? 0)%Z then Z.max (len + end_) 0 else Z.min end_ len in
  firstn (Z.to_nat (final - k)) (skipn (Z.to_nat k) arr).

(** [[...arr].sort(cmp)]: [x] goes before the first element it compares
    strictly below, so equal elements keep their order. *)
Fixpoint sort_insert {A : Type} (cmp : A -> A -> Q) (x : A) (l : list A) : list A :=
  match l with
  | [] => [x]
  | y :: ys => if Qlt_bool (cmp x y) 0 then x :: y :: ys
               else y :: sort_insert cmp x ys
  end.

Definition js_sort {A : Type} (cmp : A -> A -> Q) (l : list A) : list A :=
  fold_left (fun acc x => sort_insert cmp x acc) l [].

Definition ext_min (a b : ExtQ) : ExtQ :=
  match a, b with
  | NInf, _ | _, NInf => NInf
  | PInf, e | e, PInf => e
  | Fin p, Fin q => if Qle_bool p q then Fin p else Fin q
  end.

Definition ext_max (a b : ExtQ) : ExtQ :=
  match a, b with
  | PInf, _ | _, PInf => PInf
  | NInf, e | e, NInf => e
  | Fin p, Fin q => if Qle_bool p q then Fin q else Fin p
  end.

(** [e + q] for a finite [q]. *)
Definition ext_plus (e : ExtQ) (q : Q) : ExtQ :=
  match e with
  | Fin p => Fin (p + q)
  | inf => inf
  end.

(** [Math.min(...l)] and [Math.max(...l)]. *)
Definition math_min (l : list Q) : ExtQ :=
  fold_left (fun acc v => ext_min acc (Fin v)) l PInf.

Definition math_max (l : list Q) : ExtQ :=
  fold_left (fun acc v => ext_max acc (Fin v)) l NInf.

Definition ext_eq (a b : ExtQ) : Prop :=
  match a, b with
  | NInf, NInf | PInf, PInf => True
  | Fin p, Fin q => p == q
  | _, _ => False
  end.

(** ** Data model *)

Record CurvePoint : Type := mkCurvePoint {
  cal_BP : Q;
  c14_BP : Q;
  error : Q
}.

(** The object [{ c14_BP, error }] built by [interpolate]. *)
Record CurveValue : Type := mkCurveValue {
  cv_c14_BP : Q;
  cv_error : Q
}.

(** What [getCurveValueAt] hands back: one of the curve's own points, or a
    freshly interpolated value. *)
Inductive CurveLookup : Type :=
  | CurvePointItself (p : CurvePoint)
  | Interpolated (v : CurveValue).

Definition lookup_c14_BP (r : CurveLookup) : Q :=
  match r with
  | CurvePointItself p => c14_BP p
  | Interpolated v => cv_c14_BP v
  end.

Definition lookup_error (r : CurveLookup) : Q :=
  match r with
  | CurvePointItself p => error p
  | Interpolated v => cv_error v
  end.

Record ProbabilityPoint : Type := mkProbabilityPoint {
  pp_cal_BP : Q;
  probability : Q
}.

Record Interval : Type := mkInterval {
  ivl_min : Q;
  ivl_max : Q
}.

(** A list in ascending order of a key. *)
Definition key_sorted {A : Type} (key : A -> Q) (l : list A) : Prop :=
  StronglySorted (fun a b => key a <= key b) l.

(** ** interpolate (lines 12-26) *)

Definition interpolate (targetCalBP : Q) (lowerPoint upperPoint : CurvePoint)
  : CurveValue :=
  if Qeq_bool (cal_BP lowerPoint) (cal_BP upperPoint) then
    {| cv_c14_BP := c14_BP lowerPoint; cv_error := error lowerPoint |}
  else
    let factor := (targetCalBP - cal_BP lowerPoint)
                  / (cal_BP upperPoint - cal_BP lowerPoint) in
    {| cv_c14_BP := c14_BP lowerPoint
                    + factor * (c14_BP upperPoint - c14_BP lowerPoint);
       cv_error := error lowerPoint
                   + factor * (error upperPoint - error lowerPoint) |}.

(** ** getCurveValueAt (lines 34-62) *)

(** A property read on [undefined] throws a [TypeError]. *)
Definition deref {A : Type} (o : option A) : result A :=
  match o with
  | Some a => Ok a
  | None => Throw TypeError
  end.

(** How the [while (low <= high)] loop of lines 43-53 ends: by the early
    return of an exact match, or with the final [low] and [high]. *)
Inductive SearchEnd : Type :=
  | ExactMatch (p : CurvePoint)
  | NoMatch (low high : Z).

Fixpoint curve_search (fuel : nat) (curveData : list CurvePoint) (calBP : Q)
  (low high : Z) : result SearchEnd :=
  match fuel with
  | O => Diverge
  | S fuel' =>
      if (low <=? high)%Z then
        let mid := ((low + high) / 2)%Z in
        p <- deref (js_index curveData mid) ;;
        if Qlt_bool (cal_BP p) calBP then
          curve_search fuel' curveData calBP (mid + 1)%Z high
        else if Qlt_bool calBP (cal_BP p) then
          curve_search fuel' curveData calBP low (mid - 1)%Z
        else Ok (ExactMatch p)
      else Ok (NoMatch low high)
  end.

Definition getCurveValueAt (calBP : Q) (curveData : list CurvePoint)
  : result CurveLookup :=
  let len := Z.of_nat (length curveData) in
  first <- deref (js_index curveData 0) ;;
  if Qle_bool calBP (cal_BP first) then Ok (CurvePointItself first) else
  last <- deref (js_index curveData (len - 1)) ;;
  if Qle_bool (cal_BP last) calBP then Ok (CurvePointItself last) else
  s <- curve_search (S (length curveData)) curveData calBP 0 (len - 1) ;;
  match s with
  | ExactMatch p => Ok (CurvePointItself p)
  | NoMatch low high =>
      lowerPoint <- deref (js_index curveData high) ;;
      upperPoint <- deref (js_index curveData low) ;;
      Ok (Interpolated (interpolate calBP lowerPoint upperPoint))
  end.

(** ** findHPD (lines 70-126) *)

(** The first argument of [findHPD] as a caller can pass it. *)
Inductive DistributionArg : Type :=
  | NotAnArray (v : JsPrim)
  | AnArray (probDist : list ProbabilityPoint).

(** [probDist.reduce((sum, p) => sum + p.probability, 0)]. *)
Definition sum_probability (probDist : list ProbabilityPoint) : Q :=
  fold_left (fun sum p => sum + probability p) probDist 0.

Definition by_descending_probability (a b : ProbabilityPoint) : Q :=
  probability b - probability a.

Definition by_ascending_cal_BP (a b : ProbabilityPoint) : Q :=
  pp_cal_BP a - pp_cal_BP b.

(** The loop of lines 93-97: push, add, and leave once the threshold is
    reached. *)
Fixpoint collect_points (targetProb cumulativeProb : Q)
  (sortedByProb : list ProbabilityPoint) : list ProbabilityPoint :=
  match sortedByProb with
  | [] => []
  | point :: rest =>
      let cumulativeProb' := cumulativeProb + probability point in
      point :: (if Qle_bool targetProb cumulativeProb' then []
                else collect_points targetProb cumulativeProb' rest)
  end.

(** The loop of lines 112-123 over [includedPoints[1..]], with the final
    push. *)
Fixpoint contiguous_intervals (start prev : ProbabilityPoint)
  (rest : list ProbabilityPoint) : list Interval :=
  match rest with
  | [] => [ {| ivl_min := pp_cal_BP start; ivl_max := pp_cal_BP prev |} ]
  | curr :: rest' =>
      if Qlt_bool 1 (pp_cal_BP curr - pp_cal_BP prev) then
        {| ivl_min := pp_cal_BP start; ivl_max := pp_cal_BP prev |}
          :: contiguous_intervals curr curr rest'
      else contiguous_intervals start curr rest'
  end.

(** Lines 77-80: the confidence actually used. *)
Definition effective_confidence (conf : Q) : Q :=
  if Qle_bool conf 0 || Qlt_bool 1 conf then 95 # 100 else conf.

(** Lines 83-97: the points the threshold loop keeps, for a confidence
    already checked. *)
Definition includedPoints (probDist : list ProbabilityPoint) (conf : Q)
  : list ProbabilityPoint :=
  let sortedByProb := js_sort by_descending_probability probDist in
  let totalProb := sum_probability probDist in
  let targetProb := totalProb * conf in
  collect_points targetProb 0 sortedByProb.

(** Lines 99-125. *)
Definition intervals_of (included : list ProbabilityPoint) : list Interval :=
  match js_sort by_ascending_cal_BP included with
  | [] => []
  | start :: rest => contiguous_intervals start start rest
  end.

Definition findHPD (probDist : DistributionArg) (conf : Q)
  : list Warning * list Interval :=
  match probDist with
  | NotAnArray _ | AnArray [] => ([WarnInvalidDistribution], [])
  | AnArray dist =>
      let warnings :=
        if Qle_bool conf 0 || Qlt_bool 1 conf
        then [WarnInvalidConfidence conf] else [] in
      (warnings, intervals_of (includedPoints dist (effective_confidence conf)))
  end.

(** Total width of a set of intervals. *)
Definition total_width (ivs : list Interval) : Q :=
  fold_right (fun iv acc => (ivl_max iv - ivl_min iv) + acc) 0 ivs.

(** A point lies inside one of the intervals. *)
Definition covered (ivs : list Interval) (p : ProbabilityPoint) : bool :=
  existsb (fun iv => Qle_bool (ivl_min iv) (pp_cal_BP p)
                     && Qle_bool (pp_cal_BP p) (ivl_max iv)) ivs.

(** Sum of the probabilities of a list of points, from the right. *)
Definition mass (l : list ProbabilityPoint) : Q :=
  fold_right (fun p acc => probability p + acc) 0 l.

(** A probability distribution as the engine builds it: no negative
    probability, and two different points at least a year apart. *)
Definition nonnegative (dist : list ProbabilityPoint) : Prop :=
  forall p, In p dist -> 0 <= probability p.

Definition yearly (dist : list ProbabilityPoint) : Prop :=
  forall p q, In p dist -> In q dist ->
    p = q \/ 1 <= Qabs (pp_cal_BP p - pp_cal_BP q).

Fixpoint descending (l : list ProbabilityPoint) : Prop :=
  match l with
  | [] => True
  | p :: l' => (forall q, In q l' -> probability q <= probability p)
               /\ descending l'
  end.

(** A calendar age lies between two of the given points that are at most a
    year apart (possibly the same point). *)
Definition bridged (pts : list ProbabilityPoint) (y : Q) : Prop :=
  exists a b, In a pts /\ In b pts
              /\ pp_cal_BP a <= y /\ y <= pp_cal_BP b
              /\ pp_cal_BP b - pp_cal_BP a <= 1.

(** What one step between neighbours adds to the total width: the step
    itself when it does not exceed a year, nothing when an interval ends
    there. *)
Definition gap_width (d : Q) : Q := if Qlt_bool 1 d then 0 else d.

Fixpoint chain_width (l : list ProbabilityPoint) : Q :=
  match l with
  | [] => 0
  | a :: t =>
      match t with
      | [] => 0
      | b :: _ => gap_width (pp_cal_BP b - pp_cal_BP a) + chain_width t
      end
  end.

(** The points that carry probability. *)
Definition nonzero (p : ProbabilityPoint) : bool :=
  negb (Qeq_bool (probability p) 0).

(** The contract of [getCurveValueAt]: calendar ages strictly ascending
    along the curve. *)
Definition ascending_cal_BP (curveData : list CurvePoint) : Prop :=
  StronglySorted (fun p q => cal_BP p < cal_BP q) curveData.

(** ** calculateProbability (lines 136-145), over the real numbers *)

Module LikelihoodModel.

Definition calculateProbability (c14Age c14Error curveC14BP curveError : R) : R :=
  let totalError := sqrt (c14Error ^ 2 + curveError ^ 2) in
  let deviation := (c14Age - curveC14BP)%R in
  (exp (- (1 / 2) * (deviation / totalError) ^ 2)
   / (totalError * sqrt (2 * PI)))%R.

End LikelihoodModel.

(** ** createUniformDistribution (lines 154-163) *)

Fixpoint uniform_loop (fuel : nat) (curveData : list CurvePoint)
  (calBP endYear : Q) : result (list CurvePoint) :=
  match fuel with
  | O => if Qle_bool calBP endYear then Diverge else Ok []
  | S fuel' =>
      if Qle_bool calBP endYear then
        v <- getCurveValueAt calBP curveData ;;
        rest <- uniform_loop fuel' curveData (calBP + 1) endYear ;;
        Ok ({| cal_BP := calBP; c14_BP := lookup_c14_BP v;
               error := lookup_error v |} :: rest)
      else Ok []
  end.

(** The loop runs [floor(endYear - startYear) + 1] times when the bounds are
    finite and in order; [Infinity++] and [-Infinity++] do not move, so an
    infinite bound either ends the loop at once or never. *)
Definition createUniformDistribution (curveData : list CurvePoint)
  (startYear endYear : ExtQ) : result (list CurvePoint) :=
  match startYear, endYear with
  | Fin s, Fin e =>
      uniform_loop (Z.to_nat (Qfloor (e - s) + 1)) curveData s e
  | PInf, Fin _ | PInf, NInf | Fin _, NInf => Ok []
  | NInf, _ | PInf, PInf | Fin _, PInf => Diverge
  end.

(** ** findCalendarRangeByC14BP (lines 172-217) *)

Record CalendarRange : Type := mkCalendarRange {
  range_min : ExtQ;
  range_max : ExtQ
}.

Definition by_ascending_c14_BP (a b : CurvePoint) : Q := c14_BP a - c14_BP b.

(** Lines 186-194. *)
Fixpoint min_index_search (fuel : nat) (c14SortedCurve : list CurvePoint)
  (minC14 : Q) (low high minIndex : Z) : result Z :=
  match fuel with
  | O => Diverge
  | S fuel' =>
      if (low <=? high)%Z then
        let mid := ((low + high) / 2)%Z in
        p <- deref (js_index c14SortedCurve mid) ;;
        if Qlt_bool (c14_BP p) minC14 then
          min_index_search fuel' c14SortedCurve minC14 (mid + 1)%Z high minIndex
        else
          min_index_search fuel' c14SortedCurve minC14 low (mid - 1)%Z mid
      else Ok minIndex
  end.

(** Lines 201-209. *)
Fixpoint max_index_search (fuel : nat) (c14SortedCurve : list CurvePoint)
  (maxC14 : Q) (low high maxIndex : Z) : result Z :=
  match fuel with
  | O => Diverge
  | S fuel' =>
      if (low <=? high)%Z then
        let mid := ((low + high) / 2)%Z in
        p <- deref (js_index c14SortedCurve mid) ;;
        if Qle_bool (c14_BP p) maxC14 then
          max_index_search fuel' c14SortedCurve maxC14 (mid + 1)%Z high mid
        else
          max_index_search fuel' c14SortedCurve maxC14 low (mid - 1)%Z maxIndex
      else Ok maxIndex
  end.

(** Lines 173-212: the points of the re-sorted curve the two searches
    select. *)
Definition selectedCurvePoints (curveData : list CurvePoint)
  (c14Age uncertainty : Q) : result (list CurvePoint) :=
  let c14SortedCurve := js_sort by_ascending_c14_BP curveData in
  let searchRange := 5 * uncertainty in
  let minC14 := c14Age - searchRange in
  let maxC14 := c14Age + searchRange in
  let len := Z.of_nat (length c14SortedCurve) in
  minIndex <- min_index_search (S (length c14SortedCurve)) c14SortedCurve
                minC14 0 (len - 1) 0 ;;
  maxIndex <- max_index_search (S (length c14SortedCurve)) c14SortedCurve
                maxC14 0 (len - 1) (len - 1) ;;
  Ok (js_slice c14SortedCurve minIndex (maxIndex + 1)).

Definition findCalendarRangeByC14BP (curveData : list CurvePoint)
  (c14Age uncertainty : Q) : result CalendarRange :=
  pts <- selectedCurvePoints curveData c14Age uncertainty ;;
  let calYears := map cal_BP pts in
  Ok {| range_min := math_min calYears; range_max := math_max calYears |}.

(** ** The curve data provider ([./data-loader], imported at line 3) *)

Record CurveMetadata : Type := mkCurveMetadata {
  meta_name : string;
  meta_fullName : string;
  meta_citation : string;
  meta_description : string
}.

(** What a curve set holds under one key. *)
Inductive CurveEntry : Type :=
  | EntryNotArray (v : JsPrim)
  | EntryArray (curveData : list CurvePoint).

Definition CurveSet : Type := list (string * CurveEntry).

(** [calibrationCurves[curveType]]. *)
Fixpoint curve_lookup (calibrationCurves : CurveSet) (curveType : string)
  : option CurveEntry :=
  match calibrationCurves with
  | [] => None
  | (k, e) :: rest =>
      if String.eqb k curveType then Some e else curve_lookup rest curveType
  end.

Inductive LoadOutcome : Type :=
  | Resolved (calibrationCurves : CurveSet)
  | Rejected (message : string).

(** The provider as one calibration call sees it: the cache
    ([getCalibrationData()], [None] for [null]), what a load would yield,
    and the metadata table. *)
Record DataLoader : Type := mkDataLoader {
  getCalibrationData : option CurveSet;
  loadCalibrationData : LoadOutcome;
  CURVE_METADATA : string -> option CurveMetadata
}.

(** The [CURVE_TYPES] table of the [data-loader] module (carried in
    components/AppHeader.js, lines 59-63). *)
Definition INTCAL20 : string := "IntCal20".
Definition SHCAL20 : string := "SHCal20".
Definition MARINE20 : string := "Marine20".
Definition CURVE_TYPES : list string := [INTCAL20; SHCAL20; MARINE20].

(** [SEARCH_MODES.C14_BP] of [components/inputs/InputForm]. *)
Definition C14_BP_MODE : string := "c14_bp".

(** ** calibrateDate (lines 229-375) *)

Record CalibrationInput : Type := mkCalibrationInput {
  radiocarbon_age : Q;
  uncertainty : Q;
  reservoir_correction : Q;
  curve : string;
  search_mode : JsPrim
}.

Record ChartPoint : Type := mkChartPoint {
  chart_x : Q;
  chart_y : Q
}.

Record CalibrationResult : Type := mkCalibrationResult {
  input : CalibrationInput;
  calibrated_years_BP : Q;
  calendar_year : Q;
  hpd68_ranges : list Interval;
  hpd95_ranges : list Interval;
  range_1sigma : CalendarRange;
  range_2sigma : CalendarRange;
  distribution : list ChartPoint;
  curveMetadata : option CurveMetadata
}.

(** A default parameter value replaces [undefined] only. *)
Definition default_param (d v : JsPrim) : JsPrim :=
  match v with
  | JsUndefined => d
  | _ => v
  end.

(** Line 237: a number, not [NaN], within [0, 100000]. *)
Definition valid_c14_age (v : JsPrim) : option Q :=
  match v with
  | JsNumber q => if Qlt_bool q 0 || Qlt_bool 100000 q then None else Some q
  | _ => None
  end.

(** Line 241: a number, not [NaN], above 0. *)
Definition valid_uncertainty (v : JsPrim) : option Q :=
  match v with
  | JsNumber q => if Qle_bool q 0 then None else Some q
  | _ => None
  end.

(** Line 245: a number, not [NaN]. *)
Definition valid_reservoir_correction (v : JsPrim) : option Q :=
  match v with
  | JsNumber q => Some q
  | _ => None
  end.

(** Lines 250-253: [Object.values(CURVE_TYPES).includes(curveType)], and the
    fallback with its warning. *)
Definition known_curve_type (v : JsPrim) : option string :=
  match v with
  | JsString s => if existsb (String.eqb s) CURVE_TYPES then Some s else None
  | _ => None
  end.

Definition resolve_curve_type (v : JsPrim) : list Warning * string :=
  match known_curve_type v with
  | Some s => ([], s)
  | None => ([WarnInvalidCurveType v], INTCAL20)
  end.

(** Lines 256-263. *)
Definition loaded_curves (loader : DataLoader) : result CurveSet :=
  match getCalibrationData loader with
  | Some calibrationCurves => Ok calibrationCurves
  | None =>
      match loadCalibrationData loader with
      | Resolved calibrationCurves => Ok calibrationCurves
      | Rejected message => Throw (FailedToLoad message)
      end
  end.

(** Lines 278-302: the search policy, before the clamp to the curve. *)
Definition policy_bounds (curveData : list CurvePoint)
  (corrected_age uncertainty_ : Q) (search_mode_ : JsPrim)
  : result (ExtQ * ExtQ) :=
  let len := Z.of_nat (length curveData) in
  let fixed_range := Ok (Fin 0, Fin 12000) in
  match search_mode_ with
  | JsString s =>
      if String.eqb s "c14_bp" then
        calRange <- findCalendarRangeByC14BP curveData corrected_age uncertainty_ ;;
        Ok (ext_max (Fin 0) (ext_plus (range_min calRange) (- (500))),
            ext_plus (range_max calRange) 500)
      else if String.eqb s "full_curve" then
        first <- deref (js_index curveData 0) ;;
        last <- deref (js_index curveData (len - 1)) ;;
        Ok (Fin (cal_BP first), Fin (cal_BP last))
      else fixed_range
  | _ => fixed_range
  end.

(** Lines 276-306: the calendar range that is evaluated. *)
Definition calendarBounds (curveData : list CurvePoint)
  (corrected_age uncertainty_ : Q) (search_mode_ : JsPrim)
  : result (ExtQ * ExtQ) :=
  let len := Z.of_nat (length curveData) in
  b <- policy_bounds curveData corrected_age uncertainty_ search_mode_ ;;
  first <- deref (js_index curveData 0) ;;
  last <- deref (js_index curveData (len - 1)) ;;
  Ok (ext_max (fst b) (Fin (cal_BP first)),
      ext_min (snd b) (Fin (cal_BP last))).

Definition by_ascending_x (a b : ChartPoint) : Q := chart_x a - chart_x b.

Section Pipeline.

(** [calculateProbability(c14Age, c14Error, curveC14BP, curveError)] of lines
    136-145. *)
Variable calculateProbability : Q -> Q -> Q -> Q -> Q.

(** Lines 308-331. *)
Definition normalizedDistribution (curveData : list CurvePoint)
  (corrected_age uncertainty_ : Q) (search_mode_ : JsPrim)
  : result (list ProbabilityPoint) :=
  b <- calendarBounds curveData corrected_age uncertainty_ search_mode_ ;;
  uniformCurve <- createUniformDistribution curveData (fst b) (snd b) ;;
  let probabilities :=
    map (fun point =>
           {| pp_cal_BP := cal_BP point;
              probability := calculateProbability corrected_age uncertainty_
                               (c14_BP point) (error point) |}) uniformCurve in
  let totalProbability := sum_probability probabilities in
  Ok (map (fun p => {| pp_cal_BP := pp_cal_BP p;
                       probability := probability p / totalProbability |})
          probabilities).

(** Lines 269-374, for arguments that passed validation and a curve that was
    found.  [modePoint] is read only when the result object is built, after
    both [findHPD] calls. *)
Definition calibrate (loader : DataLoader) (c14_age uncertainty_ reservoir : Q)
  (curveType : string) (search_mode_ : JsPrim) (curveData : list CurvePoint)
  : logged CalibrationResult :=
  let corrected_age := c14_age - reservoir in
  match normalizedDistribution curveData corrected_age uncertainty_ search_mode_ with
  | Throw e => ([], Throw e)
  | Diverge => ([], Diverge)
  | Ok normalizedProbabilities =>
      let modePoint :=
        js_index (js_sort by_descending_probability normalizedProbabilities) 0 in
      let (w68, hpd68) := findHPD (AnArray normalizedProbabilities) (682 # 1000) in
      let (w95, hpd95) := findHPD (AnArray normalizedProbabilities) (954 # 1000) in
      let distribution_ :=
        js_sort by_ascending_x
          (map (fun p => {| chart_x := pp_cal_BP p; chart_y := probability p |})
               normalizedProbabilities) in
      (w68 ++ w95,
       m <- deref modePoint ;;
       Ok {| input := {| radiocarbon_age := c14_age;
                         uncertainty := uncertainty_;
                         reservoir_correction := reservoir;
                         curve := curveType;
                         search_mode := search_mode_ |};
             calibrated_years_BP := pp_cal_BP m;
             calendar_year := 1950 - pp_cal_BP m;
             hpd68_ranges := hpd68;
             hpd95_ranges := hpd95;
             range_1sigma := {| range_min := math_min (map ivl_min hpd68);
                                range_max := math_max (map ivl_max hpd68) |};
             range_2sigma := {| range_min := math_min (map ivl_min hpd95);
                                range_max := math_max (map ivl_max hpd95) |};
             distribution := distribution_;
             curveMetadata := CURVE_METADATA loader curveType |})
  end.

Definition calibrateDate (loader : DataLoader)
  (c14_age uncertainty_ reservoir_correction_ curveType_ search_mode_ : JsPrim)
  : logged CalibrationResult :=
  let reservoir_correction_ := default_param (JsNumber 0) reservoir_correction_ in
  let curveType_ := default_param (JsString INTCAL20) curveType_ in
  let search_mode_ := default_param (JsString C14_BP_MODE) search_mode_ in
  match valid_c14_age c14_age with
  | None => ([], Throw (InvalidRadiocarbonAge c14_age))
  | Some age =>
  match valid_uncertainty uncertainty_ with
  | None => ([], Throw (InvalidUncertainty uncertainty_))
  | Some u =>
  match valid_reservoir_correction reservoir_correction_ with
  | None => ([], Throw (InvalidReservoirCorrection reservoir_correction_))
  | Some r =>
  let (w, curveType) := resolve_curve_type curveType_ in
  match loaded_curves loader with
  | Throw e => (w, Throw e)
  | Diverge => (w, Diverge)
  | Ok calibrationCurves =>
      match curve_lookup calibrationCurves curveType with
      | Some (EntryArray (p :: ps)) =>
          let (w', r') := calibrate loader age u r curveType search_mode_ (p :: ps) in
          (w ++ w', r')
      | _ => (w, Throw (CurveDataMissing curveType))
      end
  end end end end.

End Pipeline.

(** ** The search range as the specification words it *)

(** A curve point whose radiocarbon age lies in the band. *)
Definition in_band (minC14 maxC14 : Q) (p : CurvePoint) : bool :=
  Qle_bool minC14 (c14_BP p) && Qle_bool (c14_BP p) maxC14.

(** The points of the curve, re-sorted by radiocarbon age, that lie in the
    band of five uncertainties around the corrected age. *)
Definition band_points (curveData : list CurvePoint)
  (correctedAge uncertainty_ : Q) : list CurvePoint :=
  filter (in_band (correctedAge - 5 * uncertainty_)
                  (correctedAge + 5 * uncertainty_))
         (js_sort by_ascending_c14_BP curveData).

(** The final clamp to the bounds of the curve. *)
Definition clamp_to_curve (first last : CurvePoint) (b : ExtQ * ExtQ)
  : ExtQ * ExtQ :=
  (ext_max (fst b) (Fin (cal_BP first)), ext_min (snd b) (Fin (cal_BP last))).

(** Least and greatest calendar age of the chosen points, padded by 500
    years with the lower bound kept at or above 0, then clamped to the
    curve. *)
Definition padded_range (pts : list CurvePoint) (first last : CurvePoint)
  : ExtQ * ExtQ :=
  let calYears := map cal_BP pts in
  clamp_to_curve first last
    (ext_max (Fin 0) (ext_plus (math_min calYears) (- (500))),
     ext_plus (math_max calYears) 500).

(** The points the two searches of the source select: the band, or the
    whole re-sorted curve when the band misses the curve on one side. *)
Definition searched_points (curveData : list CurvePoint)
  (correctedAge uncertainty_ : Q) : list CurvePoint :=
  let c14SortedCurve := js_sort by_ascending_c14_BP curveData in
  let minC14 := correctedAge - 5 * uncertainty_ in
  let maxC14 := correctedAge + 5 * uncertainty_ in
  if forallb (fun p => Qlt_bool (c14_BP p) minC14) c14SortedCurve
     || forallb (fun p => Qlt_bool maxC14 (c14_BP p)) c14SortedCurve
  then c14SortedCurve
  else band_points curveData correctedAge uncertainty_.

(** ** Views of an outcome used to compare two calls *)

(** Everything in a result but the echoed input. *)
Definition computed_part (r : CalibrationResult) :=
  (calibrated_years_BP r, calendar_year r, hpd68_ranges r, hpd95_ranges r,
   range_1sigma r, range_2sigma r, distribution r, curveMetadata r).

Definition map_result {A B : Type} (f : A -> B) (r : result A) : result B :=
  match r with
  | Ok a => Ok (f a)
  | Throw e => Throw e
  | Diverge => Diverge
  end.

Definition map_logged {A B : Type} (f : A -> B) (o : logged A) : logged B :=
  (fst o, map_result f (snd o)).

(** A result with another search mode echoed. *)
Definition with_search_mode (m : JsPrim) (r : CalibrationResult)
  : CalibrationResult :=
  {| input := {| radiocarbon_age := radiocarbon_age (input r);
                 uncertainty := uncertainty (input r);
                 reservoir_correction := reservoir_correction (input r);
                 curve := curve (input r);
                 search_mode := m |};
     calibrated_years_BP := calibrated_years_BP r;
     calendar_year := calendar_year r;
     hpd68_ranges := hpd68_ranges r;
     hpd95_ranges := hpd95_ranges r;
     range_1sigma := range_1sigma r;
     range_2sigma := range_2sigma r;
     distribution := distribution r;
     curveMetadata := curveMetadata r |}.

(** ** Sample data *)

(** The curve of the [getCurveValueAt] unit tests. *)
Definition testCurveData : list CurvePoint :=
  [ mkCurvePoint 100 200 10; mkCurvePoint 200 300 15;
    mkCurvePoint 300 400 20; mkCurvePoint 400 500 25 ].

(** The distribution of the first [findHPD] unit test. *)
Definition testProbDist : list ProbabilityPoint :=
  [ mkProbabilityPoint 100 (1 # 10); mkProbabilityPoint 101 (2 # 10);
    mkProbabilityPoint 102 (4 # 10); mkProbabilityPoint 103 (2 # 10);
    mkProbabilityPoint 104 (1 # 10) ].

(** A two-point curve whose radiocarbon ages leave a gap between 100 and
    200. *)
Definition gapCurve : list CurvePoint :=
  [ mkCurvePoint 0 100 10; mkCurvePoint 1 200 10 ].

Definition testLoader (curveData : list CurvePoint) : DataLoader :=
  {| getCalibrationData := Some [(INTCAL20, EntryArray curveData)];
     loadCalibrationData := Rejected "unreachable";
     CURVE_METADATA := fun _ => None |}.

(** A positive bell-shaped stand-in for the Gaussian density. *)
Definition rationalDensity (c14Age c14Error curveC14BP curveError : Q) : Q :=
  1 / (1 + (c14Age - curveC14BP) * (c14Age - curveC14BP)).

(** [sum(distribution.probability)] over the returned chart points. *)
Definition sum_y (l : list ChartPoint) : Q :=
  fold_right (fun p acc => chart_y p + acc) 0 l.

(** A call on the two-point curve with every optional argument omitted. *)
Definition sampleCall (c14_age : Q) : logged CalibrationResult :=
  calibrateDate rationalDensity (testLoader gapCurve)
    (JsNumber c14_age) (JsNumber 1) JsUndefined JsUndefined JsUndefined.

(** ** Further notions used to state properties of the engine *)

(** [x] lies between [a] and [b], whichever is the larger. *)
Definition between (a b x : Q) : Prop :=
  (a <= x /\ x <= b) \/ (b <= x /\ x <= a).

(** Consecutive intervals lie more than a year apart. *)
Fixpoint apart (ivs : list Interval) : Prop :=
  match ivs with
  | [] => True
  | a :: t =>
      match t with
      | [] => True
      | b :: _ => 1 < ivl_min b - ivl_max a
      end /\ apart t
  end.

(** Lines 237-247 taken together: the three argument checks of
    [calibrateDate] all pass. *)
Definition arguments_accepted
  (c14_age uncertainty_ reservoir_correction_ : JsPrim) : bool :=
  match valid_c14_age c14_age, valid_uncertainty uncertainty_,
        valid_reservoir_correction
          (default_param (JsNumber 0) reservoir_correction_) with
  | Some _, Some _, Some _ => true
  | _, _, _ => false
  end.

(** Line 344: a normalised point as it is charted. *)
Definition chart_point (p : ProbabilityPoint) : ChartPoint :=
  {| chart_x := pp_cal_BP p; chart_y := probability p |}.

(** ** The curve data loader (the [data-loader] module, carried in
    components/AppHeader.js from line 53 on)

    Console output is left out.  The string operations that depend on the
    Unicode tables or on the number grammar, and the network, are taken as
    the host provides them. *)

Module DataLoaderJs.

(** A number as [parseFloat] returns it. *)
Inductive Float : Type :=
  | FNaN
  | FNum (v : ExtQ).

(** What [fetch(filePath)] and [response.text()] yield: a rejection, or a
    response with its [ok] flag and its body ([None] when reading the body
    rejects). *)
Inductive FetchOutcome : Type :=
  | FetchRejected
  | FetchResponse (ok : bool) (text : option string).

Record Host : Type := mkHost {
  trim : string -> string;
  split_whitespace : string -> list string;
  parseFloat : string -> Float;
  fetch : string -> FetchOutcome
}.

(** A data point as the parser builds it (line 147).  The two ages are
    finite once the range test has passed; the error may be [Infinity]. *)
Record Point : Type := mkPoint {
  cal_BP : Q;
  c14_BP : Q;
  error : ExtQ
}.

Definition Curves : Type := list (string * list Point).

Inductive LoadResult : Type :=
  | Loaded (calibrationCurves : Curves)
  | LoadFailed (message : string).

(** [a < b] and [a <= b] on numbers other than [NaN]. *)
Definition ext_lt_bool (a b : ExtQ) : bool :=
  match a, b with
  | _, NInf => false
  | NInf, _ => true
  | PInf, _ => false
  | Fin _, PInf => true
  | Fin p, Fin q => Qlt_bool p q
  end.

Definition ext_le_bool (a b : ExtQ) : bool := negb (ext_lt_bool b a).

(** [s.split(sep)] for a one-character separator. *)
Fixpoint split_on (sep : ascii) (s : string) : list string :=
  match s with
  | EmptyString => [EmptyString]
  | String c rest =>
      if Ascii.eqb c sep then EmptyString :: split_on sep rest
      else match split_on sep rest with
           | h :: t => String c h :: t
           | [] => [String c EmptyString]
           end
  end.

(** [s.includes(c)] for a one-character [c]. *)
Fixpoint includes (c : ascii) (s : string) : bool :=
  match s with
  | EmptyString => false
  | String c' rest => Ascii.eqb c' c || includes c rest
  end.

(** [arr.filter(item => item !== null)]. *)
Fixpoint without_null {A : Type} (l : list (option A)) : list A :=
  match l with
  | [] => []
  | Some a :: rest => a :: without_null rest
  | None :: rest => without_null rest
  end.

(** [Promise.all] over settled promises, [None] standing for a rejection:
    the values in order, or a rejection when one is rejected. *)
Fixpoint promise_all {A : Type} (l : list (option A)) : option (list A) :=
  match l with
  | [] => Some []
  | Some a :: rest =>
      match promise_all rest with
      | Some values => Some (a :: values)
      | None => None
      end
  | None :: _ => None
  end.

(** Lines 179-183, in the order of [Object.entries]. *)
Definition curveFiles : list (string * string) :=
  [ ("IntCal20", "/intcal20.14c");
    ("SHCal20", "/shcal20.14c");
    ("Marine20", "/marine20.14c") ]%string.

Section Parser.

Variable host : Host.

(** Lines 104-107: the lines that are neither comments nor blank. *)
Definition data_line (line : string) : bool :=
  let trimmed := trim host line in
  negb (String.prefix "#" trimmed) && (0 <? String.length trimmed)%nat.

(** Lines 116-153: one line to a point, or [null]. *)
Definition parse_line (line : string) : option Point :=
  let parts :=
    if includes "," line then split_on "," (trim host line)
    else split_whitespace host (trim host line) in
  match parts with
  | part0 :: part1 :: part2 :: _ =>
      match parseFloat host part0, parseFloat host part1,
            parseFloat host part2 with
      | FNum cal, FNum c14, FNum err =>
          if ext_lt_bool cal (Fin 0) || ext_lt_bool (Fin 100000) cal
             || ext_lt_bool c14 (Fin 0) || ext_lt_bool (Fin 100000) c14
             || ext_le_bool err (Fin 0)
          then None
          else
            (* an infinite age has failed the range test *)
            match cal, c14 with
            | Fin cal_BP_, Fin c14_BP_ =>
                Some {| cal_BP := cal_BP_; c14_BP := c14_BP_; error := err |}
            | _, _ => None
            end
      | _, _, _ => None
      end
  | _ => None
  end.

(** Lines 101-161, the [try] block: [None] when it throws. *)
Definition parsed_lines (fileContent : string) : option (list Point) :=
  let lines := filter data_line (split_on "010" fileContent) in
  if (length lines =? 0)%nat then None
  else
    let parsedLines := without_null (map parse_line lines) in
    if (length parsedLines =? 0)%nat then None else Some parsedLines.

(** Lines 95-165. *)
Definition parseCalibrationFile (fileContent : JsPrim) : list Point :=
  match fileContent with
  | JsString s =>
      if String.eqb s "" then []
      else match parsed_lines s with
           | Some parsedLines => parsedLines
           | None => []
           end
  | _ => []
  end.

(** Lines 187-206: one curve file to its entry, [None] when the fetch is
    rejected, the response is not [ok], the body cannot be read, or no point
    is parsed. *)
Definition fetch_curve (curveType filePath : string)
  : option (string * list Point) :=
  match fetch host filePath with
  | FetchResponse true (Some text) =>
      let data := parseCalibrationFile (JsString text) in
      if (length data =? 0)%nat then None else Some (curveType, data)
  | _ => None
  end.

Definition by_ascending_cal_BP (a b : Point) : Q := cal_BP a - cal_BP b.

(** Lines 216-222. *)
Definition sortedData (data : list Point) : list Point :=
  js_sort by_ascending_cal_BP
    (filter (fun point => Qle_bool 0 (cal_BP point)) data).

Definition load_failure : string :=
  "Failed to load calibration data. Please ensure all calibration files are available.".

(** Lines 173-231, from the cache [CALIBRATION_CURVES] to the cache
    afterwards and what the returned promise settles to. *)
Definition loadCalibrationData (CALIBRATION_CURVES : option Curves)
  : option Curves * LoadResult :=
  match CALIBRATION_CURVES with
  | Some calibrationCurves => (CALIBRATION_CURVES, Loaded calibrationCurves)
  | None =>
      let curveFetches :=
        map (fun file => fetch_curve (fst file) (snd file)) curveFiles in
      match promise_all curveFetches with
      | Some curveResults =>
          let calibrationCurves :=
            map (fun entry => (fst entry, sortedData (snd entry)))
                curveResults in
          (Some calibrationCurves, Loaded calibrationCurves)
      | None => (None, LoadFailed load_failure)
      end
  end.

(** Lines 237-239. *)
Definition getCalibrationData (CALIBRATION_CURVES : option Curves)
  : option Curves := CALIBRATION_CURVES.

End Parser.

(** The ranges the parser accepts (line 142). *)
Definition in_range (p : Point) : Prop :=
  (0 <= cal_BP p /\ cal_BP p <= 100000)
  /\ (0 <= c14_BP p /\ c14_BP p <= 100000)
  /\ (error p = PInf \/ exists e, error p = Fin e /\ 0 < e).

End DataLoaderJs.

(** ** The loader's curves as the engine reads them *)

(** A parsed point with a finite error is a curve point of the engine. *)
Definition as_curve_point (p : DataLoaderJs.Point) : option CurvePoint :=
  match DataLoaderJs.error p with
  | Fin e => Some {| cal_BP := DataLoaderJs.cal_BP p;
                     c14_BP := DataLoaderJs.c14_BP p;
                     error := e |}
  | _ => None
  end.

Fixpoint as_curve (data : list DataLoaderJs.Point) : option (list CurvePoint) :=
  match data with
  | [] => Some []
  | p :: rest =>
      match as_curve_point p, as_curve rest with
      | Some c, Some l => Some (c :: l)
      | _, _ => None
      end
  end.

Fixpoint as_curve_set (curves : DataLoaderJs.Curves) : option CurveSet :=
  match curves with
  | [] => Some []
  | (curveType, data) :: rest =>
      match as_curve data, as_curve_set rest with
      | Some l, Some s => Some ((curveType, EntryArray l) :: s)
      | _, _ => None
      end
  end.

(** A host for examples: no trimming, fields split at single spaces,
    numbers written as a run of decimal digits, and every file holding the
    same two lines. *)
Fixpoint digits_value (acc : Z) (s : string) : DataLoaderJs.Float :=
  match s with
  | EmptyString => DataLoaderJs.FNum (Fin (inject_Z acc))
  | String c rest =>
      let n := Z.of_nat (nat_of_ascii c) in
      if ((48 <=? n) && (n <=? 57))%Z
      then digits_value (10 * acc + (n - 48)) rest
      else DataLoaderJs.FNaN
  end.

Definition sampleHost : DataLoaderJs.Host :=
  {| DataLoaderJs.trim := fun s => s;
     DataLoaderJs.split_whitespace := DataLoaderJs.split_on " ";
     DataLoaderJs.parseFloat :=
       fun s => match s with
                | EmptyString => DataLoaderJs.FNaN
                | _ => digits_value 0 s
                end;
     DataLoaderJs.fetch :=
       fun _ => DataLoaderJs.FetchResponse true
                  (Some (String "#" (String "010"
                     ("1 200 10" ++ String "010" "0 100 10")))) |}.

(** A host whose network is down. *)
Definition offlineHost : DataLoaderJs.Host :=
  {| DataLoaderJs.trim := fun s => s;
     DataLoaderJs.split_whitespace := DataLoaderJs.split_on " ";
     DataLoaderJs.parseFloat := fun _ => DataLoaderJs.FNaN;
     DataLoaderJs.fetch := fun _ => DataLoaderJs.FetchRejected |}.

(** ** The validation script (compare-oxcal, carried in
    components/AppHeader.js from line 240 on) *)

Module CompareOxCal.

(** The part of a range the comparisons read: [startBP] is the older,
    larger bound. *)
Record BPRange : Type := mkBPRange {
  startBP : Q;
  endBP : Q
}.

(** Lines 579-583. *)
Definition rangesOverlap (range1 range2 : BPRange) : bool :=
  Qle_bool (endBP range2) (startBP range1)
  && Qle_bool (endBP range1) (startBP range2).

(** [n / d] on numbers. *)
Definition js_divide (n d : Q) : DataLoaderJs.Float :=
  if Qeq_bool d 0 then
    if Qeq_bool n 0 then DataLoaderJs.FNaN
    else DataLoaderJs.FNum (if Qlt_bool 0 n then PInf else NInf)
  else DataLoaderJs.FNum (Fin (n / d)).

(** [x * k] for a number [k]. *)
Definition js_times (x : DataLoaderJs.Float) (k : Q) : DataLoaderJs.Float :=
  match x with
  | DataLoaderJs.FNaN => DataLoaderJs.FNaN
  | DataLoaderJs.FNum (Fin q) => DataLoaderJs.FNum (Fin (q * k))
  | DataLoaderJs.FNum PInf =>
      if Qeq_bool k 0 then DataLoaderJs.FNaN
      else DataLoaderJs.FNum (if Qlt_bool 0 k then PInf else NInf)
  | DataLoaderJs.FNum NInf =>
      if Qeq_bool k 0 then DataLoaderJs.FNaN
      else DataLoaderJs.FNum (if Qlt_bool 0 k then NInf else PInf)
  end.

(** Lines 596-601: the inner loop and its [break]. *)
Definition year_covered (ourRanges : list Interval) (year : Q) : bool :=
  existsb (fun ourRange => Qle_bool (ivl_min ourRange) year
                           && Qle_bool year (ivl_max ourRange)) ourRanges.

(** Lines 595-602. *)
Fixpoint coverage_loop (fuel : nat) (ourRanges : list Interval)
  (year startBP_ : Q) (yearsCovered : Z) : result Z :=
  match fuel with
  | O => if Qle_bool year startBP_ then Diverge else Ok yearsCovered
  | S fuel' =>
      if Qle_bool year startBP_ then
        coverage_loop fuel' ourRanges (year + 1) startBP_
          (if year_covered ourRanges year
           then (yearsCovered + 1)%Z else yearsCovered)
      else Ok yearsCovered
  end.

(** Lines 588-605.  The loop is given one step for each of its
    [floor(startBP - endBP) + 1] years. *)
Definition calculateCoverage (oxcalRange : BPRange) (ourRanges : list Interval)
  : result DataLoaderJs.Float :=
  let oxcalYears := startBP oxcalRange - endBP oxcalRange + 1 in
  yearsCovered <-
    coverage_loop
      (Z.to_nat (Qfloor (startBP oxcalRange - endBP oxcalRange) + 1))
      ourRanges (endBP oxcalRange) (startBP oxcalRange) 0 ;;
  Ok (js_times (js_divide (inject_Z yearsCovered) oxcalYears) 100).

(** Lines 428-473: the script's own copy of [findHPD], which checks neither
    its distribution nor its confidence. *)
Definition findHPD (probDist : list ProbabilityPoint) (conf : Q)
  : list Interval :=
  let sortedByProb := js_sort by_descending_probability probDist in
  let totalProb := sum_probability probDist in
  let targetProb := totalProb * conf in
  let includedPoints := collect_points targetProb 0 sortedByProb in
  if (length includedPoints =? 0)%nat then []
  else
    match js_sort by_ascending_cal_BP includedPoints with
    | [] => []
    | start :: rest => contiguous_intervals start start rest
    end.

End CompareOxCal.

(** The years the coverage loop visits: [n] of them, one apart. *)
Fixpoint years_from (n : nat) (year : Q) : list Q :=
  match n with
  | O => []
  | S n' => year :: years_from n' (year + 1)
  end.

Definition oxcal_years (oxcalRange : CompareOxCal.BPRange) : list Q :=
  years_from
    (Z.to_nat (Qfloor (CompareOxCal.startBP oxcalRange
                       - CompareOxCal.endBP oxcalRange) + 1))
    (CompareOxCal.endBP oxcalRange).

(** ** The overlap test of the unit tests (calibration-data.js, lines
    343-360) *)

Module OxCalTest.

Definition rangesOverlap (a b : CompareOxCal.BPRange) : bool :=
  let least (x y : Q) := if Qle_bool x y then x else y in
  let greatest (x y : Q) := if Qle_bool x y then y else x in
  let overlap :=
    greatest 0
      (least (CompareOxCal.startBP a) (CompareOxCal.startBP b)
       - greatest (CompareOxCal.endBP a) (CompareOxCal.endBP b)) in
  Qlt_bool 0 overlap.

End OxCalTest.

(** ** The input form (components/inputs/InputForm) *)

Module InputForm.

(** [SEARCH_MODES], lines 19-23. *)
Definition SEARCH_MODES : list string :=
  [ "c14_bp"; "full_curve"; "fixed_range" ]%string.

Record FormErrors : Type := mkFormErrors {
  radiocarbon_age_error : option string;
  uncertainty_error : option string
}.

Section Validation.

(** The number a string converts to in a comparison. *)
Variable string_to_number : string -> DataLoaderJs.Float.

(** The number a value converts to in [<], [>] and [<=]. *)
Definition to_number (v : JsPrim) : DataLoaderJs.Float :=
  match v with
  | JsUndefined => DataLoaderJs.FNaN
  | JsNull => DataLoaderJs.FNum (Fin 0)
  | JsBoolean b => DataLoaderJs.FNum (Fin (if b then 1 else 0))
  | JsNumber q => DataLoaderJs.FNum (Fin q)
  | JsNaN => DataLoaderJs.FNaN
  | JsString s => string_to_number s
  end.

(** [v < k], [v > k] and [v <= k] for a number [k]: false on [NaN]. *)
Definition js_lt (v : JsPrim) (k : Q) : bool :=
  match to_number v with
  | DataLoaderJs.FNaN => false
  | DataLoaderJs.FNum x => DataLoaderJs.ext_lt_bool x (Fin k)
  end.

Definition js_gt (v : JsPrim) (k : Q) : bool :=
  match to_number v with
  | DataLoaderJs.FNaN => false
  | DataLoaderJs.FNum x => DataLoaderJs.ext_lt_bool (Fin k) x
  end.

Definition js_le (v : JsPrim) (k : Q) : bool :=
  match to_number v with
  | DataLoaderJs.FNaN => false
  | DataLoaderJs.FNum x => DataLoaderJs.ext_le_bool x (Fin k)
  end.

Definition is_null (v : JsPrim) : bool :=
  match v with
  | JsNull => true
  | _ => false
  end.

(** Lines 118-143: the error messages set, and [isValid]. *)
Definition validateInputs (radiocarbon_age uncertainty : JsPrim)
  : FormErrors * bool :=
  let age_error :=
    if is_null radiocarbon_age
    then Some "Please provide a radiocarbon age"%string
    else if js_lt radiocarbon_age 0 || js_gt radiocarbon_age 50000
    then Some "Radiocarbon age must be between 0 and 50,000 years BP"%string
    else None in
  let uncertainty_error_ :=
    if is_null uncertainty
    then Some "Please provide measurement uncertainty"%string
    else if js_le uncertainty 0
    then Some "Uncertainty must be greater than 0"%string
    else None in
  ({| radiocarbon_age_error := age_error;
      uncertainty_error := uncertainty_error_ |},
   match age_error, uncertainty_error_ with
   | None, None => true
   | _, _ => false
   end).

End Validation.

End InputForm.

(** [typeof v === 'number' && !isNaN(v)]. *)
Definition is_number (v : JsPrim) : bool :=
  match v with
  | JsNumber _ => true
  | _ => false
  end.

(** ** The query string (utils/queryParams.js) *)

Module QueryParams.

Record InputData : Type := mkInputData {
  radiocarbon_age : option DataLoaderJs.Float;
  uncertainty : option DataLoaderJs.Float;
  reservoir_correction : DataLoaderJs.Float;
  curve : string;
  search_mode : string
}.

(** [value || 0] for [value] a number or [null]. *)
Definition or_zero (value : option DataLoaderJs.Float) : DataLoaderJs.Float :=
  match value with
  | None | Some DataLoaderJs.FNaN => DataLoaderJs.FNum (Fin 0)
  | Some (DataLoaderJs.FNum (Fin q)) =>
      if Qeq_bool q 0 then DataLoaderJs.FNum (Fin 0)
      else DataLoaderJs.FNum (Fin q)
  | Some (DataLoaderJs.FNum inf) => DataLoaderJs.FNum inf
  end.

(** [values.includes(v)] for [v] a string or [null]. *)
Definition includes (values : list string) (v : option string) : bool :=
  match v with
  | Some s => existsb (String.eqb s) values
  | None => false
  end.

Section Parse.

(** [params.get(name)] on the page's query string, and [parseFloat]. *)
Variable get : string -> option string.
Variable parseFloat : string -> DataLoaderJs.Float.

(** Lines 8-11. *)
Definition getNumericParam (name : string) : option DataLoaderJs.Float :=
  match get name with
  | Some value => Some (parseFloat value)
  | None => None
  end.

(** Lines 5-28. *)
Definition parseQueryParams : InputData :=
  let searchMode := get "mode" in
  let validMode :=
    match searchMode with
    | Some m => if includes InputForm.SEARCH_MODES searchMode then m
                else C14_BP_MODE
    | None => C14_BP_MODE
    end in
  {| radiocarbon_age := getNumericParam "age";
     uncertainty := getNumericParam "uncertainty";
     reservoir_correction := or_zero (getNumericParam "reservoir");
     curve := match get "curve" with
              | Some c => if includes CURVE_TYPES (get "curve") then c
                          else INTCAL20
              | None => INTCAL20
              end;
     search_mode := validMode |}.

End Parse.

End QueryParams.

(** A number of the query string as an argument of the engine; the engine's
    arguments are [NaN] or finite. *)
Definition float_argument (x : DataLoaderJs.Float) : option JsPrim :=
  match x with
  | DataLoaderJs.FNaN => Some JsNaN
  | DataLoaderJs.FNum (Fin q) => Some (JsNumber q)
  | DataLoaderJs.FNum _ => None
  end.

(** ** Batch upload (components/BatchUpload): the rows of a parsed file *)

Module BatchUpload.

(** A parsed row: the value under a column name, [None] where the row has
    no such property. *)
Definition Row : Type := string -> option JsPrim.

(** ['column' in row] and [row.column]. *)
Definition has (row : Row) (column : string) : bool :=
  match row column with
  | Some _ => true
  | None => false
  end.

Definition field (row : Row) (column : string) : JsPrim :=
  match row column with
  | Some v => v
  | None => JsUndefined
  end.

(** What [||] lets through. *)
Definition truthy (v : JsPrim) : bool :=
  match v with
  | JsUndefined | JsNull | JsNaN => false
  | JsBoolean b => b
  | JsNumber q => negb (Qeq_bool q 0)
  | JsString s => negb (String.eqb s "")
  end.

Definition truthy_number (x : DataLoaderJs.Float) : bool :=
  match x with
  | DataLoaderJs.FNaN => false
  | DataLoaderJs.FNum (Fin q) => negb (Qeq_bool q 0)
  | DataLoaderJs.FNum _ => true
  end.

(** [a || b || c || null] on numbers: the first that is neither [NaN] nor
    zero. *)
Definition first_number (l : list DataLoaderJs.Float)
  : option DataLoaderJs.Float := find truthy_number l.

(** [a || b || null] on values. *)
Definition first_value (l : list JsPrim) : option JsPrim := find truthy l.

(** The sample identifier: a value of the row, or ["Sample n"]. *)
Inductive SampleId : Type :=
  | GivenId (v : JsPrim)
  | DefaultId (n : nat).

Record StandardRow : Type := mkStandardRow {
  sample_id : SampleId;
  radiocarbon_age : option DataLoaderJs.Float;
  uncertainty : option DataLoaderJs.Float;
  reservoir_correction : option DataLoaderJs.Float;
  curve : option JsPrim;
  original_data : Row
}.

Inductive Outcome : Type :=
  | FileParseError (message : string)
  | ParsedData (validatedData : list StandardRow).

(** [arr.map((row) => f(arr.indexOf(row), row))], each row being an object
    of its own. *)
Fixpoint map_indexed {A B : Type} (f : nat -> A -> B) (index : nat)
  (l : list A) : list B :=
  match l with
  | [] => []
  | a :: rest => f index a :: map_indexed f (S index) rest
  end.

Section Parse.

(** [parseFloat] applied to a value of a row. *)
Variable parseFloat : JsPrim -> DataLoaderJs.Float.

(** Lines 134-165. *)
Definition standardize (index : nat) (row : Row) : StandardRow :=
  let number (column : string) := parseFloat (field row column) in
  {| sample_id :=
       match first_value [field row "id"; field row "sample_id";
                          field row "name"] with
       | Some v => GivenId v
       | None => DefaultId (index + 1)
       end;
     radiocarbon_age :=
       first_number [number "radiocarbon_age"; number "age";
                     number "c14_age"]%string;
     uncertainty :=
       first_number [number "uncertainty"; number "error";
                     number "standard_deviation"]%string;
     reservoir_correction :=
       first_number [number "reservoir_correction"; number "reservoir";
                     number "marine_correction"]%string;
     curve := first_value [field row "curve"; field row "calibration_curve"];
     original_data := row |}.

(** [x !== null && !isNaN(x)] and [x > 0] on a number or [null]. *)
Definition not_null_nor_NaN (x : option DataLoaderJs.Float) : bool :=
  match x with
  | Some (DataLoaderJs.FNum _) => true
  | _ => false
  end.

Definition above_zero (x : option DataLoaderJs.Float) : bool :=
  match x with
  | Some (DataLoaderJs.FNum v) => DataLoaderJs.ext_lt_bool (Fin 0) v
  | Some DataLoaderJs.FNaN => false
  | None => false
  end.

(** Lines 168-177. *)
Definition valid_row (row : StandardRow) : bool :=
  not_null_nor_NaN (radiocarbon_age row)
  && not_null_nor_NaN (uncertainty row)
  && above_zero (radiocarbon_age row)
  && above_zero (uncertainty row).

(** Lines 117-187: what the handler stores, the parse error or the kept
    rows; [data] is [None] where [result.data] is missing. *)
Definition handleParsedData (data : option (list Row)) : Outcome :=
  match data with
  | None | Some [] => FileParseError "No data found in the file"
  | Some ((firstRow :: _) as rows) =>
      let hasRadiocarbonAge :=
        has firstRow "radiocarbon_age" || has firstRow "age"
        || has firstRow "c14_age" in
      let hasUncertainty :=
        has firstRow "uncertainty" || has firstRow "error"
        || has firstRow "standard_deviation" in
      if negb hasRadiocarbonAge || negb hasUncertainty then
        FileParseError
          "File format is invalid. Required columns: radiocarbon_age/age/c14_age and uncertainty/error/standard_deviation"
      else
        let standardizedData := map_indexed standardize 0 rows in
        let validatedData := filter valid_row standardizedData in
        if (length validatedData =? 0)%nat then
          FileParseError "No valid data found after parsing"
        else ParsedData validatedData
  end.

End Parse.

End BatchUpload.

(** A [parseFloat] for examples: numbers as they are, everything else
    [NaN]; and a row with the columns [age] and [error]. *)
Definition sampleParseFloat (v : JsPrim) : DataLoaderJs.Float :=
  match v with
  | JsNumber q => DataLoaderJs.FNum (Fin q)
  | _ => DataLoaderJs.FNaN
  end.

Definition sampleRow (age err : Q) : BatchUpload.Row :=
  fun column =>
    if String.eqb column "age" then Some (JsNumber age)
    else if String.eqb column "error" then Some (JsNumber err)
    else None.

(** A number above zero, [Infinity] included. *)
Definition positive_number (x : option DataLoaderJs.Float) : Prop :=
  x = Some (DataLoaderJs.FNum PInf)
  \/ exists q, x = Some (DataLoaderJs.FNum (Fin q)) /\ 0 < q.

(** A charted year lies inside one of the intervals. *)
Definition chart_covered (ivs : list Interval) (pt : ChartPoint) : bool :=
  existsb (fun iv => Qle_bool (ivl_min iv) (chart_x pt)
                     && Qle_bool (chart_x pt) (ivl_max iv)) ivs.

(** No charted year outside the intervals is more probable than a year
    inside. *)
Definition highest_density (ranges : list Interval)
  (chart : list ChartPoint) : Prop :=
  forall inside outside : ChartPoint,
    In inside chart -> In outside chart ->
    chart_covered ranges inside = true ->
    chart_covered ranges outside = false ->
    chart_y outside <= chart_y inside.

(** ** The arithmetic of doubles

    JavaScript numbers are IEEE 754 doubles.  [Binary64.round q] is the
    double nearest to the rational [q], a tie going to the even
    significand; an operation on doubles is the exact operation followed by
    [round].  The exponent range is left out: doubles agree with this as
    long as no result overflows (a magnitude from 2^1024 on) or falls among
    the subnormal numbers (below 2^-1022). *)

Module Binary64.

(** The nearest integer, a tie going to the even one. *)
Definition nearest_even (q : Q) : Z :=
  let f := Qfloor q in
  match Qcompare (q - inject_Z f) (1 # 2) with
  | Lt => f
  | Gt => (f + 1)%Z
  | Eq => if Z.even f then f else (f + 1)%Z
  end.

(** The exponent [e] that puts [q / 2^e] in [2^52, 2^53), for [q > 0]. *)
Definition exponent (q : Q) : Z :=
  let e := (Z.log2 (Qnum q) - Z.log2 (Zpos (Qden q)) - 52)%Z in
  if Qlt_bool (q / 2 ^ e) (2 ^ 52) then (e - 1)%Z else e.

Definition round_positive (q : Q) : Q :=
  let e := exponent q in
  Qred (inject_Z (nearest_even (q / 2 ^ e)) * 2 ^ e).

Definition round (q : Q) : Q :=
  let r := Qred q in
  match Qnum r with
  | Z0 => 0
  | Zpos _ => round_positive r
  | Zneg _ => - round_positive (- r)
  end.

Definition add (a b : Q) : Q := round (a + b).
Definition sub (a b : Q) : Q := round (a - b).
Definition mul (a b : Q) : Q := round (a * b).
Definition div (a b : Q) : Q := round (a / b).

(** A rational that is a double. *)
Definition representable (q : Q) : Prop := round q == q.

(** A rational well inside the range of doubles. *)
Definition in_range (q : Q) : Prop := Qabs q <= 2 ^ 1000.

End Binary64.

(** The doubles of the kernel, an independent implementation of IEEE 754
    that the rounding of [Binary64] is compared with. *)
Module KernelDoubles.

Import Floats.
#[local] Set Warnings "-inexact-float".

(** The rational a finite double stands for. *)
Definition value (f : float) : Q :=
  match Prim2SF f with
  | S754_finite s m e =>
      Qred ((if s then - (1) else 1) * inject_Z (Zpos m) * 2 ^ e)
  | _ => 0
  end.

(** [l.reduce((sum, p) => sum + p, 0)]. *)
Definition sum (l : list float) : float :=
  fold_left PrimFloat.add l 0%float.

(** The probabilities 0, 0.1, 0.2, 0.4, 0.2, 0.1, 0 in the order of the
    input and in descending order, and the value [interpolate] computes at
    the upper end of a segment from 199 to 1.3. *)
Definition inputOrder : list float :=
  [0; 0.1; 0.2; 0.4; 0.2; 0.1; 0]%float.

Definition descendingOrder : list float :=
  [0.4; 0.2; 0.2; 0.1; 0.1; 0; 0]%float.

Definition upperEnd : float :=
  (199 + ((200 - 100) / (200 - 100)) * (1.3 - 199))%float.

(** Products, quotients and a difference that are not exact. *)
Definition inexact : list float :=
  [0.1 * 0.95; 1 / 3; 0.7 / 0.3; 100000 - 0.1; 0.682 * (0.1 + 0.2);
   - 7 / 3]%float.

End KernelDoubles.

(** ** interpolate and findHPD with the arithmetic as a parameter

    The additions, subtractions, products and quotients of the source, and
    the value of its decimal constants, are parameters: with the exact
    operations these are the definitions above, with those of [Binary64]
    they are what the code computes on doubles.  Comparisons are exact on
    doubles, and so is the sign of a difference, which is all a sort
    comparator is read for. *)

(** The second argument of [findHPD] as a caller can pass it: a number, or
    [NaN] (an omitted argument, [undefined], behaves as [NaN] in every
    place the argument is read). *)
Inductive Confidence : Type :=
  | ConfNaN
  | ConfNumber (conf : Q).

Module Rounded.

Section Arithmetic.

Variable constant : Q -> Q.
Variables add sub mul div : Q -> Q -> Q.

(** Lines 12-26. *)
Definition interpolate (targetCalBP : Q) (lowerPoint upperPoint : CurvePoint)
  : CurveValue :=
  if Qeq_bool (cal_BP lowerPoint) (cal_BP upperPoint) then
    {| cv_c14_BP := c14_BP lowerPoint; cv_error := error lowerPoint |}
  else
    let factor := div (sub targetCalBP (cal_BP lowerPoint))
                      (sub (cal_BP upperPoint) (cal_BP lowerPoint)) in
    {| cv_c14_BP := add (c14_BP lowerPoint)
                        (mul factor (sub (c14_BP upperPoint)
                                         (c14_BP lowerPoint)));
       cv_error := add (error lowerPoint)
                       (mul factor (sub (error upperPoint)
                                        (error lowerPoint))) |}.

(** [probDist.reduce((sum, p) => sum + p.probability, 0)]. *)
Definition sum_probability (probDist : list ProbabilityPoint) : Q :=
  fold_left (fun sum p => add sum (probability p)) probDist 0.

(** Line 77: both comparisons are false on [NaN]. *)
Definition out_of_range (conf : Confidence) : bool :=
  match conf with
  | ConfNaN => false
  | ConfNumber q => Qle_bool q 0 || Qlt_bool 1 q
  end.

(** Lines 77-80: the confidence actually used. *)
Definition effective_confidence (conf : Confidence) : Confidence :=
  if out_of_range conf then ConfNumber (constant (95 # 100)) else conf.

(** Line 87: [totalProb * conf], [None] for [NaN]. *)
Definition target (totalProb : Q) (conf : Confidence) : option Q :=
  match conf with
  | ConfNaN => None
  | ConfNumber q => Some (mul totalProb q)
  end.

(** Line 96: [cumulativeProb >= targetProb], false when the target is
    [NaN]. *)
Definition reached (targetProb : option Q) (cumulativeProb : Q) : bool :=
  match targetProb with
  | None => false
  | Some t => Qle_bool t cumulativeProb
  end.

(** The loop of lines 93-97. *)
Fixpoint collect_points (targetProb : option Q) (cumulativeProb : Q)
  (sortedByProb : list ProbabilityPoint) : list ProbabilityPoint :=
  match sortedByProb with
  | [] => []
  | point :: rest =>
      let cumulativeProb' := add cumulativeProb (probability point) in
      point :: (if reached targetProb cumulativeProb' then []
                else collect_points targetProb cumulativeProb' rest)
  end.

(** Lines 83-97, for a confidence already checked. *)
Definition includedPoints (probDist : list ProbabilityPoint)
  (conf : Confidence) : list ProbabilityPoint :=
  let sortedByProb := js_sort by_descending_probability probDist in
  let totalProb := sum_probability probDist in
  let targetProb := target totalProb conf in
  collect_points targetProb 0 sortedByProb.

(** The loop of lines 112-123 with the final push. *)
Fixpoint contiguous_intervals (start prev : ProbabilityPoint)
  (rest : list ProbabilityPoint) : list Interval :=
  match rest with
  | [] => [ {| ivl_min := pp_cal_BP start; ivl_max := pp_cal_BP prev |} ]
  | curr :: rest' =>
      if Qlt_bool 1 (sub (pp_cal_BP curr) (pp_cal_BP prev)) then
        {| ivl_min := pp_cal_BP start; ivl_max := pp_cal_BP prev |}
          :: contiguous_intervals curr curr rest'
      else contiguous_intervals start curr rest'
  end.

(** Lines 99-125. *)
Definition intervals_of (included : list ProbabilityPoint) : list Interval :=
  match js_sort by_ascending_cal_BP included with
  | [] => []
  | start :: rest => contiguous_intervals start start rest
  end.

(** Lines 70-126.  The warning of line 78 is logged for a number only:
    [NaN] passes the test of line 77. *)
Definition findHPD (probDist : DistributionArg) (conf : Confidence)
  : list Warning * list Interval :=
  match probDist with
  | NotAnArray _ | AnArray [] => ([WarnInvalidDistribution], [])
  | AnArray dist =>
      let warnings :=
        match conf with
        | ConfNumber q =>
            if out_of_range conf then [WarnInvalidConfidence q] else []
        | ConfNaN => []
        end in
      (warnings, intervals_of (includedPoints dist (effective_confidence conf)))
  end.

(** The differences the gap test of line 116 takes on a distribution are
    exact (as they are on doubles for calendar ages that are whole
    years). *)
Definition exact_differences (dist : list ProbabilityPoint) : bool :=
  forallb (fun p =>
    forallb (fun q => Qeq_bool (sub (pp_cal_BP q) (pp_cal_BP p))
                               (pp_cal_BP q - pp_cal_BP p)) dist) dist.

End Arithmetic.

End Rounded.

(** The code on doubles. *)
Module Doubles.

Definition interpolate : Q -> CurvePoint -> CurvePoint -> CurveValue :=
  Rounded.interpolate Binary64.add Binary64.sub Binary64.mul Binary64.div.

Definition sum_probability : list ProbabilityPoint -> Q :=
  Rounded.sum_probability Binary64.add.

Definition includedPoints
  : list ProbabilityPoint -> Confidence -> list ProbabilityPoint :=
  Rounded.includedPoints Binary64.add Binary64.mul.

Definition findHPD
  : DistributionArg -> Confidence -> list Warning * list Interval :=
  Rounded.findHPD Binary64.round Binary64.add Binary64.sub Binary64.mul.

Definition exact_differences : list ProbabilityPoint -> bool :=
  Rounded.exact_differences Binary64.sub.

End Doubles.

(** Calendar ages that are whole years, below 2^52 in magnitude. *)
Definition whole_years (dist : list ProbabilityPoint) : Prop :=
  forall p, In p dist ->
    exists z : Z, pp_cal_BP p == inject_Z z /\ (Z.abs z < 2 ^ 52)%Z.

(** The distribution of the first [findHPD] unit test as doubles, with a
    year of probability 0 added at either end. *)
Definition paddedProbDist : list ProbabilityPoint :=
  [ mkProbabilityPoint 99 0;
    mkProbabilityPoint 100 (Binary64.round (1 # 10));
    mkProbabilityPoint 101 (Binary64.round (2 # 10));
    mkProbabilityPoint 102 (Binary64.round (4 # 10));
    mkProbabilityPoint 103 (Binary64.round (2 # 10));
    mkProbabilityPoint 104 (Binary64.round (1 # 10));
    mkProbabilityPoint 105 0 ].

(** The distribution of the first [findHPD] unit test as doubles. *)
Definition testProbDist64 : list ProbabilityPoint :=
  map (fun p => {| pp_cal_BP := pp_cal_BP p;
                   probability := Binary64.round (probability p) |})
      testProbDist.

(** The distribution of the second [findHPD] unit test as doubles. *)
Definition twoPeakProbDist64 : list ProbabilityPoint :=
  [ mkProbabilityPoint 100 (Binary64.round (1 # 10));
    mkProbabilityPoint 101 (Binary64.round (3 # 10));
    mkProbabilityPoint 102 (Binary64.round (5 # 100));
    mkProbabilityPoint 110 (Binary64.round (5 # 100));
    mkProbabilityPoint 111 (Binary64.round (3 # 10));
    mkProbabilityPoint 112 (Binary64.round (1 # 10)) ].

(** Two years, the second with a probability too small to change the
    sum: 1 + 2^-60 is 1 on doubles. *)
Definition absorbedProbDist : list ProbabilityPoint :=
  [ mkProbabilityPoint 100 1; mkProbabilityPoint 101 (1 / 2 ^ 60) ].

(** A distribution with a point half a year after another. *)
Definition halfYearProbDist : list ProbabilityPoint :=
  [ mkProbabilityPoint 100 (1 # 2); mkProbabilityPoint (201 # 2) (1 # 16);
    mkProbabilityPoint 101 (1 # 4); mkProbabilityPoint 200 (3 # 16) ].

(** A segment whose upper radiocarbon age is the double 1.3. *)
Definition steepLower : CurvePoint := mkCurvePoint 100 199 10.
Definition steepUpper : CurvePoint :=
  mkCurvePoint 200 (Binary64.round (13 # 10)) 20.

(** A distribution with one dominant year. *)
Definition peakedProbDist : list ProbabilityPoint :=
  [ mkProbabilityPoint 100 (Binary64.round (1 # 100));
    mkProbabilityPoint 101 (Binary64.round (97 # 100));
    mkProbabilityPoint 102 (Binary64.round (2 # 100)) ].

(** ** The density on doubles, and the quotients of lines 327-331 *)

(** [Math.exp(x)] is exactly 0 for every double [x] below -745.14 (the
    least positive double is 2^-1074): the density of lines 138-144 is
    exactly 0 once half the squared deviation exceeds 746 times the squared
    total error. *)
Definition underflows (c14Age c14Error curveC14BP curveError : Q) : bool :=
  Qlt_bool (2 * 746 * (c14Error * c14Error + curveError * curveError))
           ((c14Age - curveC14BP) * (c14Age - curveC14BP)).

Definition vanishes_on_underflow (density : Q -> Q -> Q -> Q -> Q) : Prop :=
  forall c14Age c14Error curveC14BP curveError,
    underflows c14Age c14Error curveC14BP curveError = true ->
    density c14Age c14Error curveC14BP curveError == 0.

(** The density is never negative for a positive measurement error. *)
Definition nonnegative_density (density : Q -> Q -> Q -> Q -> Q) : Prop :=
  forall c14Age c14Error curveC14BP curveError,
    0 < c14Error -> 0 <= density c14Age c14Error curveC14BP curveError.

(** A bell-shaped stand-in for the density that is 0 where the code's
    underflows. *)
Definition underflowingDensity (c14Age c14Error curveC14BP curveError : Q) : Q :=
  if underflows c14Age c14Error curveC14BP curveError then 0
  else rationalDensity c14Age c14Error curveC14BP curveError.

Section Quotients.

Variable calculateProbability : Q -> Q -> Q -> Q -> Q.

(** Lines 308-325: the density of each evaluated year. *)
Definition probabilities (curveData : list CurvePoint)
  (corrected_age uncertainty_ : Q) (search_mode_ : JsPrim)
  : result (list ProbabilityPoint) :=
  b <- calendarBounds curveData corrected_age uncertainty_ search_mode_ ;;
  uniformCurve <- createUniformDistribution curveData (fst b) (snd b) ;;
  Ok (map (fun point =>
             {| pp_cal_BP := cal_BP point;
                probability := calculateProbability corrected_age uncertainty_
                                 (c14_BP point) (error point) |}) uniformCurve).

(** Lines 327-331, each quotient as a double gives it: [NaN] for 0 / 0. *)
Definition normalizedProbabilities (curveData : list CurvePoint)
  (corrected_age uncertainty_ : Q) (search_mode_ : JsPrim)
  : result (list (Q * DataLoaderJs.Float)) :=
  ps <- probabilities curveData corrected_age uncertainty_ search_mode_ ;;
  let totalProbability := sum_probability ps in
  Ok (map (fun p => (pp_cal_BP p,
                     CompareOxCal.js_divide (probability p) totalProbability))
          ps).

End Quotients.

(* ================================================================== *)
(** * Part II: properties                                               *)
(* ================================================================== *)

(** ** Comparisons *)

Lemma Qlt_bool_iff (a b : Q) : Qlt_bool a b = true <-> a < b.
Proof.
  unfold Qlt_bool. rewrite negb_true_iff.
  split; intro H.
  - apply Qnot_le_lt. intro Hle. apply Qle_bool_iff in Hle. congruence.
  - destruct (Qle_bool b a) eqn:E; [|reflexivity].
    apply Qle_bool_iff in E. exfalso. apply (Qlt_not_le a b); assumption.
Qed.

Lemma Qlt_bool_false (a b : Q) : Qlt_bool a b = false <-> b <= a.
Proof.
  unfold Qlt_bool. rewrite negb_false_iff. apply Qle_bool_iff.
Qed.

Lemma Qle_bool_false (a b : Q) : Qle_bool a b = false <-> b < a.
Proof.
  rewrite <- Qlt_bool_iff. unfold Qlt_bool.
  destruct (Qle_bool a b); simpl; split; congruence.
Qed.

Lemma Qeq_bool_false (a b : Q) : Qeq_bool a b = false <-> ~ a == b.
Proof.
  split.
  - apply Qeq_bool_neq.
  - intro H. destruct (Qeq_bool a b) eqn:E; [|reflexivity].
    apply Qeq_bool_iff in E. contradiction.
Qed.

(** Turns the boolean tests of the embedding into order facts. *)
Ltac qbool :=
  repeat match goal with
  | H : Qlt_bool _ _ = true |- _ => apply Qlt_bool_iff in H
  | H : Qlt_bool _ _ = false |- _ => apply Qlt_bool_false in H
  | H : Qle_bool _ _ = true |- _ => apply Qle_bool_iff in H
  | H : Qle_bool _ _ = false |- _ => apply Qle_bool_false in H
  | H : Qeq_bool _ _ = true |- _ => apply Qeq_bool_iff in H
  | H : Qeq_bool _ _ = false |- _ => apply Qeq_bool_false in H
  end.

(** ** Rounding to doubles *)

Lemma pow2_pos (z : Z) : 0 < 2 ^ z.
Proof. apply Qpower_0_lt. reflexivity. Qed.

Lemma pow2_plus (a b : Z) : 2 ^ (a + b) == 2 ^ a * 2 ^ b.
Proof. apply Qpower_plus. intro H. discriminate H. Qed.

Lemma pow2_le (a b : Z) : (a <= b)%Z -> 2 ^ a <= 2 ^ b.
Proof.
  intro H. apply Qpower_le_compat_l; [exact H|]. unfold Qle. simpl. lia.
Qed.

Lemma pow2_inject (z : Z) : (0 <= z)%Z -> inject_Z (2 ^ z) == 2 ^ z.
Proof. intro H. apply (Zpower_Qpower 2 z H). Qed.

Lemma log2_bounds (p : positive) :
  2 ^ Z.log2 (Zpos p) <= inject_Z (Zpos p)
  /\ inject_Z (Zpos p) < 2 ^ (Z.log2 (Zpos p) + 1).
Proof.
  destruct (Z.log2_spec (Zpos p) ltac:(lia)) as [H1 H2].
  pose proof (Z.log2_nonneg (Zpos p)) as H0.
  split.
  - rewrite <- pow2_inject by exact H0. rewrite <- Zle_Qle. exact H1.
  - rewrite <- pow2_inject by lia. rewrite <- Zlt_Qlt.
    unfold Z.succ in H2. exact H2.
Qed.

(** A positive rational lies between two consecutive powers of two read off
    the sizes of its numerator and denominator. *)
Lemma positive_between_powers (n d : positive) :
  let s := (Z.log2 (Zpos n) - Z.log2 (Zpos d))%Z in
  2 ^ (s - 1) < Zpos n # d /\ Zpos n # d < 2 ^ (s + 1).
Proof.
  intro s.
  destruct (log2_bounds n) as [Hn1 Hn2].
  destruct (log2_bounds d) as [Hd1 Hd2].
  assert (Hq : (Zpos n # d) * inject_Z (Zpos d) == inject_Z (Zpos n)).
  { unfold Qeq, Qmult, inject_Z. simpl. lia. }
  assert (Hd : 0 < inject_Z (Zpos d)) by reflexivity.
  split.
  - apply (Qmult_lt_r _ _ (inject_Z (Zpos d)) Hd). rewrite Hq.
    apply Qlt_le_trans with (2 ^ (s - 1) * 2 ^ (Z.log2 (Zpos d) + 1)).
    + apply Qmult_lt_l; [apply pow2_pos|exact Hd2].
    + rewrite <- pow2_plus.
      replace (s - 1 + (Z.log2 (Z.pos d) + 1))%Z with (Z.log2 (Zpos n))
        by (subst s; lia).
      exact Hn1.
  - apply (Qmult_lt_r _ _ (inject_Z (Zpos d)) Hd). rewrite Hq.
    apply Qlt_le_trans with (2 ^ (s + 1) * 2 ^ Z.log2 (Zpos d)).
    + rewrite <- pow2_plus.
      replace (s + 1 + Z.log2 (Z.pos d))%Z with (Z.log2 (Zpos n) + 1)%Z
        by (subst s; lia).
      exact Hn2.
    + apply Qmult_le_l; [apply pow2_pos|exact Hd1].
Qed.

(** The scaled significand lies in [2^52, 2^53). *)
Lemma exponent_spec (n d : positive) :
  let q := Zpos n # d in
  2 ^ 52 * 2 ^ Binary64.exponent q <= q
  /\ q < 2 ^ 53 * 2 ^ Binary64.exponent q.
Proof.
  intro q. unfold Binary64.exponent. cbn [Qnum Qden q].
  set (e := (Z.log2 (Zpos n) - Z.log2 (Zpos d) - 52)%Z).
  destruct (positive_between_powers n d) as [Hlo Hhi]. fold q in Hlo, Hhi.
  cbv zeta in Hlo, Hhi.
  replace (Z.log2 (Zpos n) - Z.log2 (Zpos d) - 1)%Z with (51 + e)%Z in Hlo
    by (subst e; lia).
  replace (Z.log2 (Zpos n) - Z.log2 (Zpos d) + 1)%Z with (53 + e)%Z in Hhi
    by (subst e; lia).
  rewrite pow2_plus in Hlo, Hhi.
  pose proof (pow2_pos e) as He.
  assert (E1 : 2 ^ (e - 1) * 2 == 2 ^ e).
  { replace e with ((e - 1) + 1)%Z at 2 by lia. rewrite pow2_plus.
    reflexivity. }
  assert (E52 : 2 ^ 52 == 2 * 2 ^ 51) by reflexivity.
  assert (E53 : 2 ^ 53 == 2 * 2 ^ 52) by reflexivity.
  pose proof (pow2_pos (e - 1)) as He1.
  assert (Hx : q == (q / 2 ^ e) * 2 ^ e).
  { field. intro H. rewrite H in He. discriminate He. }
  set (c51 := 2 ^ 51) in *. set (c52 := 2 ^ 52) in *.
  set (c53 := 2 ^ 53) in *. set (p := 2 ^ e) in *.
  set (h := 2 ^ (e - 1)) in *. set (x := q / p) in *.
  clearbody c51 c52 c53.
  assert (Eh : h == p * (1 # 2)) by lra.
  assert (G1 : c52 * h == c51 * p) by (rewrite E52, Eh; ring).
  assert (G2 : c53 * h == c52 * p) by (rewrite E53, Eh; ring).
  destruct (Qlt_bool x c52) eqn:Eb.
  - apply Qlt_bool_iff in Eb.
    assert (Hxp : x * p < c52 * p) by (apply Qmult_lt_r; assumption).
    fold h. split.
    + rewrite G1. apply Qlt_le_weak, Hlo.
    + rewrite G2, Hx. exact Hxp.
  - assert (Hge : c52 <= x).
    { destruct (Qlt_le_dec x c52) as [Hlt|Hge]; [|exact Hge].
      apply Qlt_bool_iff in Hlt. congruence. }
    assert (Hxp : c52 * p <= x * p) by (apply Qmult_le_r; assumption).
    fold p. split; [rewrite Hx; exact Hxp|exact Hhi].
Qed.

Lemma nearest_even_error (x : Q) :
  Qabs (inject_Z (Binary64.nearest_even x) - x) <= 1 # 2.
Proof.
  unfold Binary64.nearest_even.
  pose proof (Qfloor_le x) as H1. pose proof (Qlt_floor x) as H2.
  rewrite inject_Z_plus in H2. change (inject_Z 1) with 1 in H2.
  apply Qabs_case; intro Hs;
    destruct (Qcompare_spec (x - inject_Z (Qfloor x)) (1 # 2)) as [E|E|E];
    try destruct (Z.even (Qfloor x));
    rewrite ?inject_Z_plus; change (inject_Z 1) with 1; lra.
Qed.

Lemma nearest_even_bounds (x : Q) :
  inject_Z (Qfloor x) <= inject_Z (Binary64.nearest_even x)
  /\ inject_Z (Binary64.nearest_even x) <= inject_Z (Qfloor x) + 1.
Proof.
  unfold Binary64.nearest_even.
  destruct (Qcompare _ _); try destruct (Z.even (Qfloor x));
    rewrite ?inject_Z_plus; change (inject_Z 1) with 1; split; lra.
Qed.

Lemma nearest_even_monotone (x y : Q) :
  x <= y -> (Binary64.nearest_even x <= Binary64.nearest_even y)%Z.
Proof.
  intro H.
  pose proof (Qfloor_resp_le x y H) as Hf.
  destruct (Z.eq_dec (Qfloor x) (Qfloor y)) as [E|E].
  - unfold Binary64.nearest_even. rewrite E.
    destruct (Qcompare_spec (x - inject_Z (Qfloor y)) (1 # 2)) as [Ex|Ex|Ex];
      destruct (Qcompare_spec (y - inject_Z (Qfloor y)) (1 # 2)) as [Ey|Ey|Ey];
      try destruct (Z.even (Qfloor y)); try lia;
      exfalso; lra.
  - destruct (nearest_even_bounds x) as [_ Hx].
    destruct (nearest_even_bounds y) as [Hy _].
    rewrite <- (inject_Z_plus _ 1) in Hx. rewrite <- Zle_Qle in Hx, Hy. lia.
Qed.

Lemma round_positive_eq (q : Q) :
  Binary64.round_positive q
  == inject_Z (Binary64.nearest_even (q / 2 ^ Binary64.exponent q))
     * 2 ^ Binary64.exponent q.
Proof. unfold Binary64.round_positive. apply Qred_correct. Qed.

Lemma scaled_back (q : Q) (e : Z) : q == (q / 2 ^ e) * 2 ^ e.
Proof.
  field. intro H. pose proof (pow2_pos e) as He. rewrite H in He.
  discriminate He.
Qed.

Lemma round_positive_error (n d : positive) :
  let q := Zpos n # d in
  Qabs (Binary64.round_positive q - q) <= q / 2 ^ 53.
Proof.
  intro q. destruct (exponent_spec n d) as [Hlo _]. fold q in Hlo.
  cbv zeta in Hlo.
  rewrite round_positive_eq.
  pose proof (scaled_back q (Binary64.exponent q)) as Hx.
  pose proof (pow2_pos (Binary64.exponent q)) as Hp.
  set (p := 2 ^ Binary64.exponent q) in *.
  pose proof (nearest_even_error (q / p)) as Hm.
  set (x := q / p) in *.
  set (m := inject_Z (Binary64.nearest_even x)) in *.
  setoid_replace (m * p - q) with ((m - x) * p) by (rewrite Hx at 1; ring).
  rewrite Qabs_Qmult, (Qabs_pos p) by lra.
  apply Qle_trans with ((1 # 2) * p).
  - apply Qmult_le_r; assumption.
  - apply Qle_shift_div_l; [reflexivity|].
    assert (E53 : 2 ^ 53 == 2 * 2 ^ 52) by reflexivity.
    rewrite E53. lra.
Qed.

Lemma floor_of_integer_below (x : Q) (z : Z) :
  inject_Z z <= x -> (z <= Qfloor x)%Z.
Proof.
  intro H. apply Qfloor_resp_le in H. rewrite Qfloor_Z in H. exact H.
Qed.

Lemma round_positive_bounds (n d : positive) :
  let q := Zpos n # d in
  2 ^ 52 * 2 ^ Binary64.exponent q <= Binary64.round_positive q
  /\ Binary64.round_positive q <= 2 ^ 53 * 2 ^ Binary64.exponent q.
Proof.
  intro q. destruct (exponent_spec n d) as [Hlo Hhi]. fold q in Hlo, Hhi.
  cbv zeta in Hlo, Hhi.
  rewrite round_positive_eq.
  pose proof (scaled_back q (Binary64.exponent q)) as Hx.
  pose proof (pow2_pos (Binary64.exponent q)) as Hp.
  set (p := 2 ^ Binary64.exponent q) in *.
  set (x := q / p) in *.
  assert (H52 : 2 ^ 52 <= x).
  { apply Qmult_le_r with p; [exact Hp|]. rewrite <- Hx. exact Hlo. }
  assert (H53 : x < 2 ^ 53).
  { apply Qmult_lt_r with p; [exact Hp|]. rewrite <- Hx. exact Hhi. }
  destruct (nearest_even_bounds x) as [Hm1 Hm2].
  assert (Hf1 : (2 ^ 52 <= Qfloor x)%Z).
  { apply floor_of_integer_below. rewrite pow2_inject by lia. exact H52. }
  assert (Hf2 : (Qfloor x < 2 ^ 53)%Z).
  { rewrite Zlt_Qlt. rewrite pow2_inject by lia.
    apply Qle_lt_trans with x; [apply Qfloor_le|exact H53]. }
  assert (Hm1' : 2 ^ 52 <= inject_Z (Binary64.nearest_even x)).
  { apply Qle_trans with (inject_Z (Qfloor x)); [|exact Hm1].
    rewrite <- pow2_inject by lia. rewrite <- Zle_Qle. exact Hf1. }
  assert (Hm2' : inject_Z (Binary64.nearest_even x) <= 2 ^ 53).
  { apply Qle_trans with (inject_Z (Qfloor x) + 1); [exact Hm2|].
    rewrite <- (pow2_inject 53) by lia.
    rewrite <- (inject_Z_plus _ 1), <- Zle_Qle. lia. }
  split; apply Qmult_le_r; assumption.
Qed.

Lemma exponent_monotone (n1 d1 n2 d2 : positive) :
  Zpos n1 # d1 <= Zpos n2 # d2 ->
  (Binary64.exponent (Zpos n1 # d1) <= Binary64.exponent (Zpos n2 # d2))%Z.
Proof.
  intro H.
  destruct (exponent_spec n1 d1) as [Hlo1 _].
  destruct (exponent_spec n2 d2) as [_ Hhi2].
  cbv zeta in Hlo1, Hhi2.
  set (e1 := Binary64.exponent (Zpos n1 # d1)) in *.
  set (e2 := Binary64.exponent (Zpos n2 # d2)) in *.
  destruct (Z_le_gt_dec e1 e2) as [Hle|Hgt]; [exact Hle|exfalso].
  assert (Hp : 2 ^ (e2 + 1) <= 2 ^ e1) by (apply pow2_le; lia).
  rewrite pow2_plus in Hp.
  assert (E53 : 2 ^ 53 == 2 ^ 52 * 2 ^ 1) by reflexivity.
  rewrite E53 in Hhi2.
  assert (H52 : 0 < 2 ^ 52) by reflexivity.
  assert (Hq : 2 ^ 52 * (2 ^ e2 * 2 ^ 1) <= 2 ^ 52 * 2 ^ e1)
    by (apply Qmult_le_l; assumption).
  set (c := 2 ^ 52) in *. clearbody c.
  setoid_replace (c * 2 ^ 1 * 2 ^ e2) with (c * (2 ^ e2 * 2 ^ 1)) in Hhi2
    by ring.
  lra.
Qed.

Lemma round_positive_monotone (n1 d1 n2 d2 : positive) :
  Zpos n1 # d1 <= Zpos n2 # d2 ->
  Binary64.round_positive (Zpos n1 # d1)
  <= Binary64.round_positive (Zpos n2 # d2).
Proof.
  intro H. pose proof (exponent_monotone n1 d1 n2 d2 H) as He.
  destruct (Z.eq_dec (Binary64.exponent (Zpos n1 # d1))
                     (Binary64.exponent (Zpos n2 # d2))) as [E|E].
  - rewrite !round_positive_eq, E.
    pose proof (pow2_pos (Binary64.exponent (Zpos n2 # d2))) as Hp.
    apply Qmult_le_r; [exact Hp|]. rewrite <- Zle_Qle.
    apply nearest_even_monotone.
    apply Qmult_le_r with (2 ^ Binary64.exponent (Z.pos n2 # d2));
      [exact Hp|].
    rewrite <- !scaled_back. exact H.
  - destruct (round_positive_bounds n1 d1) as [_ H1].
    destruct (round_positive_bounds n2 d2) as [H2 _].
    cbv zeta in H1, H2.
    set (e1 := Binary64.exponent (Zpos n1 # d1)) in *.
    set (e2 := Binary64.exponent (Zpos n2 # d2)) in *.
    assert (Hp : 2 ^ (e1 + 1) <= 2 ^ e2) by (apply pow2_le; lia).
    rewrite pow2_plus in Hp.
    assert (E53 : 2 ^ 53 == 2 ^ 52 * 2 ^ 1) by reflexivity.
    rewrite E53 in H1.
    assert (H52 : 0 < 2 ^ 52) by reflexivity.
    assert (Hq : 2 ^ 52 * (2 ^ e1 * 2 ^ 1) <= 2 ^ 52 * 2 ^ e2)
      by (apply Qmult_le_l; assumption).
    set (c := 2 ^ 52) in *. clearbody c.
    setoid_replace (c * 2 ^ 1 * 2 ^ e1) with (c * (2 ^ e1 * 2 ^ 1)) in H1
      by ring.
    lra.
Qed.

Lemma round_cases (q : Q) :
  (q == 0 /\ Binary64.round q = 0)
  \/ (exists n d, q == Zpos n # d
        /\ Binary64.round q = Binary64.round_positive (Zpos n # d))
  \/ (exists n d, q == - (Zpos n # d)
        /\ Binary64.round q = - Binary64.round_positive (Zpos n # d)).
Proof.
  unfold Binary64.round. pose proof (Qred_correct q) as E.
  destruct (Qred q) as [[|n|n] d]; cbn [Qnum].
  - left. split; [|reflexivity]. rewrite <- E. reflexivity.
  - right. left. exists n, d. split; [symmetry; exact E|reflexivity].
  - right. right. exists n, d. split; [|reflexivity].
    rewrite <- E. reflexivity.
Qed.

Lemma round_positive_pos (n d : positive) :
  0 < Binary64.round_positive (Zpos n # d).
Proof.
  destruct (round_positive_bounds n d) as [H _]. cbv zeta in H.
  eapply Qlt_le_trans; [|exact H].
  apply Qmult_lt_0_compat; [reflexivity|apply pow2_pos].
Qed.

(** Rounding keeps the order. *)
Lemma round_monotone (x y : Q) :
  x <= y -> Binary64.round x <= Binary64.round y.
Proof.
  intro H.
  assert (Hpos : forall n d, 0 < Zpos n # d) by reflexivity.
  destruct (round_cases x) as [[Ex ->]|[(n & d & Ex & ->)|(n & d & Ex & ->)]];
    destruct (round_cases y) as [[Ey ->]|[(n' & d' & Ey & ->)|(n' & d' & Ey & ->)]];
    pose proof (Hpos n d) as Hn || idtac;
    pose proof (Hpos n' d') as Hn' || idtac;
    try pose proof (round_positive_pos n d);
    try pose proof (round_positive_pos n' d');
    try lra.
  - apply round_positive_monotone. lra.
  - assert (Hle : Zpos n' # d' <= Zpos n # d) by lra.
    apply round_positive_monotone in Hle. lra.
Qed.

(** The relative error of rounding is at most 2^-53. *)
Lemma round_error (q : Q) :
  Qabs (Binary64.round q - q) <= Qabs q / 2 ^ 53.
Proof.
  destruct (round_cases q) as [[E ->]|[(n & d & E & ->)|(n & d & E & ->)]].
  - rewrite E. apply Qle_bool_iff. reflexivity.
  - rewrite E. rewrite (Qabs_pos (Zpos n # d)) by (apply Qlt_le_weak; reflexivity).
    apply round_positive_error.
  - rewrite E. rewrite Qabs_opp.
    rewrite (Qabs_pos (Zpos n # d)) by (apply Qlt_le_weak; reflexivity).
    setoid_replace (- Binary64.round_positive (Zpos n # d) - - (Zpos n # d))
      with (- (Binary64.round_positive (Zpos n # d) - (Zpos n # d))) by ring.
    rewrite Qabs_opp. apply round_positive_error.
Qed.

Lemma round_compat (x y : Q) : x == y -> Binary64.round x = Binary64.round y.
Proof.
  intro H. unfold Binary64.round. rewrite (Qred_complete x y H). reflexivity.
Qed.

Lemma round_nonneg (x : Q) : 0 <= x -> 0 <= Binary64.round x.
Proof. intro H. apply (round_monotone 0 x H). Qed.

Lemma round_zero_inv (x : Q) : Binary64.round x == 0 -> x == 0.
Proof.
  intro H. pose proof (round_error x) as He. rewrite H in He.
  setoid_replace (0 - x) with (- x) in He by ring. rewrite Qabs_opp in He.
  assert (E : Qabs x / 2 ^ 53 == Qabs x * (1 # 2 ^ 53)) by reflexivity.
  rewrite E in He. pose proof (Qabs_nonneg x) as Hn.
  assert (Hz : Qabs x == 0).
  { assert (H1 : (1 # 2 ^ 53) < 1) by reflexivity.
    set (c := 1 # 2 ^ 53) in *. clearbody c. nra. }
  revert Hz. apply Qabs_case; intros; lra.
Qed.

Lemma nearest_even_integer (z : Z) (x : Q) :
  x == inject_Z z -> Binary64.nearest_even x = z.
Proof.
  intro H. unfold Binary64.nearest_even.
  assert (Hf : Qfloor x = z) by (rewrite H; apply Qfloor_Z).
  rewrite Hf.
  destruct (Qcompare_spec (x - inject_Z z) (1 # 2)) as [E|E|E];
    [exfalso; lra|reflexivity|exfalso; lra].
Qed.

Lemma round_positive_integer (n d : positive) (z : Z) :
  Zpos n # d == inject_Z z -> (z < 2 ^ 53)%Z ->
  Binary64.round_positive (Zpos n # d) == inject_Z z.
Proof.
  intros Hq Hn. rewrite round_positive_eq.
  destruct (exponent_spec n d) as [Hlo Hhi]. cbv zeta in Hlo, Hhi.
  set (e := Binary64.exponent (Zpos n # d)) in *.
  assert (He : (e <= 0)%Z).
  { destruct (Z_le_gt_dec e 0) as [H|H]; [exact H|exfalso].
    assert (Hp : 2 ^ 1 <= 2 ^ e) by (apply pow2_le; lia).
    assert (Hq' : 2 ^ 52 * 2 ^ 1 <= 2 ^ 52 * 2 ^ e).
    { apply Qmult_le_l; [reflexivity|exact Hp]. }
    assert (Hn' : (Zpos n # d) < 2 ^ 53).
    { rewrite Hq, <- (pow2_inject 53) by lia.
      rewrite <- Zlt_Qlt. exact Hn. }
    assert (E53 : 2 ^ 53 == 2 ^ 52 * 2 ^ 1) by reflexivity.
    rewrite E53 in Hn'. lra. }
  assert (Hx : (Zpos n # d) / 2 ^ e == inject_Z (z * 2 ^ (- e))).
  { rewrite inject_Z_mult, pow2_inject by lia.
    rewrite Qpower_opp, Hq. reflexivity. }
  rewrite (nearest_even_integer _ _ Hx).
  rewrite inject_Z_mult, pow2_inject by lia.
  rewrite <- Qmult_assoc, <- pow2_plus.
  replace (- e + e)%Z with 0%Z by lia. change (2 ^ 0) with 1. ring.
Qed.

(** An integer below 2^53 in magnitude is a double. *)
Lemma round_integer (z : Z) :
  (Z.abs z < 2 ^ 53)%Z -> Binary64.round (inject_Z z) == inject_Z z.
Proof.
  intro Hz.
  destruct (round_cases (inject_Z z))
    as [[E ->]|[(n & d & E & ->)|(n & d & E & ->)]].
  - rewrite E. reflexivity.
  - apply round_positive_integer; [symmetry; exact E|lia].
  - assert (E' : Zpos n # d == inject_Z (- z)).
    { rewrite inject_Z_opp, E. ring. }
    rewrite (round_positive_integer n d (- z) E') by lia.
    rewrite inject_Z_opp. ring.
Qed.

(** On whole years the differences of the gap test are exact. *)
Lemma whole_years_exact_differences (dist : list ProbabilityPoint) :
  whole_years dist -> Doubles.exact_differences dist = true.
Proof.
  intro Hw. unfold Doubles.exact_differences, Rounded.exact_differences.
  apply forallb_forall. intros p Hp. apply forallb_forall. intros q Hq.
  apply Qeq_bool_iff.
  destruct (Hw p Hp) as (zp & Ep & Hzp).
  destruct (Hw q Hq) as (zq & Eq & Hzq).
  assert (E : pp_cal_BP q - pp_cal_BP p == inject_Z (zq - zp)).
  { rewrite Ep, Eq. unfold Z.sub.
    rewrite inject_Z_plus, inject_Z_opp. reflexivity. }
  unfold Binary64.sub. rewrite (round_compat _ _ E), E.
  apply round_integer. lia.
Qed.

Lemma round_zero : Binary64.round 0 = 0.
Proof. reflexivity. Qed.

Lemma round_one : Binary64.round 1 = 1.
Proof. vm_compute. reflexivity. Qed.

Lemma add64_nonneg (a b : Q) : 0 <= a -> 0 <= b -> 0 <= Binary64.add a b.
Proof. intros Ha Hb. apply round_nonneg. lra. Qed.

Lemma mul64_monotone (t c c' : Q) :
  0 <= t -> c <= c' -> Binary64.mul t c <= Binary64.mul t c'.
Proof.
  intros Ht Hc. apply round_monotone.
  rewrite !(Qmult_comm t). apply Qmult_le_compat_r; assumption.
Qed.

Lemma sub64_diag (x : Q) : Binary64.sub x x = 0.
Proof.
  unfold Binary64.sub. rewrite (round_compat (x - x) 0) by ring.
  apply round_zero.
Qed.

Lemma div64_zero (d : Q) : Binary64.div 0 d = 0.
Proof.
  unfold Binary64.div.
  rewrite (round_compat (0 / d) 0) by (unfold Qdiv; ring).
  apply round_zero.
Qed.

Lemma mul64_zero (s : Q) : Binary64.mul 0 s = 0.
Proof.
  unfold Binary64.mul. rewrite (round_compat (0 * s) 0) by ring.
  apply round_zero.
Qed.

Lemma add64_zero (x : Q) : Binary64.add x 0 = Binary64.round x.
Proof. unfold Binary64.add. apply round_compat. ring. Qed.

Lemma div64_diag (d : Q) : ~ d == 0 -> Binary64.div d d = 1.
Proof.
  intro H. unfold Binary64.div.
  rewrite (round_compat (d / d) 1) by (field; exact H).
  apply round_one.
Qed.

(** [findHPD] on doubles returns what the unit tests of the source expect
    (calibration-data.js, lines 208-259). *)
Lemma findHPD_as_in_unit_tests :
  snd (Doubles.findHPD (AnArray testProbDist64)
         (ConfNumber (Binary64.round (6 # 10))))
  = [ {| ivl_min := 101; ivl_max := 102 |} ]
  /\ snd (Doubles.findHPD (AnArray testProbDist64) (ConfNumber 1))
     = [ {| ivl_min := 100; ivl_max := 104 |} ]
  /\ snd (Doubles.findHPD (AnArray twoPeakProbDist64)
            (ConfNumber (Binary64.round (6 # 10))))
     = [ {| ivl_min := 101; ivl_max := 101 |};
         {| ivl_min := 111; ivl_max := 111 |} ]
  /\ length (snd (Doubles.findHPD (AnArray twoPeakProbDist64)
                    (ConfNumber (Binary64.round (9 # 10)))))
     = 2%nat.
Proof. vm_compute. repeat split. Qed.

(** On the sums and the interpolation used as examples below, [Binary64]
    computes what the doubles of the kernel compute. *)
Lemma binary64_as_kernel_doubles :
  map probability paddedProbDist
  = map KernelDoubles.value KernelDoubles.inputOrder
  /\ Doubles.sum_probability paddedProbDist
     = KernelDoubles.value (KernelDoubles.sum KernelDoubles.inputOrder)
  /\ Doubles.sum_probability (js_sort by_descending_probability paddedProbDist)
     = KernelDoubles.value (KernelDoubles.sum KernelDoubles.descendingOrder)
  /\ cv_c14_BP (Doubles.interpolate 200 steepLower steepUpper)
     = KernelDoubles.value KernelDoubles.upperEnd
  /\ [ Binary64.mul (Binary64.round (1 # 10)) (Binary64.round (95 # 100));
       Binary64.div 1 3;
       Binary64.div (Binary64.round (7 # 10)) (Binary64.round (3 # 10));
       Binary64.sub 100000 (Binary64.round (1 # 10));
       Binary64.mul (Binary64.round (682 # 1000))
         (Binary64.add (Binary64.round (1 # 10)) (Binary64.round (2 # 10)));
       Binary64.div (- (7)) 3 ]
     = map KernelDoubles.value KernelDoubles.inexact.
Proof. vm_compute. repeat split. Qed.

(** ** interpolate *)

Lemma interpolate_degenerate (t : Q) (lower upper : CurvePoint) :
  cal_BP lower == cal_BP upper ->
  interpolate t lower upper
  = {| cv_c14_BP := c14_BP lower; cv_error := error lower |}.
Proof.
  intro H. unfold interpolate.
  apply Qeq_bool_iff in H. rewrite H. reflexivity.
Qed.

Lemma interpolate_linear (t : Q) (lower upper : CurvePoint) :
  ~ cal_BP lower == cal_BP upper ->
  interpolate t lower upper
  = let factor := (t - cal_BP lower) / (cal_BP upper - cal_BP lower) in
    {| cv_c14_BP := c14_BP lower + factor * (c14_BP upper - c14_BP lower);
       cv_error := error lower + factor * (error upper - error lower) |}.
Proof.
  intro H. unfold interpolate.
  apply Qeq_bool_false in H. rewrite H. reflexivity.
Qed.

(** With the exact operations the parametrised [interpolate] is the one of
    the exact model. *)
Lemma interpolate_exact_operations (t : Q) (lower upper : CurvePoint) :
  Rounded.interpolate Qplus Qminus Qmult Qdiv t lower upper
  = interpolate t lower upper.
Proof. reflexivity. Qed.

(** The value at the upper end of a segment, one rounding after the
    other. *)
Lemma upper_end_error (l u : Q) :
  Qabs (Binary64.add l (Binary64.mul 1 (Binary64.sub u l)) - u)
  <= (Qabs u + Qabs (u - l)) / 2 ^ 51.
Proof.
  unfold Binary64.add, Binary64.mul, Binary64.sub.
  pose proof (round_error (u - l)) as H1.
  set (s := Binary64.round (u - l)) in *.
  pose proof (round_error (1 * s)) as H2.
  set (m := Binary64.round (1 * s)) in *.
  pose proof (round_error (l + m)) as H3.
  set (v := Binary64.round (l + m)) in *.
  clearbody s m v.
  assert (E53 : forall x, x / 2 ^ 53 == x * (1 # 9007199254740992))
    by (intro x; reflexivity).
  assert (E51 : forall x, x / 2 ^ 51 == x * (1 # 2251799813685248))
    by (intro x; reflexivity).
  rewrite E53 in H1, H2, H3. rewrite E51.
  pose proof (Qabs_nonneg u) as HU.
  assert (HUu : Qabs u <= Qabs u) by apply Qle_refl.
  apply Qabs_Qle_condition in HUu.
  pose proof (Qabs_nonneg (u - l)) as HD.
  assert (HDd : Qabs (u - l) <= Qabs (u - l)) by apply Qle_refl.
  apply Qabs_Qle_condition in HDd.
  set (U := Qabs u) in *. set (D := Qabs (u - l)) in *. clearbody U D.
  apply Qabs_Qle_condition in H1.
  assert (HS : Qabs (1 * s) <= D + D * (1 # 9007199254740992)).
  { apply Qabs_Qle_condition. lra. }
  pose proof (Qabs_nonneg (1 * s)) as HS0.
  set (S := Qabs (1 * s)) in *. clearbody S.
  apply Qabs_Qle_condition in H2.
  assert (HL : Qabs (l + m)
               <= U + D * (1 # 9007199254740992)
                  + S * (1 # 9007199254740992)).
  { apply Qabs_Qle_condition. lra. }
  pose proof (Qabs_nonneg (l + m)) as HL0.
  set (L := Qabs (l + m)) in *. clearbody L.
  apply Qabs_Qle_condition in H3.
  apply Qabs_Qle_condition. lra.
Qed.

(** C8.  On doubles [interpolate] hands back the lower point's values when
    the two calendar ages coincide and otherwise interpolates both values
    with the factor [(target - lower.cal_BP) / (upper.cal_BP -
    lower.cal_BP)], every operation rounded; midway between (200, 10) at 100
    and (300, 20) at 200 it gives (250, 15); at the lower point's calendar
    age it gives the lower point's values exactly; at the upper point's (a
    different calendar age) it gives the upper point's values up to
    rounding, within 2^-51 times the magnitude of the value plus that of
    the difference between the two values.  (Values and their differences
    stay well inside the range of doubles.) *)
Theorem interpolate_on_doubles :
  (forall t lower upper,
      cal_BP lower == cal_BP upper ->
      Doubles.interpolate t lower upper
      = {| cv_c14_BP := c14_BP lower; cv_error := error lower |})
  /\ (forall t lower upper,
      ~ cal_BP lower == cal_BP upper ->
      Doubles.interpolate t lower upper
      = let factor :=
          Binary64.div (Binary64.sub t (cal_BP lower))
                       (Binary64.sub (cal_BP upper) (cal_BP lower)) in
        {| cv_c14_BP :=
             Binary64.add (c14_BP lower)
               (Binary64.mul factor
                  (Binary64.sub (c14_BP upper) (c14_BP lower)));
           cv_error :=
             Binary64.add (error lower)
               (Binary64.mul factor
                  (Binary64.sub (error upper) (error lower))) |})
  /\ (let v := Doubles.interpolate 150 (mkCurvePoint 100 200 10)
                 (mkCurvePoint 200 300 20) in
      cv_c14_BP v == 250 /\ cv_error v == 15)
  /\ (forall lower upper,
      Binary64.representable (c14_BP lower) ->
      Binary64.representable (error lower) ->
      Binary64.in_range (c14_BP upper - c14_BP lower) ->
      Binary64.in_range (error upper - error lower) ->
      let v := Doubles.interpolate (cal_BP lower) lower upper in
      cv_c14_BP v == c14_BP lower /\ cv_error v == error lower)
  /\ (forall lower upper,
      ~ cal_BP lower == cal_BP upper ->
      Binary64.in_range (cal_BP upper - cal_BP lower) ->
      Binary64.in_range (c14_BP upper) -> Binary64.in_range (c14_BP lower) ->
      Binary64.in_range (error upper) -> Binary64.in_range (error lower) ->
      let v := Doubles.interpolate (cal_BP upper) lower upper in
      Qabs (cv_c14_BP v - c14_BP upper)
      <= (Qabs (c14_BP upper) + Qabs (c14_BP upper - c14_BP lower)) / 2 ^ 51
      /\ Qabs (cv_error v - error upper)
         <= (Qabs (error upper) + Qabs (error upper - error lower)) / 2 ^ 51).
Proof.
  split; [|split; [|split; [|split]]].
  - intros t lower upper H. unfold Doubles.interpolate, Rounded.interpolate.
    apply Qeq_bool_iff in H. rewrite H. reflexivity.
  - intros t lower upper H. unfold Doubles.interpolate, Rounded.interpolate.
    apply Qeq_bool_false in H. rewrite H. reflexivity.
  - vm_compute. split; reflexivity.
  - intros lower upper Hc He _ _ v. subst v.
    unfold Doubles.interpolate, Rounded.interpolate.
    destruct (Qeq_bool (cal_BP lower) (cal_BP upper)); cbn [cv_c14_BP cv_error].
    + split; reflexivity.
    + rewrite sub64_diag, div64_zero, !mul64_zero, !add64_zero.
      split; assumption.
  - intros lower upper Hne _ _ _ _ _ v. subst v.
    unfold Doubles.interpolate, Rounded.interpolate.
    pose proof Hne as Hb. apply Qeq_bool_false in Hb. rewrite Hb.
    cbn [cv_c14_BP cv_error].
    rewrite div64_diag.
    + split; apply upper_end_error.
    + intro Hz. apply round_zero_inv in Hz. apply Hne. lra.
Qed.

Lemma interpolate_on_doubles_witness :
  Doubles.interpolate 7 (mkCurvePoint 5 1 2) (mkCurvePoint 5 3 4)
  = {| cv_c14_BP := 1; cv_error := 2 |}
  /\ cv_c14_BP (Doubles.interpolate 100 steepLower steepUpper) == 199
  /\ Qabs (cv_c14_BP (Doubles.interpolate 200 steepLower steepUpper)
           - c14_BP steepUpper)
     <= (Qabs (c14_BP steepUpper)
         + Qabs (c14_BP steepUpper - c14_BP steepLower)) / 2 ^ 51.
Proof.
  split; [|split].
  - apply (proj1 interpolate_on_doubles 7
             (mkCurvePoint 5 1 2) (mkCurvePoint 5 3 4)).
    reflexivity.
  - apply (proj1 (proj2 (proj2 (proj2 interpolate_on_doubles)))
             steepLower steepUpper);
      vm_compute; first [reflexivity | discriminate].
  - apply (proj2 (proj2 (proj2 (proj2 interpolate_on_doubles)))
             steepLower steepUpper);
      vm_compute; first [reflexivity | discriminate].
Defined.

(** At the upper end of the segment from 199 to the double 1.3 the value
    returned is not the upper point's: it lies 51 units in the last place
    above it. *)
Lemma interpolate_upper_endpoint_inexact :
  let v := Doubles.interpolate (cal_BP steepUpper) steepLower steepUpper in
  ~ cal_BP steepLower == cal_BP steepUpper
  /\ ~ cv_c14_BP v == c14_BP steepUpper
  /\ cv_c14_BP v - c14_BP steepUpper == 51 / 2 ^ 52.
Proof.
  vm_compute. repeat split; intro H; discriminate H.
Qed.

(** ** findHPD: input validation *)

Lemma effective_confidence_valid (conf : Q) :
  0 < conf -> conf <= 1 -> effective_confidence conf = conf.
Proof.
  intros H0 H1. unfold effective_confidence.
  apply Qle_bool_false in H0. apply Qlt_bool_false in H1.
  rewrite H0, H1. reflexivity.
Qed.

(** With the exact operations and a number as confidence the parametrised
    [findHPD] is the one of the exact model. *)
Lemma collect_points_exact_operations (l : list ProbabilityPoint) :
  forall targetProb cumulativeProb,
    Rounded.collect_points Qplus (Some targetProb) cumulativeProb l
    = collect_points targetProb cumulativeProb l.
Proof.
  induction l as [|p l IH]; intros t c; simpl.
  - reflexivity.
  - rewrite IH. reflexivity.
Qed.

Lemma contiguous_exact_operations (rest : list ProbabilityPoint) :
  forall start prev,
    Rounded.contiguous_intervals Qminus start prev rest
    = contiguous_intervals start prev rest.
Proof.
  induction rest as [|curr rest IH]; intros start prev; simpl.
  - reflexivity.
  - rewrite !IH. reflexivity.
Qed.

Lemma includedPoints_exact_operations (dist : list ProbabilityPoint)
  (conf : Q) :
  Rounded.includedPoints Qplus Qmult dist (ConfNumber conf)
  = includedPoints dist conf.
Proof.
  unfold Rounded.includedPoints, includedPoints, Rounded.target.
  apply collect_points_exact_operations.
Qed.

Lemma intervals_of_exact_operations (included : list ProbabilityPoint) :
  Rounded.intervals_of Qminus included = intervals_of included.
Proof.
  unfold Rounded.intervals_of, intervals_of.
  destruct (js_sort by_ascending_cal_BP included) as [|start rest];
    [reflexivity|apply contiguous_exact_operations].
Qed.

Lemma findHPD_exact_operations (probDist : DistributionArg) (conf : Q) :
  Rounded.findHPD (fun q => q) Qplus Qminus Qmult probDist (ConfNumber conf)
  = findHPD probDist conf.
Proof.
  destruct probDist as [v|[|p dist]]; try reflexivity.
  unfold Rounded.findHPD, findHPD, Rounded.effective_confidence,
    effective_confidence, Rounded.out_of_range.
  destruct (Qle_bool conf 0 || Qlt_bool 1 conf);
    rewrite includedPoints_exact_operations, intervals_of_exact_operations;
    reflexivity.
Qed.

(** With a target that is [NaN] the threshold loop never leaves early. *)
Lemma collect_points_nan (add : Q -> Q -> Q) (l : list ProbabilityPoint) :
  forall cumulativeProb,
    Rounded.collect_points add None cumulativeProb l = l.
Proof.
  induction l as [|p l IH]; intro c; simpl.
  - reflexivity.
  - rewrite IH. destruct l; reflexivity.
Qed.

(** C9.  [findHPD] answers the empty list (with its warning) for an input
    that is not an array and for the empty array; for a non-empty array and
    a number outside (0, 1] it logs one warning and returns exactly the
    intervals it returns for 0.95.  For [NaN] (or no confidence at all),
    which is not in (0, 1] either, it logs nothing and does not use 0.95:
    the test of line 77 lets [NaN] through, the target is [NaN], and every
    point is kept.  On the distribution 0.01, 0.97, 0.02 at the years 100 to
    102 that is the interval from 100 to 102, where 0.95 gives the year 101
    alone. *)
Theorem findHPD_nan_confidence :
  (forall v conf,
      Doubles.findHPD (NotAnArray v) conf = ([WarnInvalidDistribution], []))
  /\ (forall conf,
      Doubles.findHPD (AnArray []) conf = ([WarnInvalidDistribution], []))
  /\ (forall dist conf,
        dist <> [] ->
        conf <= 0 \/ 1 < conf ->
        Doubles.findHPD (AnArray dist) (ConfNumber conf)
        = ([WarnInvalidConfidence conf],
           snd (Doubles.findHPD (AnArray dist)
                  (ConfNumber (Binary64.round (95 # 100))))))
  /\ (forall dist,
        dist <> [] ->
        Doubles.findHPD (AnArray dist) ConfNaN
        = ([], Rounded.intervals_of Binary64.sub
                 (js_sort by_descending_probability dist)))
  /\ Doubles.findHPD (AnArray peakedProbDist) ConfNaN
     = ([], [ {| ivl_min := 100; ivl_max := 102 |} ])
  /\ Doubles.findHPD (AnArray peakedProbDist)
       (ConfNumber (Binary64.round (95 # 100)))
     = ([], [ {| ivl_min := 101; ivl_max := 101 |} ]).
Proof.
  split; [reflexivity|]. split; [reflexivity|].
  split; [|split; [|split]].
  - intros dist conf Hne Hconf.
    destruct dist as [|p dist]; [congruence|].
    unfold Doubles.findHPD, Rounded.findHPD.
    assert (Hb : Rounded.out_of_range (ConfNumber conf) = true).
    { unfold Rounded.out_of_range. destruct Hconf as [H | H].
      - apply Qle_bool_iff in H. rewrite H. reflexivity.
      - apply Qlt_bool_iff in H. rewrite H. apply orb_true_r. }
    unfold Rounded.effective_confidence. rewrite Hb.
    assert (Hd : Rounded.out_of_range (ConfNumber (Binary64.round (95 # 100)))
                 = false) by (vm_compute; reflexivity).
    rewrite Hd. reflexivity.
  - intros dist Hne. destruct dist as [|p dist]; [congruence|].
    unfold Doubles.findHPD, Rounded.findHPD, Rounded.effective_confidence,
      Rounded.includedPoints.
    cbn [Rounded.out_of_range Rounded.target].
    rewrite collect_points_nan. reflexivity.
  - vm_compute. reflexivity.
  - vm_compute. reflexivity.
Qed.

Lemma findHPD_nan_confidence_witness :
  Doubles.findHPD (AnArray peakedProbDist) ConfNaN
  = ([], Rounded.intervals_of Binary64.sub
           (js_sort by_descending_probability peakedProbDist)).
Proof.
  apply (proj1 (proj2 (proj2 (proj2 findHPD_nan_confidence))) peakedProbDist).
  discriminate.
Defined.

(** ** calibrateDate: search mode and reservoir correction *)

Lemma Qminus_0_r_eq (x : Q) : x - 0 = x.
Proof.
  destruct x as [n d]. unfold Qminus, Qplus, Qopp. simpl.
  rewrite Z.mul_1_r, Z.add_0_r, Pos.mul_1_r. reflexivity.
Qed.

Lemma policy_bounds_default (curveData : list CurvePoint) (age u : Q)
  (m : JsPrim) :
  m <> JsString "c14_bp" -> m <> JsString "full_curve" ->
  policy_bounds curveData age u m = Ok (Fin 0, Fin 12000).
Proof.
  intros H1 H2. unfold policy_bounds.
  destruct m as [| |b|q| |s]; try reflexivity.
  destruct (String.eqb s "c14_bp") eqn:E1.
  - apply String.eqb_eq in E1. subst s. congruence.
  - destruct (String.eqb s "full_curve") eqn:E2; [|reflexivity].
    apply String.eqb_eq in E2. subst s. congruence.
Qed.

Section SearchMode.

Variable calculateProbability : Q -> Q -> Q -> Q -> Q.
Variable loader : DataLoader.

Lemma normalizedDistribution_default (curveData : list CurvePoint) (age u : Q)
  (m : JsPrim) :
  m <> JsString "c14_bp" -> m <> JsString "full_curve" ->
  normalizedDistribution calculateProbability curveData age u m
  = normalizedDistribution calculateProbability curveData age u
      (JsString "fixed_range").
Proof.
  intros H1 H2. unfold normalizedDistribution, calendarBounds.
  rewrite (policy_bounds_default curveData age u m H1 H2).
  reflexivity.
Qed.

Lemma calibrate_default (age u r : Q) (curveType : string) (m : JsPrim)
  (curveData : list CurvePoint) :
  m <> JsString "c14_bp" -> m <> JsString "full_curve" ->
  calibrate calculateProbability loader age u r curveType m curveData
  = map_logged (with_search_mode m)
      (calibrate calculateProbability loader age u r curveType
         (JsString "fixed_range") curveData).
Proof.
  intros H1 H2. unfold calibrate.
  rewrite (normalizedDistribution_default curveData (age - r) u m H1 H2).
  destruct (normalizedDistribution calculateProbability curveData (age - r) u
              (JsString "fixed_range")) as [dist|e|]; try reflexivity.
  destruct (findHPD (AnArray dist) (682 # 1000)) as [w68 hpd68].
  destruct (findHPD (AnArray dist) (954 # 1000)) as [w95 hpd95].
  unfold map_logged. simpl.
  destruct (js_index (js_sort by_descending_probability dist) 0);
    reflexivity.
Qed.

(** C10.  A search mode that is neither 'c14_bp' nor 'full_curve' (an omitted
    argument takes the default 'c14_bp') selects the range [0, 12000] before
    the clamp to the curve, and the call logs and returns exactly what it
    does for 'fixed_range', the echoed mode apart: no error and no warning
    comes from the mode. *)
Theorem unknown_search_mode_is_fixed_range
  (c14_age uncertainty_ reservoir curveType m : JsPrim) :
  m <> JsUndefined ->
  m <> JsString "c14_bp" ->
  m <> JsString "full_curve" ->
  (forall curveData age u,
      policy_bounds curveData age u m = Ok (Fin 0, Fin 12000))
  /\ calibrateDate calculateProbability loader
       c14_age uncertainty_ reservoir curveType m
     = map_logged (with_search_mode m)
         (calibrateDate calculateProbability loader
            c14_age uncertainty_ reservoir curveType (JsString "fixed_range")).
Proof.
  intros H0 H1 H2. split.
  - intros. apply policy_bounds_default; assumption.
  - unfold calibrateDate.
    replace (default_param (JsString C14_BP_MODE) m) with m
      by (destruct m; simpl; congruence).
    simpl (default_param (JsString C14_BP_MODE) (JsString "fixed_range")).
    destruct (valid_c14_age c14_age) as [age|]; [|reflexivity].
    destruct (valid_uncertainty uncertainty_) as [u|]; [|reflexivity].
    destruct (valid_reservoir_correction _) as [r|]; [|reflexivity].
    destruct (resolve_curve_type _) as [w ct].
    destruct (loaded_curves loader) as [curves|e|]; try reflexivity.
    destruct (curve_lookup curves ct) as [[v|[|p ps]]|]; try reflexivity.
    rewrite (calibrate_default age u r ct m (p :: ps) H1 H2).
    destruct (calibrate calculateProbability loader age u r ct
                (JsString "fixed_range") (p :: ps)) as [w' r'].
    reflexivity.
Qed.

(** C4.  With a radiocarbon age and a corrected age that both pass
    validation, [calibrateDate(c14Age, u, R)] and
    [calibrateDate(c14Age - R, u, 0)] log the same warnings and end the same
    way, with the same mode, intervals, ranges and distribution: only the
    echoed input differs. *)
Theorem reservoir_correction_equivalence
  (c14Age u R : Q) (curveType search_mode_ : JsPrim) :
  0 <= c14Age -> c14Age <= 100000 ->
  0 <= c14Age - R -> c14Age - R <= 100000 ->
  0 < u ->
  map_logged computed_part
    (calibrateDate calculateProbability loader
       (JsNumber c14Age) (JsNumber u) (JsNumber R) curveType search_mode_)
  = map_logged computed_part
      (calibrateDate calculateProbability loader
         (JsNumber (c14Age - R)) (JsNumber u) (JsNumber 0)
         curveType search_mode_).
Proof.
  intros Ha0 Ha1 Hc0 Hc1 Hu.
  assert (Hv : forall a, 0 <= a -> a <= 100000 ->
                         valid_c14_age (JsNumber a) = Some a).
  { intros a H0 H1. unfold valid_c14_age.
    apply Qlt_bool_false in H0. apply Qlt_bool_false in H1.
    rewrite H0, H1. reflexivity. }
  unfold calibrateDate. simpl default_param.
  rewrite (Hv _ Ha0 Ha1), (Hv _ Hc0 Hc1).
  destruct (valid_uncertainty (JsNumber u)) as [u'|]; [|reflexivity].
  simpl valid_reservoir_correction. cbv iota beta.
  destruct (resolve_curve_type _) as [w ct].
  destruct (loaded_curves loader) as [curves|e|]; try reflexivity.
  destruct (curve_lookup curves ct) as [[v|[|p ps]]|]; try reflexivity.
  unfold calibrate. rewrite (Qminus_0_r_eq (c14Age - R)).
  destruct (normalizedDistribution _ _ _ _ _) as [dist|e|]; try reflexivity.
  destruct (findHPD (AnArray dist) (682 # 1000)) as [w68 hpd68].
  destruct (findHPD (AnArray dist) (954 # 1000)) as [w95 hpd95].
  unfold map_logged. simpl.
  destruct (js_index (js_sort by_descending_probability dist) 0);
    reflexivity.
Qed.

End SearchMode.

(** ** getCurveValueAt *)

Lemma js_index_nat {A : Type} (l : list A) (i : nat) :
  js_index l (Z.of_nat i) = nth_error l i.
Proof.
  unfold js_index.
  destruct (Z.ltb_spec (Z.of_nat i) 0); [lia|].
  rewrite Nat2Z.id. reflexivity.
Qed.

Lemma js_index_some {A : Type} (l : list A) (i : Z) :
  (0 <= i < Z.of_nat (length l))%Z -> exists a, js_index l i = Some a.
Proof.
  intro H. unfold js_index.
  destruct (Z.ltb_spec i 0); [lia|].
  destruct (nth_error l (Z.to_nat i)) eqn:E; [eauto|].
  apply nth_error_None in E. lia.
Qed.

Lemma js_index_inv {A : Type} (l : list A) (i : Z) (a : A) :
  js_index l i = Some a ->
  (0 <= i < Z.of_nat (length l))%Z /\ nth_error l (Z.to_nat i) = Some a.
Proof.
  unfold js_index. destruct (Z.ltb_spec i 0); [discriminate|].
  intro E. split; [|exact E].
  assert (Z.to_nat i < length l)%nat
    by (apply nth_error_Some; congruence).
  lia.
Qed.

Lemma js_index_In {A : Type} (l : list A) (i : Z) (a : A) :
  js_index l i = Some a -> In a l.
Proof.
  intro H. apply js_index_inv in H. destruct H as [_ H].
  eapply nth_error_In; eassumption.
Qed.

Lemma In_js_index {A : Type} (l : list A) (a : A) :
  In a l -> exists i, js_index l i = Some a.
Proof.
  intro H. apply In_nth_error in H. destruct H as [n H].
  exists (Z.of_nat n). rewrite js_index_nat. exact H.
Qed.

Lemma ascending_nth (curveData : list CurvePoint) :
  ascending_cal_BP curveData ->
  forall (i j : nat) p q,
    (i < j)%nat ->
    nth_error curveData i = Some p -> nth_error curveData j = Some q ->
    cal_BP p < cal_BP q.
Proof.
  induction 1 as [|a l Hs IH Hall]; intros i j p q Hij Hi Hj.
  - destruct i; discriminate.
  - destruct j as [|j]; [lia|]. simpl in Hj.
    destruct i as [|i]; simpl in Hi.
    + injection Hi as <-. rewrite Forall_forall in Hall.
      apply Hall. eapply nth_error_In; eassumption.
    + apply (IH i j); [lia|assumption|assumption].
Qed.

Lemma ascending_index (curveData : list CurvePoint) :
  ascending_cal_BP curveData ->
  forall (i j : Z) p q,
    js_index curveData i = Some p -> js_index curveData j = Some q ->
    ((i < j)%Z -> cal_BP p < cal_BP q)
    /\ ((i <= j)%Z -> cal_BP p <= cal_BP q)
    /\ (cal_BP p == cal_BP q -> p = q).
Proof.
  intros Hs i j p q Hi Hj.
  apply js_index_inv in Hi. apply js_index_inv in Hj.
  destruct Hi as [Hi Ei], Hj as [Hj Ej].
  assert (Hlt : forall (a b : Z) x y,
             (0 <= a)%Z -> (a < b)%Z ->
             nth_error curveData (Z.to_nat a) = Some x ->
             nth_error curveData (Z.to_nat b) = Some y ->
             cal_BP x < cal_BP y).
  { intros a b x y Ha Hab Ex Ey.
    apply (ascending_nth _ Hs (Z.to_nat a) (Z.to_nat b)); [lia|assumption|assumption]. }
  split; [|split].
  - intro H. apply (Hlt i j); [lia|assumption..].
  - intro H. destruct (Z.eq_dec i j) as [->|Hne].
    + rewrite Ei in Ej. injection Ej as <-. apply Qle_refl.
    + apply Qlt_le_weak. apply (Hlt i j); [lia|lia|assumption..].
  - intro H. destruct (Z.lt_trichotomy i j) as [Hc|[Hc|Hc]].
    + specialize (Hlt i j p q ltac:(lia) Hc Ei Ej). lra.
    + subst j. congruence.
    + specialize (Hlt j i q p ltac:(lia) Hc Ej Ei). lra.
Qed.

Lemma curve_search_spec (curveData : list CurvePoint) (calBP : Q) :
  ascending_cal_BP curveData ->
  forall (fuel : nat) (low high : Z),
    (0 <= low)%Z -> (high < Z.of_nat (length curveData))%Z ->
    (low <= high + 1)%Z ->
    (high - low + 1 < Z.of_nat fuel)%Z ->
    (forall i p, js_index curveData i = Some p -> (i < low)%Z ->
                 cal_BP p < calBP) ->
    (forall i p, js_index curveData i = Some p -> (high < i)%Z ->
                 calBP < cal_BP p) ->
    (exists p, curve_search fuel curveData calBP low high = Ok (ExactMatch p)
               /\ In p curveData /\ cal_BP p == calBP)
    \/ (exists k, curve_search fuel curveData calBP low high
                  = Ok (NoMatch k (k - 1))
                  /\ (low <= k <= high + 1)%Z
                  /\ (forall i p, js_index curveData i = Some p -> (i < k)%Z ->
                                  cal_BP p < calBP)
                  /\ (forall i p, js_index curveData i = Some p ->
                                  (k - 1 < i)%Z -> calBP < cal_BP p)).
Proof.
  intros Hs. induction fuel as [|fuel IH]; intros low high H0 Hn Hlh Hf Hlo Hhi.
  - lia.
  - simpl. destruct (Z.leb_spec low high) as [Hle|Hgt].
    + set (mid := ((low + high) / 2)%Z).
      assert (Hmid : (low <= mid <= high)%Z).
      { subst mid. split.
        - apply Z.div_le_lower_bound; lia.
        - apply Z.div_le_upper_bound; lia. }
      destruct (js_index_some curveData mid ltac:(lia)) as [p Hp].
      rewrite Hp. simpl.
      destruct (Qlt_bool (cal_BP p) calBP) eqn:E1; qbool.
      * destruct (IH (mid + 1)%Z high) as [Hex|[k (Hk1 & Hk2 & Hk3 & Hk4)]];
          try lia; try assumption.
        -- intros i q Hq Hi.
           destruct (ascending_index _ Hs i mid q p Hq Hp) as (_ & Hw & _).
           specialize (Hw ltac:(lia)). lra.
        -- left. exact Hex.
        -- right. exists k. repeat split; try assumption; lia.
      * destruct (Qlt_bool calBP (cal_BP p)) eqn:E2; qbool.
        -- destruct (IH low (mid - 1)%Z) as [Hex|[k (Hk1 & Hk2 & Hk3 & Hk4)]];
             try lia; try assumption.
           ++ intros i q Hq Hi.
              destruct (ascending_index _ Hs mid i p q Hp Hq) as (_ & Hw & _).
              specialize (Hw ltac:(lia)). lra.
           ++ left. exact Hex.
           ++ right. exists k. repeat split; try assumption; lia.
        -- left. exists p. split; [reflexivity|]. split.
           ++ eapply js_index_In; eassumption.
           ++ lra.
    + right. exists low.
      replace (low - 1)%Z with high by lia.
      repeat split; try assumption; try lia.
Qed.

Lemma getCurveValueAt_inside (curveData : list CurvePoint) (calBP : Q)
  (first last : CurvePoint) :
  js_index curveData 0 = Some first ->
  js_index curveData (Z.of_nat (length curveData) - 1) = Some last ->
  cal_BP first < calBP -> calBP < cal_BP last ->
  getCurveValueAt calBP curveData
  = (s <- curve_search (S (length curveData)) curveData calBP 0
            (Z.of_nat (length curveData) - 1) ;;
     match s with
     | ExactMatch p => Ok (CurvePointItself p)
     | NoMatch low high =>
         lowerPoint <- deref (js_index curveData high) ;;
         upperPoint <- deref (js_index curveData low) ;;
         Ok (Interpolated (interpolate calBP lowerPoint upperPoint))
     end).
Proof.
  intros Hf Hl H1 H2. unfold getCurveValueAt.
  rewrite Hf. simpl.
  apply Qle_bool_false in H1. rewrite H1.
  rewrite Hl. simpl.
  apply Qle_bool_false in H2. rewrite H2.
  reflexivity.
Qed.

(** C7.  On a non-empty curve with strictly ascending calendar ages,
    [getCurveValueAt] returns the first point itself at or below the first
    calendar age, the last point itself at or above the last one, the curve
    point itself whose calendar age is the one asked for, and otherwise the
    interpolation between two adjacent curve points, one below and one above
    the calendar age asked for. *)
Theorem getCurveValueAt_spec (curveData : list CurvePoint) (calBP : Q)
  (first last : CurvePoint) :
  ascending_cal_BP curveData ->
  js_index curveData 0 = Some first ->
  js_index curveData (Z.of_nat (length curveData) - 1) = Some last ->
  (calBP <= cal_BP first ->
   getCurveValueAt calBP curveData = Ok (CurvePointItself first))
  /\ (cal_BP last <= calBP ->
      getCurveValueAt calBP curveData = Ok (CurvePointItself last))
  /\ (forall p, In p curveData -> cal_BP p == calBP ->
      getCurveValueAt calBP curveData = Ok (CurvePointItself p))
  /\ (cal_BP first < calBP -> calBP < cal_BP last ->
      (forall p, In p curveData -> ~ cal_BP p == calBP) ->
      exists (i : nat) (lowerPoint upperPoint : CurvePoint),
        nth_error curveData i = Some lowerPoint
        /\ nth_error curveData (S i) = Some upperPoint
        /\ cal_BP lowerPoint < calBP /\ calBP < cal_BP upperPoint
        /\ getCurveValueAt calBP curveData
           = Ok (Interpolated (interpolate calBP lowerPoint upperPoint))).
Proof.
  intros Hs Hf Hl.
  set (len := Z.of_nat (length curveData)) in *.
  assert (Hbelow : calBP <= cal_BP first ->
                   getCurveValueAt calBP curveData = Ok (CurvePointItself first)).
  { intro H. unfold getCurveValueAt. rewrite Hf. simpl.
    apply Qle_bool_iff in H. rewrite H. reflexivity. }
  assert (Habove : cal_BP last <= calBP ->
                   getCurveValueAt calBP curveData = Ok (CurvePointItself last)).
  { intro H. destruct (Qlt_le_dec (cal_BP first) calBP) as [Hlt|Hle].
    - unfold getCurveValueAt. rewrite Hf. simpl.
      apply Qle_bool_false in Hlt. rewrite Hlt.
      fold len. rewrite Hl. simpl.
      apply Qle_bool_iff in H. rewrite H. reflexivity.
    - rewrite (Hbelow Hle). do 2 f_equal.
      destruct (ascending_index _ Hs 0 (len - 1) first last Hf Hl)
        as (_ & Hw & Heq).
      apply js_index_inv in Hl. destruct Hl as [Hl _].
      specialize (Hw ltac:(lia)).
      apply Heq. lra. }
  assert (Hsearch :
            cal_BP first < calBP -> calBP < cal_BP last ->
            (exists p, curve_search (S (length curveData)) curveData calBP 0
                         (len - 1) = Ok (ExactMatch p)
                       /\ In p curveData /\ cal_BP p == calBP)
            \/ (exists k, curve_search (S (length curveData)) curveData calBP 0
                            (len - 1) = Ok (NoMatch k (k - 1))
                          /\ (1 <= k <= len - 1)%Z
                          /\ (forall i p, js_index curveData i = Some p ->
                                (i < k)%Z -> cal_BP p < calBP)
                          /\ (forall i p, js_index curveData i = Some p ->
                                (k - 1 < i)%Z -> calBP < cal_BP p))).
  { intros H1 H2.
    destruct (curve_search_spec curveData calBP Hs (S (length curveData))
                0 (len - 1))
      as [Hex|[k (Hk1 & Hk2 & Hk3 & Hk4)]]; try (subst len; lia).
    - intros i p Hp Hi. apply js_index_inv in Hp. lia.
    - intros i p Hp Hi. apply js_index_inv in Hp. subst len. lia.
    - left. exact Hex.
    - right. exists k. repeat split; try assumption.
      + destruct (Z.eq_dec k 0) as [->|]; [|lia].
        specialize (Hk4 0%Z first Hf ltac:(lia)). lra.
      + destruct (Z.eq_dec k len) as [->|]; [|lia].
        specialize (Hk3 (len - 1)%Z last Hl ltac:(lia)). lra. }
  split; [exact Hbelow|]. split; [exact Habove|]. split.
  - intros p Hp Hcal.
    destruct (In_js_index _ _ Hp) as [i Hi].
    destruct (Qlt_le_dec (cal_BP first) calBP) as [H1|H1].
    2:{ rewrite (Hbelow H1). do 2 f_equal.
        destruct (ascending_index _ Hs 0 i first p Hf Hi) as (_ & Hw & Heq).
        apply js_index_inv in Hi. destruct Hi as [Hi _].
        specialize (Hw ltac:(lia)). apply Heq. lra. }
    destruct (Qlt_le_dec calBP (cal_BP last)) as [H2|H2].
    2:{ rewrite (Habove H2). do 2 f_equal.
        destruct (ascending_index _ Hs i (len - 1) p last Hi Hl)
          as (_ & Hw & Heq).
        apply js_index_inv in Hi. destruct Hi as [Hi _].
        specialize (Hw ltac:(subst len; lia)). symmetry. apply Heq. lra. }
    rewrite (getCurveValueAt_inside _ _ _ _ Hf Hl H1 H2). fold len.
    destruct (Hsearch H1 H2) as [(q & Eq & Hq & Hqc)|(k & Ek & _ & Hk3 & Hk4)].
    + rewrite Eq. simpl. do 2 f_equal.
      destruct (In_js_index _ _ Hq) as [j Hj].
      destruct (ascending_index _ Hs j i q p Hj Hi) as (_ & _ & Heq).
      apply Heq. lra.
    + exfalso. destruct (Z.lt_ge_cases i k) as [Hc|Hc].
      * specialize (Hk3 i p Hi Hc). lra.
      * specialize (Hk4 i p Hi ltac:(lia)). lra.
  - intros H1 H2 Hnone.
    rewrite (getCurveValueAt_inside _ _ _ _ Hf Hl H1 H2). fold len.
    destruct (Hsearch H1 H2) as [(q & Eq & Hq & Hqc)|(k & Ek & Hk & Hk3 & Hk4)].
    + exfalso. exact (Hnone q Hq Hqc).
    + rewrite Ek. simpl.
      destruct (js_index_some curveData (k - 1) ltac:(subst len; lia))
        as [lo Hlo].
      destruct (js_index_some curveData k ltac:(subst len; lia)) as [hi Hhi].
      rewrite Hlo, Hhi. simpl.
      exists (Z.to_nat (k - 1)), lo, hi.
      apply js_index_inv in Hlo as Hlo'. apply js_index_inv in Hhi as Hhi'.
      destruct Hlo' as [_ Hlo'], Hhi' as [_ Hhi'].
      replace (Z.to_nat k) with (S (Z.to_nat (k - 1))) in Hhi' by lia.
      split; [exact Hlo'|]. split; [exact Hhi'|].
      split; [|split; [|reflexivity]].
      * apply (Hk3 (k - 1)%Z lo Hlo). lia.
      * apply (Hk4 k hi Hhi). lia.
Qed.

Lemma getCurveValueAt_spec_witness :
  getCurveValueAt 50 testCurveData
  = Ok (CurvePointItself (mkCurvePoint 100 200 10))
  /\ getCurveValueAt 500 testCurveData
     = Ok (CurvePointItself (mkCurvePoint 400 500 25))
  /\ getCurveValueAt 200 testCurveData
     = Ok (CurvePointItself (mkCurvePoint 200 300 15))
  /\ exists (i : nat) (lowerPoint upperPoint : CurvePoint),
       nth_error testCurveData i = Some lowerPoint
       /\ nth_error testCurveData (S i) = Some upperPoint
       /\ cal_BP lowerPoint < 250 /\ 250 < cal_BP upperPoint
       /\ getCurveValueAt 250 testCurveData
          = Ok (Interpolated (interpolate 250 lowerPoint upperPoint)).
Proof.
  assert (Hs : ascending_cal_BP testCurveData).
  { unfold ascending_cal_BP, testCurveData.
    repeat (constructor; [|repeat constructor; reflexivity]).
    constructor. }
  split; [|split; [|split]].
  - apply (proj1 (getCurveValueAt_spec testCurveData 50 _ _ Hs eq_refl eq_refl)).
    apply Qle_bool_iff. reflexivity.
  - apply (proj1 (proj2
             (getCurveValueAt_spec testCurveData 500 _ _ Hs eq_refl eq_refl))).
    apply Qle_bool_iff. reflexivity.
  - apply (proj1 (proj2 (proj2
             (getCurveValueAt_spec testCurveData 200 _ _ Hs eq_refl eq_refl)))).
    + simpl. tauto.
    + reflexivity.
  - apply (proj2 (proj2 (proj2
             (getCurveValueAt_spec testCurveData 250 _ _ Hs eq_refl eq_refl)))).
    + reflexivity.
    + reflexivity.
    + intros p Hp. simpl in Hp.
      decompose [or] Hp; try contradiction; subst p; simpl; intro H;
        discriminate H.
Defined.

(** ** Sorting *)

Section Sorting.

Context {A : Type}.
Variable cmp : A -> A -> Q.
Variable key : A -> Q.

(** The comparator orders by a key, as a difference of keys does. *)
Hypothesis cmp_key : forall a b, cmp a b < 0 <-> key a < key b.

Lemma sort_insert_perm (x : A) (l : list A) :
  Permutation (sort_insert cmp x l) (x :: l).
Proof.
  induction l as [|y ys IH]; simpl.
  - apply Permutation_refl.
  - destruct (Qlt_bool (cmp x y) 0).
    + apply Permutation_refl.
    + eapply perm_trans; [apply perm_skip, IH|apply perm_swap].
Qed.

Lemma fold_insert_perm (l acc : list A) :
  Permutation (fold_left (fun acc x => sort_insert cmp x acc) l acc)
              (acc ++ l).
Proof.
  revert acc. induction l as [|x l IH]; intro acc; simpl.
  - rewrite app_nil_r. apply Permutation_refl.
  - eapply perm_trans; [apply IH|].
    eapply perm_trans;
      [apply Permutation_app_tail, sort_insert_perm|].
    simpl. apply Permutation_middle.
Qed.

Lemma js_sort_perm (l : list A) : Permutation (js_sort cmp l) l.
Proof. unfold js_sort. apply (fold_insert_perm l []). Qed.

Lemma sort_insert_sorted (x : A) (l : list A) :
  key_sorted key l -> key_sorted key (sort_insert cmp x l).
Proof.
  unfold key_sorted.
  induction 1 as [|y ys Hs IH Hall]; simpl.
  - constructor; constructor.
  - destruct (Qlt_bool (cmp x y) 0) eqn:E; qbool.
    + apply cmp_key in E.
      constructor; [constructor; assumption|].
      constructor; [lra|].
      rewrite Forall_forall in *. intros z Hz. specialize (Hall z Hz). lra.
    + assert (Hyx : key y <= key x).
      { apply Qnot_lt_le. intro Hlt. apply cmp_key in Hlt. lra. }
      constructor; [exact IH|].
      rewrite Forall_forall in *. intros z Hz.
      apply (Permutation_in _ (sort_insert_perm x ys)) in Hz.
      destruct Hz as [<-|Hz]; [exact Hyx|apply Hall, Hz].
Qed.

Lemma fold_insert_sorted (l acc : list A) :
  key_sorted key acc ->
  key_sorted key (fold_left (fun acc x => sort_insert cmp x acc) l acc).
Proof.
  revert acc. induction l as [|x l IH]; intros acc H; simpl.
  - exact H.
  - apply IH, sort_insert_sorted, H.
Qed.

Lemma js_sort_sorted (l : list A) : key_sorted key (js_sort cmp l).
Proof. apply fold_insert_sorted. constructor. Qed.

Lemma js_sort_app (l l' : list A) :
  js_sort cmp (l ++ l')
  = fold_left (fun acc x => sort_insert cmp x acc) l' (js_sort cmp l).
Proof. unfold js_sort. apply fold_left_app. Qed.

End Sorting.

Lemma by_descending_probability_key (a b : ProbabilityPoint) :
  by_descending_probability a b < 0 <-> - probability a < - probability b.
Proof. unfold by_descending_probability. split; intro; lra. Qed.

Lemma by_ascending_cal_BP_key (a b : ProbabilityPoint) :
  by_ascending_cal_BP a b < 0 <-> pp_cal_BP a < pp_cal_BP b.
Proof. unfold by_ascending_cal_BP. split; intro; lra. Qed.

Lemma by_ascending_c14_BP_key (a b : CurvePoint) :
  by_ascending_c14_BP a b < 0 <-> c14_BP a < c14_BP b.
Proof. unfold by_ascending_c14_BP. split; intro; lra. Qed.

Lemma sortedByProb_descending (dist : list ProbabilityPoint) :
  descending (js_sort by_descending_probability dist).
Proof.
  pose proof (js_sort_sorted by_descending_probability
                (fun p => - probability p)
                by_descending_probability_key dist) as H.
  unfold key_sorted in H.
  induction H as [|p l Hs IH Hall]; simpl.
  - exact I.
  - split; [|exact IH].
    rewrite Forall_forall in Hall. intros q Hq.
    specialize (Hall q Hq). simpl in Hall. lra.
Qed.

(** ** Sums of probabilities *)

Lemma fold_left_mass (l : list ProbabilityPoint) (a : Q) :
  fold_left (fun sum p => sum + probability p) l a == a + mass l.
Proof.
  revert a. induction l as [|p l IH]; intro a; simpl.
  - lra.
  - rewrite IH. lra.
Qed.

Lemma sum_probability_mass (l : list ProbabilityPoint) :
  sum_probability l == mass l.
Proof. unfold sum_probability. rewrite fold_left_mass. lra. Qed.

Lemma mass_app (l l' : list ProbabilityPoint) :
  mass (l ++ l') == mass l + mass l'.
Proof.
  induction l as [|p l IH]; simpl.
  - lra.
  - rewrite IH. lra.
Qed.

Lemma mass_perm (l l' : list ProbabilityPoint) :
  Permutation l l' -> mass l == mass l'.
Proof.
  induction 1; simpl; try lra.
Qed.

Lemma mass_nonneg (l : list ProbabilityPoint) :
  nonnegative l -> 0 <= mass l.
Proof.
  induction l as [|p l IH]; intro H; simpl.
  - lra.
  - assert (0 <= probability p) by (apply H; left; reflexivity).
    assert (0 <= mass l) by (apply IH; intros q Hq; apply H; right; exact Hq).
    lra.
Qed.

Lemma nonnegative_perm (l l' : list ProbabilityPoint) :
  Permutation l l' -> nonnegative l -> nonnegative l'.
Proof.
  intros HP H p Hp. apply H.
  apply (Permutation_in _ (Permutation_sym HP)). exact Hp.
Qed.

Lemma nonnegative_incl (l l' : list ProbabilityPoint) :
  incl l' l -> nonnegative l -> nonnegative l'.
Proof. intros Hi H p Hp. apply H, Hi, Hp. Qed.

(** ** findHPD: the threshold loop *)

Lemma collect_points_spec (l : list ProbabilityPoint) (target cum : Q) :
  exists k : nat,
    (k <= length l)%nat
    /\ collect_points target cum l = firstn k l
    /\ (forall j, (1 <= j < k)%nat -> cum + mass (firstn j l) < target)
    /\ ((target <= cum + mass (firstn k l) /\ (1 <= k)%nat) \/ k = length l).
Proof.
  revert cum. induction l as [|p rest IH]; intro cum.
  - exists 0%nat. simpl.
    split; [lia|]. split; [reflexivity|]. split; [intros; lia|].
    right. reflexivity.
  - simpl. destruct (Qle_bool target (cum + probability p)) eqn:E; qbool.
    + exists 1%nat. simpl.
      split; [lia|]. split; [reflexivity|]. split; [intros; lia|].
      left. split; [lra|lia].
    + destruct (IH (cum + probability p)) as (k & Hk & Hc & Hlt & Hend).
      exists (S k). simpl. rewrite Hc.
      split; [lia|]. split; [reflexivity|]. split.
      * intros j Hj. destruct j as [|j]; [lia|]. simpl.
        destruct j as [|j].
        -- simpl. lra.
        -- specialize (Hlt (S j) ltac:(lia)). lra.
      * destruct Hend as [[Hreach Hk1]|Hall].
        -- left. split; [lra|lia].
        -- right. lia.
Qed.

Lemma in_skipn {A : Type} (k : nat) (l : list A) (x : A) :
  In x (skipn k l) -> In x l.
Proof.
  intro H. rewrite <- (firstn_skipn k l). apply in_or_app. right. exact H.
Qed.

Lemma in_firstn {A : Type} (k : nat) (l : list A) (x : A) :
  In x (firstn k l) -> In x l.
Proof.
  intro H. rewrite <- (firstn_skipn k l). apply in_or_app. left. exact H.
Qed.

Lemma descending_split (l : list ProbabilityPoint) (k : nat) :
  descending l ->
  forall p q, In p (firstn k l) -> In q (skipn k l) ->
              probability q <= probability p.
Proof.
  revert k. induction l as [|a l IH]; intros k Hd p q Hp Hq.
  - destruct k; contradiction.
  - destruct k as [|k]; [contradiction|].
    simpl in Hp, Hq. destruct Hd as [Ha Hd].
    destruct Hp as [<-|Hp].
    + apply Ha. apply (in_skipn k l). exact Hq.
    + apply (IH k Hd p q Hp Hq).
Qed.

(** ** findHPD: intervals and the points they cover *)

Lemma covered_iff (ivs : list Interval) (p : ProbabilityPoint) :
  covered ivs p = true
  <-> exists iv, In iv ivs /\ ivl_min iv <= pp_cal_BP p
                 /\ pp_cal_BP p <= ivl_max iv.
Proof.
  unfold covered. rewrite existsb_exists.
  split; intros (iv & Hin & H); exists iv; (split; [exact Hin|]).
  - apply andb_true_iff in H. destruct H as [H1 H2]. qbool. tauto.
  - destruct H as [H1 H2]. apply andb_true_iff.
    split; apply Qle_bool_iff; assumption.
Qed.

Lemma contiguous_covers_run (rest : list ProbabilityPoint) :
  forall start prev,
    key_sorted pp_cal_BP (prev :: rest) ->
    pp_cal_BP start <= pp_cal_BP prev ->
    forall y,
      (pp_cal_BP start <= y /\ y <= pp_cal_BP prev)
      \/ (exists p, In p rest /\ pp_cal_BP p == y) ->
      exists iv, In iv (contiguous_intervals start prev rest)
                 /\ ivl_min iv <= y /\ y <= ivl_max iv.
Proof.
  unfold key_sorted.
  induction rest as [|curr rest IH]; intros start prev Hs Hsp y Hy; simpl.
  - destruct Hy as [Hy|(p & [] & _)].
    eexists. split; [left; reflexivity|]. simpl. exact Hy.
  - inversion Hs as [|? ? Hs' Hall]; subst.
    assert (Hpc : pp_cal_BP prev <= pp_cal_BP curr).
    { rewrite Forall_forall in Hall. apply Hall. left. reflexivity. }
    destruct (Qlt_bool 1 (pp_cal_BP curr - pp_cal_BP prev)) eqn:E.
    + destruct Hy as [Hy|(p & Hp & Hpy)].
      * eexists. split; [left; reflexivity|]. simpl. exact Hy.
      * destruct (IH curr curr Hs' (Qle_refl _) y) as (iv & Hiv & Hin).
        { destruct Hp as [<-|Hp].
          - left. lra.
          - right. exists p. tauto. }
        exists iv. split; [right; exact Hiv|exact Hin].
    + apply (IH start curr Hs' ltac:(lra) y).
      destruct Hy as [Hy|(p & [<-|Hp] & Hpy)].
      * left. lra.
      * left. lra.
      * right. exists p. tauto.
Qed.

Lemma contiguous_inside_bridged (pts rest : list ProbabilityPoint) :
  forall start prev,
    In prev pts -> incl rest pts ->
    (forall y, pp_cal_BP start <= y -> y <= pp_cal_BP prev -> bridged pts y) ->
    forall iv, In iv (contiguous_intervals start prev rest) ->
    forall y, ivl_min iv <= y -> y <= ivl_max iv -> bridged pts y.
Proof.
  induction rest as [|curr rest IH]; intros start prev Hprev Hincl Hinv iv Hiv y H1 H2;
    simpl in Hiv.
  - destruct Hiv as [<-|[]]. simpl in *. apply Hinv; assumption.
  - assert (Hcurr : In curr pts) by (apply Hincl; left; reflexivity).
    assert (Hincl' : incl rest pts)
      by (intros z Hz; apply Hincl; right; exact Hz).
    destruct (Qlt_bool 1 (pp_cal_BP curr - pp_cal_BP prev)) eqn:E; qbool.
    + destruct Hiv as [<-|Hiv].
      * simpl in *. apply Hinv; assumption.
      * apply (IH curr curr Hcurr Hincl') with (iv := iv); try assumption.
        intros z Hz1 Hz2. exists curr, curr. repeat split; try assumption.
        lra.
    + apply (IH start curr Hcurr Hincl') with (iv := iv); try assumption.
      intros z Hz1 Hz2.
      destruct (Qlt_le_dec (pp_cal_BP prev) z) as [Hlt|Hle].
      * exists prev, curr. repeat split; try assumption; lra.
      * apply Hinv; assumption.
Qed.

Lemma intervals_cover_included (included : list ProbabilityPoint)
  (p : ProbabilityPoint) :
  In p included -> covered (intervals_of included) p = true.
Proof.
  intro Hp. apply covered_iff. unfold intervals_of.
  pose proof (js_sort_perm by_ascending_cal_BP included) as HP.
  pose proof (js_sort_sorted by_ascending_cal_BP pp_cal_BP
                by_ascending_cal_BP_key included) as Hs.
  apply (Permutation_in _ (Permutation_sym HP)) in Hp.
  destruct (js_sort by_ascending_cal_BP included) as [|start rest];
    [contradiction|].
  apply (contiguous_covers_run rest start start Hs (Qle_refl _)).
  destruct Hp as [<-|Hp].
  - left. split; apply Qle_refl.
  - right. exists p. split; [exact Hp|reflexivity].
Qed.

Lemma covered_bridged (included : list ProbabilityPoint)
  (x : ProbabilityPoint) :
  covered (intervals_of included) x = true -> bridged included (pp_cal_BP x).
Proof.
  intro H. apply covered_iff in H. destruct H as (iv & Hiv & H1 & H2).
  unfold intervals_of in Hiv.
  pose proof (js_sort_perm by_ascending_cal_BP included) as HP.
  destruct (js_sort by_ascending_cal_BP included) as [|start rest] eqn:E;
    [contradiction|].
  assert (Hb : bridged (start :: rest) (pp_cal_BP x)).
  { apply (contiguous_inside_bridged (start :: rest) rest start start)
      with (iv := iv); try assumption.
    - left. reflexivity.
    - intros z Hz. right. exact Hz.
    - intros y Hy1 Hy2. exists start, start.
      repeat split; try assumption; try (left; reflexivity). lra. }
  destruct Hb as (a & b & Ha & Hb & Hab).
  exists a, b.
  split; [apply (Permutation_in _ HP), Ha|].
  split; [apply (Permutation_in _ HP), Hb|exact Hab].
Qed.

Lemma Qabs_ge_one (d : Q) : 1 <= Qabs d -> d <= - (1) \/ 1 <= d.
Proof.
  apply Qabs_case; intros H H1.
  - right. exact H1.
  - left. lra.
Qed.

Lemma bridged_yearly (dist included : list ProbabilityPoint)
  (x : ProbabilityPoint) :
  yearly dist -> incl included dist -> In x dist ->
  bridged included (pp_cal_BP x) -> In x included.
Proof.
  intros Hy Hincl Hx (a & b & Ha & Hb & H1 & H2 & Hgap).
  destruct (Hy x a Hx (Hincl a Ha)) as [->|Hxa]; [exact Ha|].
  destruct (Hy x b Hx (Hincl b Hb)) as [->|Hxb]; [exact Hb|].
  apply Qabs_ge_one in Hxa. apply Qabs_ge_one in Hxb.
  exfalso. destruct Hxa, Hxb; lra.
Qed.

(** ** findHPD: where the threshold loop stops *)

Lemma findHPD_valid (dist : list ProbabilityPoint) (c : Q) :
  dist <> [] -> 0 < c -> c <= 1 ->
  findHPD (AnArray dist) c = ([], intervals_of (includedPoints dist c)).
Proof.
  intros Hne H0 H1. destruct dist as [|p dist]; [congruence|].
  unfold findHPD. rewrite (effective_confidence_valid c H0 H1).
  apply Qle_bool_false in H0. apply Qlt_bool_false in H1.
  rewrite H0, H1. reflexivity.
Qed.

Lemma filter_all {A : Type} (f : A -> bool) (l : list A) :
  (forall x, In x l -> f x = true) -> filter f l = l.
Proof.
  induction l as [|a l IH]; intro H; simpl.
  - reflexivity.
  - rewrite (H a (or_introl eq_refl)). f_equal.
    apply IH. intros x Hx. apply H. right. exact Hx.
Qed.

Lemma includedPoints_prefix (dist : list ProbabilityPoint) (c : Q) :
  dist <> [] -> nonnegative dist -> 0 <= c -> c <= 1 ->
  let sortedByProb := js_sort by_descending_probability dist in
  let targetProb := sum_probability dist * c in
  exists k : nat,
    (1 <= k <= length dist)%nat
    /\ includedPoints dist c = firstn k sortedByProb
    /\ targetProb <= mass (firstn k sortedByProb)
    /\ (forall j, (1 <= j < k)%nat ->
                  mass (firstn j sortedByProb) < targetProb).
Proof.
  intros Hne Hnn H0 H1 sortedByProb targetProb.
  pose proof (js_sort_perm by_descending_probability dist) as HP.
  fold sortedByProb in HP.
  assert (Hlen : length sortedByProb = length dist)
    by (apply Permutation_length, HP).
  assert (Htot : targetProb <= mass sortedByProb).
  { subst targetProb. rewrite (mass_perm _ _ HP), sum_probability_mass.
    pose proof (mass_nonneg dist Hnn). nra. }
  destruct (collect_points_spec sortedByProb targetProb 0)
    as (k & Hk & Hc & Hlt & Hend).
  assert (Hpos : (1 <= length dist)%nat).
  { destruct dist; [congruence|simpl; lia]. }
  exists k.
  assert (Hreach : targetProb <= mass (firstn k sortedByProb) /\ (1 <= k)%nat).
  { destruct Hend as [[Hr Hk1]|Hall].
    - split; [lra|exact Hk1].
    - subst k. rewrite firstn_all. split; [exact Htot|lia]. }
  destruct Hreach as [Hr Hk1].
  split; [lia|]. split; [exact Hc|]. split; [exact Hr|].
  intros j Hj. specialize (Hlt j Hj). lra.
Qed.

Section Threshold.

Variable constant : Q -> Q.
Variables add sub mul : Q -> Q -> Q.

(** Where the loop of lines 93-97 stops, whatever the arithmetic: at the
    first point at which the sum it has computed reaches the target, or
    after the last point. *)
Lemma rounded_collect_points_spec (l : list ProbabilityPoint) :
  forall targetProb cumulativeProb : Q,
    l <> [] ->
    exists k : nat,
      (1 <= k <= length l)%nat
      /\ Rounded.collect_points add (Some targetProb) cumulativeProb l
         = firstn k l
      /\ (forall j, (1 <= j < k)%nat ->
            fold_left (fun sum p => add sum (probability p)) (firstn j l)
              cumulativeProb < targetProb)
      /\ ((k < length l)%nat ->
            targetProb
            <= fold_left (fun sum p => add sum (probability p)) (firstn k l)
                 cumulativeProb).
Proof.
  induction l as [|p rest IH]; intros t c Hne; [congruence|].
  cbn [Rounded.collect_points Rounded.reached].
  destruct (Qle_bool t (add c (probability p))) eqn:E; qbool.
  - exists 1%nat. cbn [firstn fold_left length].
    split; [lia|]. split; [reflexivity|]. split; [intros; lia|].
    intros _. exact E.
  - destruct rest as [|q rest'].
    + exists 1%nat. cbn [Rounded.collect_points firstn fold_left length].
      split; [lia|]. split; [reflexivity|]. split; intros; lia.
    + destruct (IH t (add c (probability p)) ltac:(discriminate))
        as (k & Hk & Hc & Hlt & Hend).
      exists (S k). rewrite Hc.
      split; [cbn [length] in *; lia|]. split; [reflexivity|]. split.
      * intros j Hj. destruct j as [|j]; [lia|]. cbn [firstn fold_left].
        destruct j as [|j].
        -- cbn [firstn fold_left]. exact E.
        -- apply Hlt. lia.
      * intro Hlen. cbn [firstn fold_left]. apply Hend.
        cbn [length] in *. lia.
Qed.

Lemma rounded_includedPoints_prefix (dist : list ProbabilityPoint) (c : Q) :
  dist <> [] ->
  let sortedByProb := js_sort by_descending_probability dist in
  let targetProb := mul (Rounded.sum_probability add dist) c in
  exists k : nat,
    (1 <= k <= length dist)%nat
    /\ Rounded.includedPoints add mul dist (ConfNumber c)
       = firstn k sortedByProb
    /\ (forall j, (1 <= j < k)%nat ->
          Rounded.sum_probability add (firstn j sortedByProb) < targetProb)
    /\ ((k < length dist)%nat ->
          targetProb <= Rounded.sum_probability add (firstn k sortedByProb)).
Proof.
  intros Hne sortedByProb targetProb.
  pose proof (js_sort_perm by_descending_probability dist) as HP.
  fold sortedByProb in HP.
  assert (Hlen : length sortedByProb = length dist)
    by (apply Permutation_length, HP).
  assert (Hne' : sortedByProb <> []).
  { intro E. rewrite E in Hlen. destruct dist; [congruence|discriminate]. }
  destruct (rounded_collect_points_spec sortedByProb targetProb 0 Hne')
    as (k & Hk & Hc & Hlt & Hend).
  exists k. rewrite <- Hlen.
  split; [exact Hk|]. split; [exact Hc|]. split; assumption.
Qed.

Lemma exact_differences_spec (dist : list ProbabilityPoint) :
  Rounded.exact_differences sub dist = true ->
  forall p q, In p dist -> In q dist ->
    sub (pp_cal_BP q) (pp_cal_BP p) == pp_cal_BP q - pp_cal_BP p.
Proof.
  unfold Rounded.exact_differences. intros H p q Hp Hq.
  rewrite forallb_forall in H. specialize (H p Hp).
  rewrite forallb_forall in H. specialize (H q Hq).
  apply Qeq_bool_iff. exact H.
Qed.

Lemma rounded_contiguous_exact (dist rest : list ProbabilityPoint) :
  Rounded.exact_differences sub dist = true ->
  forall start prev,
    (forall x, In x (prev :: rest) -> In x dist) ->
    Rounded.contiguous_intervals sub start prev rest
    = contiguous_intervals start prev rest.
Proof.
  intro Hx. induction rest as [|curr rest IH]; intros start prev Hin.
  - reflexivity.
  - cbn [Rounded.contiguous_intervals contiguous_intervals].
    pose proof (exact_differences_spec dist Hx prev curr
                  (Hin prev (or_introl eq_refl))
                  (Hin curr (or_intror (or_introl eq_refl)))) as E.
    assert (Eb : Qlt_bool 1 (sub (pp_cal_BP curr) (pp_cal_BP prev))
                 = Qlt_bool 1 (pp_cal_BP curr - pp_cal_BP prev)).
    { destruct (Qlt_bool 1 (sub (pp_cal_BP curr) (pp_cal_BP prev))) eqn:E1,
        (Qlt_bool 1 (pp_cal_BP curr - pp_cal_BP prev)) eqn:E2;
        try reflexivity; qbool; lra. }
    rewrite Eb.
    assert (Hin' : forall x, In x (curr :: rest) -> In x dist)
      by (intros x Hx'; apply Hin; right; exact Hx').
    rewrite !(IH _ _ Hin'). reflexivity.
Qed.

Lemma rounded_intervals_of_exact (dist included : list ProbabilityPoint) :
  Rounded.exact_differences sub dist = true ->
  incl included dist ->
  Rounded.intervals_of sub included = intervals_of included.
Proof.
  intros Hx Hincl. unfold Rounded.intervals_of, intervals_of.
  pose proof (js_sort_perm by_ascending_cal_BP included) as HP.
  destruct (js_sort by_ascending_cal_BP included) as [|start rest];
    [reflexivity|].
  apply (rounded_contiguous_exact dist rest Hx).
  intros x Hin. apply Hincl. apply (Permutation_in _ HP). exact Hin.
Qed.

Lemma rounded_findHPD_valid (dist : list ProbabilityPoint) (c : Q) :
  dist <> [] -> 0 < c -> c <= 1 ->
  Rounded.findHPD constant add sub mul (AnArray dist) (ConfNumber c)
  = ([], Rounded.intervals_of sub
           (Rounded.includedPoints add mul dist (ConfNumber c))).
Proof.
  intros Hne H0 H1. destruct dist as [|p dist]; [congruence|].
  unfold Rounded.findHPD, Rounded.effective_confidence, Rounded.out_of_range.
  apply Qle_bool_false in H0. apply Qlt_bool_false in H1.
  rewrite H0, H1. reflexivity.
Qed.

(** A higher target keeps at least as many points. *)
Lemma rounded_prefix_grows (l : list ProbabilityPoint) (t1 t2 : Q) :
  l <> [] -> t1 <= t2 ->
  exists k1 k2 : nat,
    (k1 <= k2)%nat
    /\ Rounded.collect_points add (Some t1) 0 l = firstn k1 l
    /\ Rounded.collect_points add (Some t2) 0 l = firstn k2 l.
Proof.
  intros Hne Ht.
  destruct (rounded_collect_points_spec l t1 0 Hne)
    as (k1 & Hk1 & Hc1 & Hlt1 & Hend1).
  destruct (rounded_collect_points_spec l t2 0 Hne)
    as (k2 & Hk2 & Hc2 & Hlt2 & Hend2).
  exists k1, k2. split; [|split; assumption].
  destruct (Nat.le_gt_cases k1 k2) as [Hle|Hgt]; [exact Hle|].
  exfalso. specialize (Hlt1 k2 ltac:(lia)). specialize (Hend2 ltac:(lia)).
  lra.
Qed.

(** C1.  For a non-empty distribution whose different points lie at least a
    year apart (the differences of their calendar ages being exact, as they
    are on doubles for whole years) and a confidence [c] in (0, 1],
    whatever the arithmetic: [findHPD] takes the points in descending
    order of probability and keeps them up to the first one at which the
    sum it has computed reaches the product it has computed of [c] and the
    total of the input in its own order, and keeps every point when no sum
    does; the intervals returned cover exactly the kept points, so a
    covered point is at least as probable as a point that is not
    covered. *)
Theorem findHPD_threshold_rule (dist : list ProbabilityPoint) (c : Q) :
  dist <> [] -> yearly dist ->
  Rounded.exact_differences sub dist = true ->
  0 < c -> c <= 1 ->
  let sortedByProb := js_sort by_descending_probability dist in
  let targetProb := mul (Rounded.sum_probability add dist) c in
  let cumulativeProb :=
    fun j => Rounded.sum_probability add (firstn j sortedByProb) in
  let intervals :=
    snd (Rounded.findHPD constant add sub mul (AnArray dist) (ConfNumber c)) in
  Permutation sortedByProb dist
  /\ descending sortedByProb
  /\ exists k : nat,
       (1 <= k <= length dist)%nat
       /\ (forall j, (1 <= j < k)%nat -> cumulativeProb j < targetProb)
       /\ ((k < length dist)%nat -> targetProb <= cumulativeProb k)
       /\ Rounded.includedPoints add mul dist (ConfNumber c)
          = firstn k sortedByProb
       /\ intervals = intervals_of (firstn k sortedByProb)
       /\ (forall p, In p dist ->
             (covered intervals p = true <-> In p (firstn k sortedByProb)))
       /\ (forall p q, In p dist -> In q dist ->
             covered intervals p = true -> covered intervals q = false ->
             probability q <= probability p).
Proof.
  intros Hne Hy Hx H0 H1 sortedByProb targetProb cumulativeProb intervals.
  pose proof (js_sort_perm by_descending_probability dist) as HP.
  fold sortedByProb in HP.
  pose proof (sortedByProb_descending dist) as Hd. fold sortedByProb in Hd.
  destruct (rounded_includedPoints_prefix dist c Hne)
    as (k & Hk & Hinc & Hfirst & Hreach).
  fold sortedByProb in Hinc, Hfirst, Hreach.
  fold targetProb in Hfirst, Hreach.
  assert (Hincl : incl (firstn k sortedByProb) dist).
  { intros x Hin. apply in_firstn in Hin.
    apply (Permutation_in _ HP). exact Hin. }
  assert (Hiv : intervals = intervals_of (firstn k sortedByProb)).
  { subst intervals. rewrite (rounded_findHPD_valid dist c Hne H0 H1).
    cbn [snd]. rewrite Hinc.
    apply (rounded_intervals_of_exact dist _ Hx Hincl). }
  assert (Hcov : forall p, In p dist ->
            (covered intervals p = true <-> In p (firstn k sortedByProb))).
  { intros p Hp. rewrite Hiv. split.
    - intro H. apply (bridged_yearly dist _ p Hy Hincl Hp).
      apply covered_bridged. exact H.
    - apply intervals_cover_included. }
  split; [exact HP|]. split; [exact Hd|].
  exists k. split; [exact Hk|]. split; [exact Hfirst|].
  split; [exact Hreach|]. split; [exact Hinc|]. split; [exact Hiv|].
  split; [exact Hcov|].
  intros p q Hp Hq Hcp Hcq.
  apply (descending_split sortedByProb k Hd).
  - apply Hcov; assumption.
  - apply (Permutation_in _ (Permutation_sym HP)) in Hq.
    rewrite <- (firstn_skipn k sortedByProb) in Hq.
    apply in_app_or in Hq. destruct Hq as [Hq|Hq]; [|exact Hq].
    exfalso.
    assert (covered intervals q = true).
    { rewrite Hiv. apply intervals_cover_included. exact Hq. }
    congruence.
Qed.

End Threshold.

Lemma testProbDist64_yearly : yearly testProbDist64.
Proof.
  intros p q Hp Hq. unfold testProbDist64, testProbDist in Hp, Hq.
  cbn [map pp_cal_BP probability In] in Hp, Hq.
  decompose [or] Hp; try contradiction; subst p;
    decompose [or] Hq; try contradiction; subst q;
    first [left; reflexivity
          | right; cbn [pp_cal_BP]; apply Qle_bool_iff; reflexivity].
Qed.

Lemma findHPD_threshold_rule_witness :
  let intervals :=
    snd (Doubles.findHPD (AnArray testProbDist64)
           (ConfNumber (Binary64.round (6 # 10)))) in
  descending (js_sort by_descending_probability testProbDist64)
  /\ forall p q, In p testProbDist64 -> In q testProbDist64 ->
       covered intervals p = true -> covered intervals q = false ->
       probability q <= probability p.
Proof.
  pose proof (findHPD_threshold_rule Binary64.round Binary64.add Binary64.sub
                Binary64.mul testProbDist64 (Binary64.round (6 # 10))
                ltac:(discriminate) testProbDist64_yearly
                ltac:(vm_compute; reflexivity)
                ltac:(vm_compute; reflexivity)
                ltac:(apply Qle_bool_iff; vm_compute; reflexivity)) as H.
  cbv zeta in H. destruct H as (_ & Hd & k & _ & _ & _ & _ & _ & _ & H).
  split; [exact Hd|exact H].
Defined.

(** Two distributions on which a point is covered that the rule of the
    cumulative probability does not reach.  On the padded distribution at
    confidence 1 the sum of the five probabilities that are not 0 already
    is the whole total, yet the years 99 and 105 of probability 0 are
    covered: taken in descending order the seven probabilities add up to
    1, taken in the order of the input to 1 + 2^-52, so the sum of the loop
    stays below its target to the end.  On the distribution with a point
    at 100.5 and confidence 0.75 the loop stops after the years 100 and
    101, whose interval covers the year 100.5 of probability 1/16, while
    the year 200 of probability 3/16 is not covered. *)
Lemma findHPD_covers_more :
  (let sortedByProb := js_sort by_descending_probability paddedProbDist in
   let intervals :=
     snd (Doubles.findHPD (AnArray paddedProbDist) (ConfNumber 1)) in
   intervals = [ {| ivl_min := 99; ivl_max := 105 |} ]
   /\ 1 * mass paddedProbDist <= mass (firstn 5 sortedByProb)
   /\ covered intervals (mkProbabilityPoint 99 0) = true
   /\ ~ In (mkProbabilityPoint 99 0) (firstn 5 sortedByProb)
   /\ Doubles.sum_probability sortedByProb == 1
   /\ Binary64.mul (Doubles.sum_probability paddedProbDist) 1
      == 1 + 1 / 2 ^ 52)
  /\ (let intervals :=
        snd (Doubles.findHPD (AnArray halfYearProbDist)
               (ConfNumber (3 # 4))) in
      intervals = [ {| ivl_min := 100; ivl_max := 101 |} ]
      /\ covered intervals (mkProbabilityPoint (201 # 2) (1 # 16)) = true
      /\ covered intervals (mkProbabilityPoint 200 (3 # 16)) = false
      /\ (1 # 16) < (3 # 16)).
Proof.
  vm_compute. split.
  - split; [reflexivity|]. split; [discriminate|]. split; [reflexivity|].
    split; [|split; reflexivity].
    intro H. repeat (destruct H as [H|H]; [discriminate H|]). exact H.
  - repeat split.
Qed.

(** ** findHPD: the total width of the intervals of a prefix *)

Lemma total_width_contiguous (rest : list ProbabilityPoint) :
  forall start prev,
    total_width (contiguous_intervals start prev rest)
    == (pp_cal_BP prev - pp_cal_BP start) + chain_width (prev :: rest).
Proof.
  induction rest as [|curr rest IH]; intros start prev.
  - simpl. lra.
  - cbn [contiguous_intervals].
    change (chain_width (prev :: curr :: rest))
      with (gap_width (pp_cal_BP curr - pp_cal_BP prev)
            + chain_width (curr :: rest)).
    unfold gap_width.
    destruct (Qlt_bool 1 (pp_cal_BP curr - pp_cal_BP prev)) eqn:E.
    + cbn [total_width fold_right ivl_min ivl_max].
      fold (total_width (contiguous_intervals curr curr rest)).
      rewrite IH. lra.
    + rewrite IH. lra.
Qed.

Lemma total_width_intervals_of (included : list ProbabilityPoint) :
  total_width (intervals_of included)
  == chain_width (js_sort by_ascending_cal_BP included).
Proof.
  unfold intervals_of.
  destruct (js_sort by_ascending_cal_BP included) as [|start rest].
  - reflexivity.
  - rewrite total_width_contiguous. lra.
Qed.

Lemma gap_width_nonneg (d : Q) : 0 <= d -> 0 <= gap_width d.
Proof. intro H. unfold gap_width. destruct (Qlt_bool 1 d); lra. Qed.

Lemma gap_width_split (d1 d2 : Q) :
  0 <= d1 -> 0 <= d2 -> gap_width (d1 + d2) <= gap_width d1 + gap_width d2.
Proof.
  intros H1 H2. unfold gap_width.
  destruct (Qlt_bool 1 (d1 + d2)) eqn:E, (Qlt_bool 1 d1) eqn:E1,
    (Qlt_bool 1 d2) eqn:E2; qbool; lra.
Qed.

Lemma gap_width_eq (d d' : Q) : d == d' -> gap_width d == gap_width d'.
Proof.
  intro H. unfold gap_width.
  destruct (Qlt_bool 1 d) eqn:E, (Qlt_bool 1 d') eqn:E'; qbool; lra.
Qed.

Lemma chain_width_insert (x : ProbabilityPoint) (s : list ProbabilityPoint) :
  key_sorted pp_cal_BP s ->
  chain_width s <= chain_width (sort_insert by_ascending_cal_BP x s).
Proof.
  unfold key_sorted.
  induction 1 as [|y ys Hs IH Hall].
  - simpl. lra.
  - cbn [sort_insert].
    destruct (Qlt_bool (by_ascending_cal_BP x y) 0) eqn:E; qbool.
    + apply by_ascending_cal_BP_key in E.
      change (chain_width (x :: y :: ys))
        with (gap_width (pp_cal_BP y - pp_cal_BP x) + chain_width (y :: ys)).
      pose proof (gap_width_nonneg (pp_cal_BP y - pp_cal_BP x) ltac:(lra)).
      lra.
    + assert (Hyx : pp_cal_BP y <= pp_cal_BP x).
      { unfold by_ascending_cal_BP in E. lra. }
      destruct ys as [|z zs].
      * simpl.
        pose proof (gap_width_nonneg (pp_cal_BP x - pp_cal_BP y) ltac:(lra)).
        lra.
      * assert (Hyz : pp_cal_BP y <= pp_cal_BP z).
        { rewrite Forall_forall in Hall. apply Hall. left. reflexivity. }
        cbn [sort_insert] in *.
        destruct (Qlt_bool (by_ascending_cal_BP x z) 0) eqn:E'; qbool.
        -- apply by_ascending_cal_BP_key in E'.
           change (chain_width (y :: z :: zs))
             with (gap_width (pp_cal_BP z - pp_cal_BP y)
                   + chain_width (z :: zs)).
           change (chain_width (y :: x :: z :: zs))
             with (gap_width (pp_cal_BP x - pp_cal_BP y)
                   + (gap_width (pp_cal_BP z - pp_cal_BP x)
                      + chain_width (z :: zs))).
           pose proof (gap_width_split (pp_cal_BP x - pp_cal_BP y)
                         (pp_cal_BP z - pp_cal_BP x) ltac:(lra) ltac:(lra)) as Hg.
           rewrite (gap_width_eq (pp_cal_BP z - pp_cal_BP y)
                      ((pp_cal_BP x - pp_cal_BP y)
                       + (pp_cal_BP z - pp_cal_BP x))) by lra.
           lra.
        -- change (chain_width (y :: z :: zs))
             with (gap_width (pp_cal_BP z - pp_cal_BP y)
                   + chain_width (z :: zs)).
           change (chain_width (y :: z :: sort_insert by_ascending_cal_BP x zs))
             with (gap_width (pp_cal_BP z - pp_cal_BP y)
                   + chain_width (z :: sort_insert by_ascending_cal_BP x zs)).
           lra.
Qed.

Lemma chain_width_fold (l acc : list ProbabilityPoint) :
  key_sorted pp_cal_BP acc ->
  chain_width acc
  <= chain_width (fold_left (fun acc x => sort_insert by_ascending_cal_BP x acc)
                    l acc).
Proof.
  revert acc. induction l as [|x l IH]; intros acc Hs; simpl.
  - lra.
  - pose proof (chain_width_insert x acc Hs) as H1.
    pose proof (IH _ (sort_insert_sorted by_ascending_cal_BP pp_cal_BP
                        by_ascending_cal_BP_key x acc Hs)) as H2.
    lra.
Qed.

Lemma firstn_le_app {A : Type} (l : list A) (k1 k2 : nat) :
  (k1 <= k2)%nat -> exists l', firstn k2 l = firstn k1 l ++ l'.
Proof.
  revert k1 k2. induction l as [|a l IH]; intros k1 k2 H.
  - exists []. rewrite !firstn_nil. reflexivity.
  - destruct k1 as [|k1].
    + exists (firstn k2 (a :: l)). reflexivity.
    + destruct k2 as [|k2]; [lia|].
      destruct (IH k1 k2 ltac:(lia)) as [l' E].
      exists l'. simpl. rewrite E. reflexivity.
Qed.

Lemma total_width_prefix (l : list ProbabilityPoint) (k1 k2 : nat) :
  (k1 <= k2)%nat ->
  total_width (intervals_of (firstn k1 l))
  <= total_width (intervals_of (firstn k2 l)).
Proof.
  intro H. destruct (firstn_le_app l k1 k2 H) as [l' E].
  rewrite !total_width_intervals_of, E, js_sort_app.
  apply chain_width_fold.
  apply (js_sort_sorted by_ascending_cal_BP pp_cal_BP by_ascending_cal_BP_key).
Qed.

(** ** Least and greatest bound of the intervals *)

Lemma fold_min_spec (l : list Q) :
  forall a, exists m,
    fold_left (fun acc v => ext_min acc (Fin v)) l (Fin a) = Fin m
    /\ (m = a \/ In m l) /\ m <= a /\ (forall x, In x l -> m <= x).
Proof.
  induction l as [|v l IH]; intro a; simpl.
  - exists a. repeat split; try tauto. apply Qle_refl.
  - destruct (Qle_bool a v) eqn:E; qbool.
    + destruct (IH a) as (m & Hm & Hin & Hle & Hall).
      exists m. split; [exact Hm|]. split; [tauto|]. split; [exact Hle|].
      intros x [<-|Hx]; [lra|apply Hall, Hx].
    + destruct (IH v) as (m & Hm & Hin & Hle & Hall).
      exists m. split; [exact Hm|]. split; [destruct Hin; [subst|]; tauto|].
      split; [lra|].
      intros x [<-|Hx]; [lra|apply Hall, Hx].
Qed.

Lemma fold_max_spec (l : list Q) :
  forall a, exists m,
    fold_left (fun acc v => ext_max acc (Fin v)) l (Fin a) = Fin m
    /\ (m = a \/ In m l) /\ a <= m /\ (forall x, In x l -> x <= m).
Proof.
  induction l as [|v l IH]; intro a; simpl.
  - exists a. repeat split; try tauto. apply Qle_refl.
  - destruct (Qle_bool a v) eqn:E; qbool.
    + destruct (IH v) as (m & Hm & Hin & Hle & Hall).
      exists m. split; [exact Hm|]. split; [destruct Hin; [subst|]; tauto|].
      split; [lra|].
      intros x [<-|Hx]; [lra|apply Hall, Hx].
    + destruct (IH a) as (m & Hm & Hin & Hle & Hall).
      exists m. split; [exact Hm|]. split; [tauto|]. split; [exact Hle|].
      intros x [<-|Hx]; [lra|apply Hall, Hx].
Qed.

Lemma math_min_least (l : list Q) :
  l <> [] ->
  exists m, math_min l = Fin m /\ In m l /\ (forall x, In x l -> m <= x).
Proof.
  destruct l as [|v l]; [congruence|]. intros _.
  unfold math_min. simpl.
  destruct (fold_min_spec l v) as (m & Hm & Hin & Hle & Hall).
  exists m. split; [exact Hm|]. split.
  - destruct Hin; [left; congruence|right; assumption].
  - intros x [<-|Hx]; [exact Hle|apply Hall, Hx].
Qed.

Lemma math_max_greatest (l : list Q) :
  l <> [] ->
  exists m, math_max l = Fin m /\ In m l /\ (forall x, In x l -> x <= m).
Proof.
  destruct l as [|v l]; [congruence|]. intros _.
  unfold math_max. simpl.
  destruct (fold_max_spec l v) as (m & Hm & Hin & Hle & Hall).
  exists m. split; [exact Hm|]. split.
  - destruct Hin; [left; congruence|right; assumption].
  - intros x [<-|Hx]; [exact Hle|apply Hall, Hx].
Qed.

Lemma contiguous_endpoints (rest : list ProbabilityPoint) :
  forall start prev iv,
    In iv (contiguous_intervals start prev rest) ->
    exists p q, In p (start :: prev :: rest) /\ In q (start :: prev :: rest)
                /\ ivl_min iv = pp_cal_BP p /\ ivl_max iv = pp_cal_BP q.
Proof.
  induction rest as [|curr rest IH]; intros start prev iv Hiv; simpl in Hiv.
  - destruct Hiv as [<-|[]]. exists start, prev. simpl. tauto.
  - destruct (Qlt_bool 1 (pp_cal_BP curr - pp_cal_BP prev)).
    + destruct Hiv as [<-|Hiv].
      * exists start, prev. simpl. tauto.
      * destruct (IH curr curr iv Hiv) as (p & q & Hp & Hq & E).
        exists p, q. simpl in *. intuition.
    + destruct (IH start curr iv Hiv) as (p & q & Hp & Hq & E).
      exists p, q. simpl in *. intuition.
Qed.

Lemma intervals_of_endpoints (included : list ProbabilityPoint)
  (iv : Interval) :
  In iv (intervals_of included) ->
  exists p q, In p included /\ In q included
              /\ ivl_min iv = pp_cal_BP p /\ ivl_max iv = pp_cal_BP q.
Proof.
  unfold intervals_of. intro Hiv.
  pose proof (js_sort_perm by_ascending_cal_BP included) as HP.
  destruct (js_sort by_ascending_cal_BP included) as [|start rest];
    [contradiction|].
  destruct (contiguous_endpoints rest start start iv Hiv)
    as (p & q & Hp & Hq & E).
  assert (Hin : forall z, In z (start :: start :: rest) -> In z included).
  { intros z Hz. apply (Permutation_in _ HP).
    destruct Hz as [<-|Hz]; [left; reflexivity|exact Hz]. }
  exists p, q. split; [apply Hin, Hp|]. split; [apply Hin, Hq|exact E].
Qed.

(** ** findHPD on doubles: total width grows with the confidence *)

Lemma sum64_nonneg (l : list ProbabilityPoint) :
  forall acc : Q,
    0 <= acc -> nonnegative l ->
    0 <= fold_left (fun sum p => Binary64.add sum (probability p)) l acc.
Proof.
  induction l as [|p l IH]; intros acc Ha Hnn; cbn [fold_left].
  - exact Ha.
  - apply IH.
    + apply add64_nonneg; [exact Ha|]. apply Hnn. left. reflexivity.
    + intros x Hx. apply Hnn. right. exact Hx.
Qed.

(** C2.  On doubles, for a distribution without negative probabilities
    (the differences of its calendar ages being exact, as they are for
    whole years) and confidences
    [c1 <= c2] in (0, 1], the total width of the intervals of
    [findHPD(dist, c1)] is at most the total width of the intervals of
    [findHPD(dist, c2)]. *)
Theorem findHPD_width_grows (dist : list ProbabilityPoint) (c1 c2 : Q) :
  nonnegative dist -> Doubles.exact_differences dist = true ->
  0 < c1 -> c1 <= c2 -> c2 <= 1 ->
  total_width (snd (Doubles.findHPD (AnArray dist) (ConfNumber c1)))
  <= total_width (snd (Doubles.findHPD (AnArray dist) (ConfNumber c2))).
Proof.
  intros Hnn Hx H0 H12 H1.
  destruct dist as [|p0 dist0] eqn:Ed; [simpl; lra|]. rewrite <- Ed in *.
  assert (Hne : dist <> []) by (rewrite Ed; discriminate).
  unfold Doubles.findHPD.
  rewrite (rounded_findHPD_valid Binary64.round Binary64.add Binary64.sub
             Binary64.mul dist c1 Hne H0 ltac:(lra)).
  rewrite (rounded_findHPD_valid Binary64.round Binary64.add Binary64.sub
             Binary64.mul dist c2 Hne ltac:(lra) H1).
  cbn [snd]. unfold Rounded.includedPoints, Rounded.target.
  pose proof (js_sort_perm by_descending_probability dist) as HP.
  set (sortedByProb := js_sort by_descending_probability dist) in *.
  assert (Hne' : sortedByProb <> []).
  { intro E. rewrite E in HP. apply Permutation_nil in HP. congruence. }
  assert (Ht : Binary64.mul (Rounded.sum_probability Binary64.add dist) c1
               <= Binary64.mul (Rounded.sum_probability Binary64.add dist) c2).
  { apply mul64_monotone; [|exact H12].
    apply sum64_nonneg; [apply Qle_refl|exact Hnn]. }
  destruct (rounded_prefix_grows Binary64.add sortedByProb _ _ Hne' Ht)
    as (k1 & k2 & Hk & E1 & E2).
  rewrite E1, E2.
  assert (Hincl : forall k, incl (firstn k sortedByProb) dist).
  { intros k x Hin. apply in_firstn in Hin.
    apply (Permutation_in _ HP). exact Hin. }
  rewrite !(rounded_intervals_of_exact Binary64.sub dist _ Hx (Hincl _)).
  apply total_width_prefix. exact Hk.
Qed.

Lemma findHPD_width_grows_witness :
  total_width (snd (Doubles.findHPD (AnArray paddedProbDist)
                      (ConfNumber (Binary64.round (6 # 10)))))
  <= total_width (snd (Doubles.findHPD (AnArray paddedProbDist)
                         (ConfNumber 1))).
Proof.
  apply (findHPD_width_grows paddedProbDist (Binary64.round (6 # 10)) 1).
  - intros p Hp. unfold paddedProbDist in Hp. cbn [In] in Hp.
    decompose [or] Hp; try contradiction; subst p; cbn [probability];
      apply Qle_bool_iff; vm_compute; reflexivity.
  - vm_compute. reflexivity.
  - vm_compute. reflexivity.
  - apply Qle_bool_iff. vm_compute. reflexivity.
  - apply Qle_bool_iff. reflexivity.
Defined.

(** At confidence 1 the intervals can span more than the points whose
    probability is not 0, and less.  On the padded distribution they span
    the years 99 to 105, those points the years 100 to 104.  On the
    distribution whose second probability is absorbed by the sum they end
    at the year 100, while the year 101 has a probability that is not 0. *)
Lemma findHPD_full_confidence_span :
  (let intervals :=
     snd (Doubles.findHPD (AnArray paddedProbDist) (ConfNumber 1)) in
   let carriers := map pp_cal_BP (filter nonzero paddedProbDist) in
   math_min (map ivl_min intervals) = Fin 99
   /\ math_min carriers = Fin 100
   /\ math_max (map ivl_max intervals) = Fin 105
   /\ math_max carriers = Fin 104)
  /\ (let intervals :=
        snd (Doubles.findHPD (AnArray absorbedProbDist) (ConfNumber 1)) in
      let carriers := map pp_cal_BP (filter nonzero absorbedProbDist) in
      math_max (map ivl_max intervals) = Fin 100
      /\ math_max carriers = Fin 101).
Proof.
  vm_compute. repeat split.
Qed.

(** ** findCalendarRangeByC14BP: the two index searches *)

Lemma key_sorted_nth {A : Type} (key : A -> Q) (l : list A) :
  key_sorted key l ->
  forall (i j : nat) p q,
    (i <= j)%nat -> nth_error l i = Some p -> nth_error l j = Some q ->
    key p <= key q.
Proof.
  unfold key_sorted.
  induction 1 as [|a l Hs IH Hall]; intros i j p q Hij Hi Hj.
  - destruct i; discriminate.
  - destruct i as [|i], j as [|j]; simpl in Hi, Hj; try lia.
    + injection Hi as <-. injection Hj as <-. apply Qle_refl.
    + injection Hi as <-. rewrite Forall_forall in Hall.
      apply Hall. eapply nth_error_In; eassumption.
    + apply (IH i j); [lia|assumption|assumption].
Qed.

Lemma key_sorted_index {A : Type} (key : A -> Q) (l : list A) :
  key_sorted key l ->
  forall (i j : Z) p q,
    (i <= j)%Z -> js_index l i = Some p -> js_index l j = Some q ->
    key p <= key q.
Proof.
  intros Hs i j p q Hij Hi Hj.
  apply js_index_inv in Hi. apply js_index_inv in Hj.
  destruct Hi as [Hi Ei], Hj as [Hj Ej].
  apply (key_sorted_nth key l Hs (Z.to_nat i) (Z.to_nat j));
    [lia|assumption|assumption].
Qed.

Lemma mid_between (low high : Z) :
  (low <= high)%Z -> (low <= (low + high) / 2 <= high)%Z.
Proof.
  intro H. split.
  - apply Z.div_le_lower_bound; lia.
  - apply Z.div_le_upper_bound; lia.
Qed.

Lemma min_index_search_spec (l : list CurvePoint) (minC14 : Q) :
  key_sorted c14_BP l ->
  let len := Z.of_nat (length l) in
  forall (fuel : nat) (low high minIndex : Z),
    (0 <= low)%Z -> (high < len)%Z -> (low <= high + 1)%Z ->
    (high - low + 1 < Z.of_nat fuel)%Z ->
    (forall i p, js_index l i = Some p -> (i < low)%Z -> c14_BP p < minC14) ->
    (forall i p, js_index l i = Some p -> (high < i)%Z -> minC14 <= c14_BP p) ->
    minIndex = (if (high + 1 <? len)%Z then high + 1 else 0)%Z ->
    exists k : Z,
      min_index_search fuel l minC14 low high minIndex
      = Ok (if (k <? len)%Z then k else 0%Z)
      /\ (low <= k <= high + 1)%Z
      /\ (forall i p, js_index l i = Some p -> (i < k)%Z -> c14_BP p < minC14)
      /\ (forall i p, js_index l i = Some p -> (k <= i)%Z ->
                      minC14 <= c14_BP p).
Proof.
  intros Hs len.
  induction fuel as [|fuel IH]; intros low high minIndex H0 Hn Hlh Hf Hlo Hhi Hmin.
  - lia.
  - simpl. destruct (Z.leb_spec low high) as [Hle|Hgt].
    + pose proof (mid_between low high Hle) as Hmid.
      set (mid := ((low + high) / 2)%Z) in *.
      destruct (js_index_some l mid ltac:(lia)) as [p Hp].
      rewrite Hp. simpl.
      destruct (Qlt_bool (c14_BP p) minC14) eqn:E; qbool.
      * destruct (IH (mid + 1)%Z high minIndex)
          as (k & Hk1 & Hk2 & Hk3 & Hk4); try lia; try assumption.
        -- intros i q Hq Hi.
           pose proof (key_sorted_index c14_BP l Hs i mid q p ltac:(lia) Hq Hp).
           lra.
        -- exists k. repeat split; try assumption; lia.
      * destruct (IH low (mid - 1)%Z mid)
          as (k & Hk1 & Hk2 & Hk3 & Hk4); try lia; try assumption.
        -- intros i q Hq Hi.
           pose proof (key_sorted_index c14_BP l Hs mid i p q ltac:(lia) Hp Hq).
           lra.
        -- destruct (Z.ltb_spec (mid - 1 + 1) len); lia.
        -- exists k. repeat split; try assumption; lia.
    + exists low. replace low with (high + 1)%Z in * by lia.
      split; [rewrite Hmin; reflexivity|].
      split; [lia|]. split; [exact Hlo|].
      intros i p Hp Hi. apply (Hhi i p Hp). lia.
Qed.

Lemma max_index_search_spec (l : list CurvePoint) (maxC14 : Q) :
  key_sorted c14_BP l ->
  let len := Z.of_nat (length l) in
  forall (fuel : nat) (low high maxIndex : Z),
    (0 <= low)%Z -> (high < len)%Z -> (low <= high + 1)%Z ->
    (high - low + 1 < Z.of_nat fuel)%Z ->
    (forall i p, js_index l i = Some p -> (i < low)%Z -> c14_BP p <= maxC14) ->
    (forall i p, js_index l i = Some p -> (high < i)%Z -> maxC14 < c14_BP p) ->
    maxIndex = (if (0 <? low)%Z then low - 1 else len - 1)%Z ->
    exists k : Z,
      max_index_search fuel l maxC14 low high maxIndex
      = Ok (if (0 <? k)%Z then k - 1 else len - 1)%Z
      /\ (low <= k <= high + 1)%Z
      /\ (forall i p, js_index l i = Some p -> (i < k)%Z -> c14_BP p <= maxC14)
      /\ (forall i p, js_index l i = Some p -> (k <= i)%Z ->
                      maxC14 < c14_BP p).
Proof.
  intros Hs len.
  induction fuel as [|fuel IH]; intros low high maxIndex H0 Hn Hlh Hf Hlo Hhi Hmax.
  - lia.
  - simpl. destruct (Z.leb_spec low high) as [Hle|Hgt].
    + pose proof (mid_between low high Hle) as Hmid.
      set (mid := ((low + high) / 2)%Z) in *.
      destruct (js_index_some l mid ltac:(lia)) as [p Hp].
      rewrite Hp. simpl.
      destruct (Qle_bool (c14_BP p) maxC14) eqn:E; qbool.
      * destruct (IH (mid + 1)%Z high mid)
          as (k & Hk1 & Hk2 & Hk3 & Hk4); try lia; try assumption.
        -- intros i q Hq Hi.
           pose proof (key_sorted_index c14_BP l Hs i mid q p ltac:(lia) Hq Hp).
           lra.
        -- destruct (Z.ltb_spec 0 (mid + 1)); lia.
        -- exists k. repeat split; try assumption; lia.
      * destruct (IH low (mid - 1)%Z maxIndex)
          as (k & Hk1 & Hk2 & Hk3 & Hk4); try lia; try assumption.
        -- intros i q Hq Hi.
           pose proof (key_sorted_index c14_BP l Hs mid i p q ltac:(lia) Hp Hq).
           lra.
        -- exists k. repeat split; try assumption; lia.
    + exists low.
      split; [rewrite Hmax; reflexivity|].
      split; [lia|]. split; [exact Hlo|].
      intros i p Hp Hi. apply (Hhi i p Hp). lia.
Qed.

Lemma partition_firstn_skipn {A : Type} (f : A -> bool) (l : list A) :
  forall k : nat,
    (k <= length l)%nat ->
    (forall i p, nth_error l i = Some p -> (i < k)%nat -> f p = true) ->
    (forall i p, nth_error l i = Some p -> (k <= i)%nat -> f p = false) ->
    firstn k l = filter f l
    /\ skipn k l = filter (fun p => negb (f p)) l.
Proof.
  induction l as [|a l IH]; intros k Hk Hlo Hhi.
  - destruct k; simpl; split; reflexivity.
  - destruct k as [|k].
    + destruct (IH 0%nat ltac:(lia)) as [E1 E2].
      * intros i p Hp Hi. lia.
      * intros i p Hp Hi. apply (Hhi (S i) p Hp). lia.
      * simpl in *. rewrite (Hhi 0%nat a eq_refl (Nat.le_refl 0)). simpl.
        split; [exact E1|f_equal; exact E2].
    + destruct (IH k ltac:(simpl in Hk; lia)) as [E1 E2].
      * intros i p Hp Hi. apply (Hlo (S i) p Hp). lia.
      * intros i p Hp Hi. apply (Hhi (S i) p Hp). lia.
      * simpl. rewrite (Hlo 0%nat a eq_refl ltac:(lia)). simpl.
        split; [f_equal; exact E1|exact E2].
Qed.

Lemma filter_filter {A : Type} (f g : A -> bool) (l : list A) :
  filter f (filter g l) = filter (fun x => g x && f x) l.
Proof.
  induction l as [|a l IH]; simpl.
  - reflexivity.
  - destruct (g a); simpl; [destruct (f a)|]; rewrite IH; reflexivity.
Qed.

Lemma forallb_index {A : Type} (f : A -> bool) (l : list A) :
  forallb f l = true <-> (forall i p, js_index l i = Some p -> f p = true).
Proof.
  rewrite forallb_forall. split.
  - intros H i p Hp. apply H. eapply js_index_In; eassumption.
  - intros H p Hp. destruct (In_js_index l p Hp) as [i Hi].
    apply (H i p Hi).
Qed.

Lemma js_slice_whole {A : Type} (l : list A) :
  js_slice l 0 (Z.of_nat (length l) - 1 + 1) = l.
Proof.
  unfold js_slice.
  replace (Z.of_nat (length l) - 1 + 1)%Z with (Z.of_nat (length l)) by lia.
  destruct (Z.ltb_spec (Z.of_nat (length l)) 0) as [H|H]; [lia|].
  simpl (0 <? 0)%Z. cbv iota.
  rewrite Z.min_id.
  replace (Z.min 0 (Z.of_nat (length l))) with 0%Z by lia.
  rewrite Z.sub_0_r, Nat2Z.id. simpl. apply firstn_all.
Qed.

Lemma js_slice_between {A : Type} (l : list A) (a b : nat) :
  (a <= b <= length l)%nat ->
  js_slice l (Z.of_nat a) (Z.of_nat b) = skipn a (firstn b l).
Proof.
  intro H. unfold js_slice.
  destruct (Z.ltb_spec (Z.of_nat a) 0) as [Ha|Ha]; [lia|].
  destruct (Z.ltb_spec (Z.of_nat b) 0) as [Hb|Hb]; [lia|].
  rewrite !Z.min_l by lia.
  rewrite <- Nat2Z.inj_sub by lia. rewrite !Nat2Z.id.
  rewrite firstn_skipn_comm. f_equal. f_equal. lia.
Qed.

(** What the two searches of [findCalendarRangeByC14BP] select. *)
Lemma selectedCurvePoints_spec (curveData : list CurvePoint) (age u : Q) :
  curveData <> [] -> 0 <= u ->
  selectedCurvePoints curveData age u
  = Ok (searched_points curveData age u).
Proof.
  intros Hne Hu.
  unfold selectedCurvePoints, searched_points, band_points.
  set (l := js_sort by_ascending_c14_BP curveData).
  set (lo := age - 5 * u). set (hi := age + 5 * u).
  assert (Hlohi : lo <= hi) by (subst lo hi; lra).
  pose proof (js_sort_sorted by_ascending_c14_BP c14_BP
                by_ascending_c14_BP_key curveData) as Hs. fold l in Hs.
  assert (Hlen : (0 < length l)%nat).
  { unfold l.
    rewrite (Permutation_length (js_sort_perm by_ascending_c14_BP curveData)).
    destruct curveData; [congruence|simpl; lia]. }
  set (len := Z.of_nat (length l)).
  destruct (min_index_search_spec l lo Hs (S (length l)) 0 (len - 1) 0)
    as (a & Ea & Ha & Ha1 & Ha2); try (subst len; lia).
  { intros i p Hp Hi. apply js_index_inv in Hp. lia. }
  { intros i p Hp Hi. apply js_index_inv in Hp. subst len. lia. }
  { destruct (Z.ltb_spec (len - 1 + 1) (Z.of_nat (length l)));
      [subst len; lia|reflexivity]. }
  destruct (max_index_search_spec l hi Hs (S (length l)) 0 (len - 1) (len - 1))
    as (b & Eb & Hb & Hb1 & Hb2); try (subst len; lia).
  { intros i p Hp Hi. apply js_index_inv in Hp. lia. }
  { intros i p Hp Hi. apply js_index_inv in Hp. subst len. lia. }
  { reflexivity. }
  fold len in Ea, Eb. rewrite Ea, Eb. cbn [bind]. f_equal.
  assert (Hab : (a <= b)%Z).
  { destruct (Z.le_gt_cases a b) as [H|H]; [exact H|].
    destruct (js_index_some l b ltac:(subst len; lia)) as [p Hp].
    pose proof (Ha1 b p Hp ltac:(lia)).
    pose proof (Hb2 b p Hp ltac:(lia)). lra. }
  destruct (Z.ltb_spec a len) as [Halt|Hage].
  - (* some point at or above the lower bound *)
    assert (Hfa : forallb (fun p => Qlt_bool (c14_BP p) lo) l = false).
    { destruct (forallb (fun p => Qlt_bool (c14_BP p) lo) l) eqn:E;
        [|reflexivity].
      destruct (js_index_some l a ltac:(subst len; lia)) as [p Hp].
      pose proof (proj1 (forallb_index _ l) E a p Hp) as Hlt.
      cbv beta in Hlt. qbool.
      pose proof (Ha2 a p Hp ltac:(lia)). lra. }
    rewrite Hfa. cbn [orb].
    destruct (Z.ltb_spec 0 b) as [Hbpos|Hbzero].
    + (* and some point at or below the upper bound: the band *)
      assert (Hfb : forallb (fun p => Qlt_bool hi (c14_BP p)) l = false).
      { destruct (forallb (fun p => Qlt_bool hi (c14_BP p)) l) eqn:E;
          [|reflexivity].
        destruct (js_index_some l 0 ltac:(subst len; lia)) as [p Hp].
        pose proof (proj1 (forallb_index _ l) E 0%Z p Hp) as Hlt.
        cbv beta in Hlt. qbool.
        pose proof (Hb1 0%Z p Hp ltac:(lia)). lra. }
      rewrite Hfb.
      replace (b - 1 + 1)%Z with b by lia.
      rewrite <- (Z2Nat.id a), <- (Z2Nat.id b) by lia.
      rewrite js_slice_between by (subst len; lia).
      destruct (partition_firstn_skipn (fun p => Qle_bool (c14_BP p) hi) l
                  (Z.to_nat b)) as [EB _].
      { subst len; lia. }
      { intros i p Hp Hi. apply Qle_bool_iff.
        apply (Hb1 (Z.of_nat i) p); [rewrite js_index_nat; exact Hp|lia]. }
      { intros i p Hp Hi. apply Qle_bool_false.
        apply (Hb2 (Z.of_nat i) p); [rewrite js_index_nat; exact Hp|lia]. }
      destruct (partition_firstn_skipn (fun p => Qlt_bool (c14_BP p) lo)
                  (firstn (Z.to_nat b) l) (Z.to_nat a)) as [_ EA].
      { rewrite length_firstn. subst len. lia. }
      { intros i p Hp Hi. rewrite nth_error_firstn in Hp.
        destruct (Nat.ltb i (Z.to_nat b)); [|discriminate].
        apply Qlt_bool_iff.
        apply (Ha1 (Z.of_nat i) p); [rewrite js_index_nat; exact Hp|lia]. }
      { intros i p Hp Hi. rewrite nth_error_firstn in Hp.
        destruct (Nat.ltb i (Z.to_nat b)); [|discriminate].
        apply Qlt_bool_false.
        apply (Ha2 (Z.of_nat i) p); [rewrite js_index_nat; exact Hp|lia]. }
      rewrite EA, EB, filter_filter.
      apply filter_ext. intro p. unfold in_band, Qlt_bool.
      rewrite negb_involutive. apply andb_comm.
    + (* every point above the band: the whole curve *)
      assert (Hfb : forallb (fun p => Qlt_bool hi (c14_BP p)) l = true).
      { apply forallb_index. intros i p Hp. apply Qlt_bool_iff.
        apply (Hb2 i p Hp). apply js_index_inv in Hp. lia. }
      rewrite Hfb.
      assert (a = 0%Z).
      { destruct (Z.eq_dec a 0) as [E|E]; [exact E|].
        destruct (js_index_some l 0 ltac:(subst len; lia)) as [p Hp].
        pose proof (Ha1 0%Z p Hp ltac:(lia)).
        pose proof (Hb2 0%Z p Hp ltac:(lia)). lra. }
      subst a. apply js_slice_whole.
  - (* every point below the band: the whole curve *)
    assert (Hfa : forallb (fun p => Qlt_bool (c14_BP p) lo) l = true).
    { apply forallb_index. intros i p Hp. apply Qlt_bool_iff.
      apply (Ha1 i p Hp). apply js_index_inv in Hp. subst len. lia. }
    rewrite Hfa. cbn [orb].
    assert (b = len) by lia. subst b.
    destruct (Z.ltb_spec 0 len) as [_|H]; [|subst len; lia].
    apply js_slice_whole.
Qed.

(** ** calibrateDate: the evaluated calendar range *)

Lemma searched_points_band (curveData : list CurvePoint) (age u : Q) :
  band_points curveData age u <> [] ->
  searched_points curveData age u = band_points curveData age u.
Proof.
  intro Hne. unfold searched_points.
  destruct (band_points curveData age u) as [|p pts] eqn:E; [congruence|].
  assert (Hp : In p (band_points curveData age u))
    by (rewrite E; left; reflexivity).
  unfold band_points in Hp. apply filter_In in Hp. destruct Hp as [Hp Hb].
  unfold in_band in Hb. apply andb_true_iff in Hb. destruct Hb as [H1 H2].
  qbool.
  set (l := js_sort by_ascending_c14_BP curveData) in *.
  destruct (forallb (fun p => Qlt_bool (c14_BP p) (age - 5 * u)) l) eqn:Ea.
  { rewrite forallb_forall in Ea. specialize (Ea p Hp). cbv beta in Ea.
    qbool. lra. }
  destruct (forallb (fun p => Qlt_bool (age + 5 * u) (c14_BP p)) l) eqn:Eb.
  { rewrite forallb_forall in Eb. specialize (Eb p Hp). cbv beta in Eb.
    qbool. lra. }
  reflexivity.
Qed.

Lemma calendarBounds_spec_aux (curveData : list CurvePoint) (age u : Q)
  (first last : CurvePoint) :
  js_index curveData 0 = Some first ->
  js_index curveData (Z.of_nat (length curveData) - 1) = Some last ->
  0 < u ->
  calendarBounds curveData age u (JsString "c14_bp")
  = Ok (padded_range (searched_points curveData age u) first last)
  /\ calendarBounds curveData age u (JsString "full_curve")
     = Ok (clamp_to_curve first last (Fin (cal_BP first), Fin (cal_BP last)))
  /\ calendarBounds curveData age u (JsString "fixed_range")
     = Ok (clamp_to_curve first last (Fin 0, Fin 12000)).
Proof.
  intros Hf Hl Hu.
  assert (Hne : curveData <> []).
  { intro E. subst curveData. discriminate Hf. }
  split; [|split].
  - unfold calendarBounds, policy_bounds, findCalendarRangeByC14BP.
    simpl (String.eqb "c14_bp" "c14_bp"). cbv iota.
    rewrite (selectedCurvePoints_spec curveData age u Hne (Qlt_le_weak _ _ Hu)).
    cbn [bind]. rewrite Hf, Hl. reflexivity.
  - unfold calendarBounds, policy_bounds.
    simpl (String.eqb "full_curve" "c14_bp").
    simpl (String.eqb "full_curve" "full_curve"). cbv iota.
    rewrite Hf, Hl. reflexivity.
  - unfold calendarBounds, policy_bounds.
    simpl (String.eqb "fixed_range" "c14_bp").
    simpl (String.eqb "fixed_range" "full_curve"). cbv iota.
    cbn [bind]. rewrite Hf, Hl. reflexivity.
Qed.

(** C6 (as the code has it).  In 'c14_bp' mode the evaluated range comes
    from the points the two searches select on the curve re-sorted by
    radiocarbon age: the points in the band of five uncertainties around the
    corrected age, or the whole curve when every point lies below the band or
    every point lies above it; their least and greatest calendar ages are
    padded by 500 years, the lower bound kept at or above 0, and the result
    is clamped to the curve.  'full_curve' uses the curve's extent and
    'fixed_range' uses [0, 12000], with the same clamp. *)
Theorem calendarBounds_spec (curveData : list CurvePoint) (age u : Q)
  (first last : CurvePoint) :
  js_index curveData 0 = Some first ->
  js_index curveData (Z.of_nat (length curveData) - 1) = Some last ->
  0 < u ->
  calendarBounds curveData age u (JsString "c14_bp")
  = Ok (padded_range (searched_points curveData age u) first last)
  /\ (band_points curveData age u <> [] ->
      calendarBounds curveData age u (JsString "c14_bp")
      = Ok (padded_range (band_points curveData age u) first last))
  /\ calendarBounds curveData age u (JsString "full_curve")
     = Ok (clamp_to_curve first last (Fin (cal_BP first), Fin (cal_BP last)))
  /\ calendarBounds curveData age u (JsString "fixed_range")
     = Ok (clamp_to_curve first last (Fin 0, Fin 12000)).
Proof.
  intros Hf Hl Hu.
  destruct (calendarBounds_spec_aux curveData age u first last Hf Hl Hu)
    as (Hc14 & Hfull & Hfixed).
  split; [exact Hc14|]. split; [|split; assumption].
  intro Hb. rewrite Hc14, (searched_points_band _ _ _ Hb). reflexivity.
Qed.

Lemma calendarBounds_spec_witness :
  calendarBounds testCurveData 300 10 (JsString "c14_bp")
  = Ok (padded_range (band_points testCurveData 300 10)
          (mkCurvePoint 100 200 10) (mkCurvePoint 400 500 25))
  /\ calendarBounds testCurveData 300 10 (JsString "fixed_range")
     = Ok (clamp_to_curve (mkCurvePoint 100 200 10) (mkCurvePoint 400 500 25)
             (Fin 0, Fin 12000)).
Proof.
  pose proof (calendarBounds_spec testCurveData 300 10
                (mkCurvePoint 100 200 10) (mkCurvePoint 400 500 25)
                eq_refl eq_refl eq_refl) as (_ & Hband & _ & Hfixed).
  split; [|exact Hfixed].
  apply Hband. vm_compute. discriminate.
Defined.

(** C6 (as stated) fails: on the two-point curve with radiocarbon ages 100
    and 200, a corrected age of 1000 with uncertainty 1 puts no curve point
    in the band [995, 1005], so the stated recipe yields the empty range
    (Infinity, -Infinity); the code evaluates the whole curve, [0, 1]. *)
Lemma calendarBounds_not_band_only :
  band_points gapCurve 1000 1 = []
  /\ padded_range (band_points gapCurve 1000 1)
       (mkCurvePoint 0 100 10) (mkCurvePoint 1 200 10) = (PInf, NInf)
  /\ calendarBounds gapCurve 1000 1 (JsString "c14_bp") = Ok (Fin 0, Fin 1)
  /\ calendarBounds gapCurve 1000 1 (JsString "c14_bp")
     <> Ok (padded_range (band_points gapCurve 1000 1)
              (mkCurvePoint 0 100 10) (mkCurvePoint 1 200 10)).
Proof.
  split; [reflexivity|]. split; [reflexivity|]. split; [reflexivity|].
  vm_compute. discriminate.
Qed.

(** ** calibrateDate: normalisation *)

Lemma mass_scaled (l : list ProbabilityPoint) (t : Q) :
  mass (map (fun p => {| pp_cal_BP := pp_cal_BP p;
                         probability := probability p / t |}) l)
  == mass l / t.
Proof.
  unfold Qdiv. induction l as [|p l IH]; simpl.
  - lra.
  - rewrite IH. lra.
Qed.

Lemma sum_y_perm (l l' : list ChartPoint) :
  Permutation l l' -> sum_y l == sum_y l'.
Proof. induction 1; simpl; try lra. Qed.

Lemma sum_y_chart (l : list ProbabilityPoint) :
  sum_y (map (fun p => {| chart_x := pp_cal_BP p; chart_y := probability p |}) l)
  == mass l.
Proof.
  induction l as [|p l IH]; simpl.
  - reflexivity.
  - rewrite IH. reflexivity.
Qed.

(** The normalised distribution is the list of densities, each divided by
    their total. *)
Lemma normalizedDistribution_probabilities
  (density : Q -> Q -> Q -> Q -> Q) (curveData : list CurvePoint)
  (age u : Q) (mode : JsPrim) :
  normalizedDistribution density curveData age u mode
  = (ps <- probabilities density curveData age u mode ;;
     Ok (map (fun p => {| pp_cal_BP := pp_cal_BP p;
                          probability := probability p / sum_probability ps |})
             ps)).
Proof.
  unfold normalizedDistribution, probabilities.
  destruct (calendarBounds curveData age u mode) as [b|e|]; try reflexivity.
  cbn [bind].
  destruct (createUniformDistribution curveData (fst b) (snd b))
    as [uniformCurve|e|]; reflexivity.
Qed.

(** In the exact model the normalised probabilities add up to 1, or to 0
    when the total of the densities is 0. *)
Lemma normalizedDistribution_total
  (density : Q -> Q -> Q -> Q -> Q) (curveData : list CurvePoint)
  (age u : Q) (mode : JsPrim) (dist : list ProbabilityPoint) :
  normalizedDistribution density curveData age u mode = Ok dist ->
  mass dist == 0 \/ mass dist == 1.
Proof.
  intro E. rewrite normalizedDistribution_probabilities in E.
  destruct (probabilities density curveData age u mode) as [ps|e|];
    try discriminate.
  cbn [bind] in E. injection E as <-.
  rewrite mass_scaled, <- sum_probability_mass.
  destruct (Qeq_dec (sum_probability ps) 0) as [Ez|Ez].
  - left. rewrite Ez. reflexivity.
  - right. field. exact Ez.
Qed.

(** ** Termination: every loop finishes within its bound *)

Lemma curve_search_total (curveData : list CurvePoint) (calBP : Q) :
  let len := Z.of_nat (length curveData) in
  forall (fuel : nat) (low high : Z),
    (0 <= low)%Z -> (high < len)%Z -> (low <= high + 1)%Z ->
    (high - low + 1 < Z.of_nat fuel)%Z ->
    ((0 < low)%Z -> exists p, js_index curveData (low - 1) = Some p
                              /\ cal_BP p < calBP) ->
    ((high < len - 1)%Z -> exists p, js_index curveData (high + 1) = Some p
                                     /\ calBP < cal_BP p) ->
    (exists p, curve_search fuel curveData calBP low high = Ok (ExactMatch p))
    \/ (exists k, curve_search fuel curveData calBP low high
                  = Ok (NoMatch k (k - 1))
                  /\ ((0 < k)%Z -> exists p, js_index curveData (k - 1) = Some p
                                             /\ cal_BP p < calBP)
                  /\ ((k - 1 < len - 1)%Z ->
                      exists p, js_index curveData k = Some p
                                /\ calBP < cal_BP p)).
Proof.
  intro len.
  induction fuel as [|fuel IH]; intros low high H0 Hn Hlh Hf Hlo Hhi.
  - lia.
  - simpl. destruct (Z.leb_spec low high) as [Hle|Hgt].
    + pose proof (mid_between low high Hle) as Hmid.
      set (mid := ((low + high) / 2)%Z) in *.
      destruct (js_index_some curveData mid ltac:(subst len; lia)) as [p Hp].
      rewrite Hp. simpl.
      destruct (Qlt_bool (cal_BP p) calBP) eqn:E1; qbool.
      * apply (IH (mid + 1)%Z high); try lia; try assumption.
        intros _. exists p. replace (mid + 1 - 1)%Z with mid by lia.
        split; assumption.
      * destruct (Qlt_bool calBP (cal_BP p)) eqn:E2; qbool.
        -- apply (IH low (mid - 1)%Z); try lia; try assumption.
           intros _. exists p. replace (mid - 1 + 1)%Z with mid by lia.
           split; assumption.
        -- left. exists p. reflexivity.
    + right. exists low.
      assert (Eh : high = (low - 1)%Z) by lia. subst high.
      replace (low - 1 + 1)%Z with low in Hhi by lia.
      split; [reflexivity|]. split; [exact Hlo|exact Hhi].
Qed.

Lemma getCurveValueAt_total (curveData : list CurvePoint) (calBP : Q) :
  curveData <> [] -> exists v, getCurveValueAt calBP curveData = Ok v.
Proof.
  intro Hne.
  assert (Hlen : (0 < length curveData)%nat)
    by (destruct curveData; [congruence|simpl; lia]).
  set (len := Z.of_nat (length curveData)).
  destruct (js_index_some curveData 0 ltac:(lia)) as [first Hf].
  destruct (js_index_some curveData (len - 1) ltac:(subst len; lia))
    as [last Hl].
  destruct (Qlt_le_dec (cal_BP first) calBP) as [H1|H1].
  2:{ exists (CurvePointItself first). unfold getCurveValueAt.
      rewrite Hf. simpl. apply Qle_bool_iff in H1. rewrite H1. reflexivity. }
  destruct (Qlt_le_dec calBP (cal_BP last)) as [H2|H2].
  2:{ exists (CurvePointItself last). unfold getCurveValueAt.
      rewrite Hf. simpl. apply Qle_bool_false in H1. rewrite H1.
      fold len. rewrite Hl. simpl.
      apply Qle_bool_iff in H2. rewrite H2. reflexivity. }
  rewrite (getCurveValueAt_inside _ _ _ _ Hf Hl H1 H2). fold len.
  destruct (curve_search_total curveData calBP (S (length curveData))
              0 (len - 1))
    as [(p & E)|(k & E & Hk1 & Hk2)]; try (subst len; lia).
  - rewrite E. simpl. eauto.
  - rewrite E. simpl.
    assert (Hk : (1 <= k <= len - 1)%Z).
    { split.
      - destruct (Z.le_gt_cases 1 k) as [H|H]; [exact H|].
        destruct (Z.le_gt_cases k (len - 1)) as [Hk|Hk].
        + destruct (Z.eq_dec k 0) as [->|Hk0].
          * destruct (Hk2 ltac:(lia)) as (p & Hp & Hlt).
            rewrite Hf in Hp. injection Hp as <-. lra.
          * destruct (Hk2 ltac:(lia)) as (p & Hp & _).
            apply js_index_inv in Hp. lia.
        + destruct (Hk1 ltac:(subst len; lia)) as (p & Hp & _).
          apply js_index_inv in Hp. subst len. lia.
      - destruct (Z.le_gt_cases k (len - 1)) as [Hk|Hk]; [exact Hk|].
        destruct (Hk1 ltac:(subst len; lia)) as (p & Hp & Hlt).
        apply js_index_inv in Hp as Hp'. destruct Hp' as [Hr _].
        assert (k = len) by (subst len; lia). subst k.
        rewrite Hl in Hp. injection Hp as <-. lra. }
    destruct (Hk1 ltac:(lia)) as (lo & Hlo & _).
    destruct (Hk2 ltac:(lia)) as (hi & Hhi & _).
    rewrite Hlo, Hhi. simpl. eauto.
Qed.

Lemma Qfloor_below (x : Q) (n : Z) : x < inject_Z n -> (Qfloor x < n)%Z.
Proof.
  intro H. rewrite Zlt_Qlt.
  eapply Qle_lt_trans; [apply Qfloor_le|exact H].
Qed.

Lemma uniform_loop_total (curveData : list CurvePoint) (endYear : Q) :
  curveData <> [] ->
  forall (fuel : nat) (calBP : Q),
    (Qfloor (endYear - calBP) + 1 <= Z.of_nat fuel)%Z ->
    exists l, uniform_loop fuel curveData calBP endYear = Ok l
              /\ (calBP <= endYear -> l <> []).
Proof.
  intro Hne. induction fuel as [|fuel IH]; intros calBP Hf.
  - simpl. assert (Hlt : endYear < calBP).
    { pose proof (Qlt_floor (endYear - calBP)) as H.
      assert (inject_Z (Qfloor (endYear - calBP) + 1) <= inject_Z 0)
        by (rewrite <- Zle_Qle; lia).
      change (inject_Z 0) with 0 in *. lra. }
    apply Qle_bool_false in Hlt as Hb. rewrite Hb.
    exists []. split; [reflexivity|]. intro. lra.
  - simpl. destruct (Qle_bool calBP endYear) eqn:E; qbool.
    + destruct (getCurveValueAt_total curveData calBP Hne) as [v Hv].
      rewrite Hv. cbn [bind].
      destruct (IH (calBP + 1)) as (l & El & _).
      { assert (Hx : endYear - (calBP + 1)
                     < inject_Z (Qfloor (endYear - calBP))).
        { pose proof (Qlt_floor (endYear - calBP)) as H.
          rewrite inject_Z_plus in H. change (inject_Z 1) with 1 in H. lra. }
        apply Qfloor_below in Hx. lia. }
      rewrite El. cbn [bind]. eexists. split; [reflexivity|].
      intros _. discriminate.
    + exists []. split; [reflexivity|]. intro. lra.
Qed.

Lemma createUniformDistribution_finite (curveData : list CurvePoint)
  (startYear endYear : Q) :
  curveData <> [] ->
  exists l, createUniformDistribution curveData (Fin startYear) (Fin endYear)
            = Ok l
            /\ (startYear <= endYear -> l <> []).
Proof.
  intro Hne. unfold createUniformDistribution.
  apply uniform_loop_total; [exact Hne|]. lia.
Qed.

Lemma math_min_shape (l : list Q) :
  (l = [] /\ math_min l = PInf) \/ (exists m, math_min l = Fin m).
Proof.
  destruct l as [|v l]; [left; split; reflexivity|right].
  destruct (math_min_least (v :: l) ltac:(discriminate)) as (m & E & _).
  eauto.
Qed.

Lemma math_max_shape (l : list Q) :
  (l = [] /\ math_max l = NInf) \/ (exists m, math_max l = Fin m).
Proof.
  destruct l as [|v l]; [left; split; reflexivity|right].
  destruct (math_max_greatest (v :: l) ltac:(discriminate)) as (m & E & _).
  eauto.
Qed.

Lemma ext_max_fin (p q : Q) : exists m, ext_max (Fin p) (Fin q) = Fin m.
Proof. simpl. destruct (Qle_bool p q); eauto. Qed.

Lemma ext_min_fin (p q : Q) : exists m, ext_min (Fin p) (Fin q) = Fin m.
Proof. simpl. destruct (Qle_bool p q); eauto. Qed.

(** The evaluated range is a pair of calendar ages, or the empty range
    (Infinity, -Infinity). *)
Lemma calendarBounds_shape (curveData : list CurvePoint) (age u : Q)
  (mode : JsPrim) :
  curveData <> [] -> 0 < u ->
  exists b, calendarBounds curveData age u mode = Ok b
            /\ (b = (PInf, NInf) \/ exists lo hi, b = (Fin lo, Fin hi)).
Proof.
  intros Hne Hu.
  assert (Hlen : (0 < length curveData)%nat)
    by (destruct curveData; [congruence|simpl; lia]).
  destruct (js_index_some curveData 0 ltac:(lia)) as [first Hf].
  destruct (js_index_some curveData (Z.of_nat (length curveData) - 1)
              ltac:(lia)) as [last Hl].
  destruct (calendarBounds_spec_aux curveData age u first last Hf Hl Hu)
    as (Hc14 & Hfull & Hfixed).
  assert (Hfin : forall p q,
             exists lo hi, clamp_to_curve first last (Fin p, Fin q)
                           = (Fin lo, Fin hi)).
  { intros p q. unfold clamp_to_curve. cbn [fst snd].
    destruct (ext_max_fin p (cal_BP first)) as [lo ->].
    destruct (ext_min_fin q (cal_BP last)) as [hi ->]. eauto. }
  assert (Hdefault : forall m,
             m <> JsString "c14_bp" -> m <> JsString "full_curve" ->
             calendarBounds curveData age u m
             = Ok (clamp_to_curve first last (Fin 0, Fin 12000))).
  { intros m H1 H2. unfold calendarBounds.
    rewrite (policy_bounds_default _ _ _ m H1 H2). cbn [bind].
    rewrite Hf, Hl. reflexivity. }
  destruct mode as [| |b|q| |s];
    try (rewrite Hdefault by discriminate; eexists; split; [reflexivity|];
         right; apply Hfin).
  destruct (String.eqb s "c14_bp") eqn:E1.
  - apply String.eqb_eq in E1. subst s. rewrite Hc14.
    eexists. split; [reflexivity|].
    unfold padded_range, clamp_to_curve. cbn [fst snd].
    set (calYears := map cal_BP (searched_points curveData age u)).
    destruct (math_min_shape calYears) as [[E Emin]|[m Emin]].
    + left. rewrite Emin, E. reflexivity.
    + right. destruct (math_max_shape calYears) as [[E Emax]|[m' Emax]].
      * rewrite E in Emin. discriminate Emin.
      * rewrite Emin, Emax. cbn [ext_plus].
        destruct (ext_max_fin 0 (m + - (500))) as [x ->].
        destruct (ext_max_fin x (cal_BP first)) as [lo ->].
        destruct (ext_min_fin (m' + 500) (cal_BP last)) as [hi ->]. eauto.
  - destruct (String.eqb s "full_curve") eqn:E2.
    + apply String.eqb_eq in E2. subst s. rewrite Hfull.
      eexists. split; [reflexivity|]. right. apply Hfin.
    + rewrite Hdefault.
      * eexists. split; [reflexivity|]. right. apply Hfin.
      * intro E. injection E as ->. discriminate E1.
      * intro E. injection E as ->. discriminate E2.
Qed.

(** ** calibrateDate: when a result is returned *)

Lemma valid_uncertainty_positive (v : JsPrim) (u : Q) :
  valid_uncertainty v = Some u -> 0 < u.
Proof.
  unfold valid_uncertainty.
  destruct v as [| |b|q| |s]; try discriminate.
  destruct (Qle_bool q 0) eqn:Eq; [discriminate|].
  intro E. injection E as <-. qbool. exact Eq.
Qed.

Lemma js_sort_head {A : Type} (cmp : A -> A -> Q) (l : list A) :
  l <> [] -> exists a, js_index (js_sort cmp l) 0 = Some a.
Proof.
  intro Hne. apply js_index_some.
  rewrite (Permutation_length (js_sort_perm cmp l)).
  destruct l; [congruence|simpl; lia].
Qed.

Section Returns.

Variable calculateProbability : Q -> Q -> Q -> Q -> Q.
Variable loader : DataLoader.

Lemma calibrate_returns (age u rc : Q) (curveType : string) (mode : JsPrim)
  (curveData : list CurvePoint) (lo hi : Q) :
  calendarBounds curveData (age - rc) u mode = Ok (Fin lo, Fin hi) ->
  lo <= hi ->
  exists w r,
    calibrate calculateProbability loader age u rc curveType mode curveData
    = (w, Ok r).
Proof.
  intros Hb Hle.
  assert (Hne : curveData <> []).
  { intro E. subst curveData. unfold calendarBounds in Hb.
    destruct (policy_bounds [] (age - rc) u mode); discriminate Hb. }
  destruct (createUniformDistribution_finite curveData lo hi Hne)
    as (l & El & Hl).
  specialize (Hl Hle).
  unfold calibrate, normalizedDistribution. rewrite Hb. cbn [bind fst snd].
  rewrite El. cbn [bind].
  match goal with
  | |- context [js_sort by_descending_probability ?d] =>
      set (dist := d)
  end.
  assert (Hd : dist <> []).
  { subst dist. destruct l; [congruence|]. discriminate. }
  destruct (js_sort_head by_descending_probability dist Hd) as [mp Em].
  rewrite Em.
  destruct (findHPD (AnArray dist) (682 # 1000)) as [w68 hpd68].
  destruct (findHPD (AnArray dist) (954 # 1000)) as [w95 hpd95].
  cbn [deref bind]. eauto.
Qed.

Lemma calibrate_terminates (age u rc : Q) (curveType : string) (mode : JsPrim)
  (curveData : list CurvePoint) :
  curveData <> [] -> 0 < u ->
  snd (calibrate calculateProbability loader age u rc curveType mode curveData)
  <> Diverge.
Proof.
  intros Hne Hu.
  destruct (calendarBounds_shape curveData (age - rc) u mode Hne Hu)
    as (b & Eb & [->|(lo & hi & ->)]).
  - unfold calibrate, normalizedDistribution. rewrite Eb. cbn. discriminate.
  - destruct (createUniformDistribution_finite curveData lo hi Hne)
      as (l & El & _).
    unfold calibrate, normalizedDistribution. rewrite Eb. cbn [bind fst snd].
    rewrite El. cbn [bind].
    match goal with
    | |- context [js_sort by_descending_probability ?d] => set (dist := d)
    end.
    destruct (findHPD (AnArray dist) (682 # 1000)) as [w68 hpd68].
    destruct (findHPD (AnArray dist) (954 # 1000)) as [w95 hpd95].
    cbn [snd].
    destruct (js_index (js_sort by_descending_probability dist) 0);
      discriminate.
Qed.

(** No call runs forever. *)
Lemma calibrateDate_terminates
  (c14_age uncertainty_ reservoir curveType mode : JsPrim) :
  snd (calibrateDate calculateProbability loader
         c14_age uncertainty_ reservoir curveType mode) <> Diverge.
Proof.
  unfold calibrateDate.
  destruct (valid_c14_age c14_age) as [age|]; [|discriminate].
  destruct (valid_uncertainty uncertainty_) as [u|] eqn:Eu; [|discriminate].
  apply valid_uncertainty_positive in Eu.
  destruct (valid_reservoir_correction _) as [rc|]; [|discriminate].
  destruct (resolve_curve_type _) as [w ct].
  unfold loaded_curves.
  destruct (getCalibrationData loader) as [curves|].
  - destruct (curve_lookup curves ct) as [[v|[|p ps]]|]; try discriminate.
    pose proof (calibrate_terminates age u rc ct
                  (default_param (JsString C14_BP_MODE) mode) (p :: ps)
                  ltac:(discriminate) Eu) as H.
    destruct (calibrate _ _ _ _ _ _ _ _) as [w' r']. exact H.
  - destruct (loadCalibrationData loader) as [curves|msg]; [|discriminate].
    destruct (curve_lookup curves ct) as [[v|[|p ps]]|]; try discriminate.
    pose proof (calibrate_terminates age u rc ct
                  (default_param (JsString C14_BP_MODE) mode) (p :: ps)
                  ltac:(discriminate) Eu) as H.
    destruct (calibrate _ _ _ _ _ _ _ _) as [w' r']. exact H.
Qed.

End Returns.

(** ** calibrateDate: a total that underflows *)

(** What a call of [calibrate] that returns was computed from. *)
Lemma calibrate_inv (density : Q -> Q -> Q -> Q -> Q) (loader : DataLoader)
  (age u rc : Q) (curveType : string) (mode : JsPrim)
  (curveData : list CurvePoint) (w : list Warning) (r : CalibrationResult) :
  calibrate density loader age u rc curveType mode curveData = (w, Ok r) ->
  exists dist : list ProbabilityPoint,
    normalizedDistribution density curveData (age - rc) u mode = Ok dist
    /\ distribution r = js_sort by_ascending_x (map chart_point dist).
Proof.
  intro E. unfold calibrate in E.
  destruct (normalizedDistribution density curveData (age - rc) u mode)
    as [dist|e|] eqn:En; try discriminate.
  destruct (findHPD (AnArray dist) (682 # 1000)) as [w68 hpd68].
  destruct (findHPD (AnArray dist) (954 # 1000)) as [w95 hpd95].
  destruct (js_index (js_sort by_descending_probability dist) 0)
    as [mp|]; cbn [deref bind] in E; [|discriminate].
  injection E as _ <-. exists dist. split; reflexivity.
Qed.

Lemma underflowingDensity_vanishes : vanishes_on_underflow underflowingDensity.
Proof.
  intros a e c ce H. unfold underflowingDensity. rewrite H. reflexivity.
Qed.

(** C3.  A call whose arguments pass validation, on a curve that is present
    and not empty, can return probabilities that do not add up to 1.  For
    the radiocarbon age 100000 with uncertainty 1 on the two-point curve
    (radiocarbon ages 100 and 200, both with error 10) a result is returned;
    the density underflows to 0 at both evaluated years, so the total is 0
    and every probability is the quotient 0 / 0: [NaN] on doubles, and 0 in
    the exact model, where the probabilities add up to 0. *)
Theorem calibrateDate_zero_total (density : Q -> Q -> Q -> Q -> Q) :
  vanishes_on_underflow density ->
  arguments_accepted (JsNumber 100000) (JsNumber 1) JsUndefined = true
  /\ (exists w r,
        calibrateDate density (testLoader gapCurve)
          (JsNumber 100000) (JsNumber 1) JsUndefined JsUndefined JsUndefined
        = (w, Ok r)
        /\ sum_y (distribution r) == 0
        /\ ~ Qabs (sum_y (distribution r) - 1) <= 1 # 1000000)
  /\ (exists ps,
        probabilities density gapCurve (100000 - 0) 1 (JsString C14_BP_MODE)
        = Ok ps
        /\ map pp_cal_BP ps = [0; 1]
        /\ Forall (fun p => probability p == 0) ps
        /\ sum_probability ps == 0)
  /\ normalizedProbabilities density gapCurve (100000 - 0) 1
       (JsString C14_BP_MODE)
     = Ok [(0, DataLoaderJs.FNaN); (1, DataLoaderJs.FNaN)].
Proof.
  intro Hd.
  assert (H0 : density (100000 - 0) 1 100 10 == 0)
    by (apply Hd; vm_compute; reflexivity).
  assert (H1 : density (100000 - 0) 1 200 10 == 0)
    by (apply Hd; vm_compute; reflexivity).
  assert (Hb : calendarBounds gapCurve (100000 - 0) 1 (JsString C14_BP_MODE)
               = Ok (Fin 0, Fin 1)) by (vm_compute; reflexivity).
  assert (Hu : createUniformDistribution gapCurve (Fin 0) (Fin 1)
               = Ok [ mkCurvePoint 0 100 10; mkCurvePoint 1 200 10 ])
    by (vm_compute; reflexivity).
  assert (Hp : probabilities density gapCurve (100000 - 0) 1
                 (JsString C14_BP_MODE)
               = Ok [ mkProbabilityPoint 0 (density (100000 - 0) 1 100 10);
                      mkProbabilityPoint 1 (density (100000 - 0) 1 200 10) ]).
  { unfold probabilities. rewrite Hb. cbn [bind fst snd]. rewrite Hu.
    reflexivity. }
  assert (Ht : sum_probability
                 [ mkProbabilityPoint 0 (density (100000 - 0) 1 100 10);
                   mkProbabilityPoint 1 (density (100000 - 0) 1 200 10) ]
               == 0).
  { unfold sum_probability. cbn [fold_left probability].
    rewrite H0, H1. reflexivity. }
  split; [reflexivity|]. split; [|split].
  - destruct (calibrate_returns density (testLoader gapCurve) 100000 1 0
                INTCAL20 (JsString C14_BP_MODE) gapCurve 0 1 Hb
                ltac:(apply Qle_bool_iff; reflexivity)) as (w & r & E).
    exists w, r.
    assert (Ecall : calibrateDate density (testLoader gapCurve)
                      (JsNumber 100000) (JsNumber 1)
                      JsUndefined JsUndefined JsUndefined
                    = (w, Ok r)).
    { change (calibrateDate density (testLoader gapCurve)
                (JsNumber 100000) (JsNumber 1)
                JsUndefined JsUndefined JsUndefined)
        with (let (w', r') :=
                calibrate density (testLoader gapCurve) 100000 1 0 INTCAL20
                  (JsString C14_BP_MODE) gapCurve in
              (@nil Warning ++ w', r')).
      rewrite E. reflexivity. }
    split; [exact Ecall|].
    apply calibrate_inv in E. destruct E as (dist & En & Er).
    rewrite normalizedDistribution_probabilities, Hp in En.
    cbn [bind] in En. injection En as En.
    assert (Hs : sum_y (distribution r) == 0).
    { rewrite Er.
      rewrite (sum_y_perm _ _ (js_sort_perm by_ascending_x _)).
      unfold chart_point. rewrite sum_y_chart. rewrite <- En.
      cbn [map mass fold_right pp_cal_BP probability].
      generalize (sum_probability
                    [ mkProbabilityPoint 0 (density (100000 - 0) 1 100 10);
                      mkProbabilityPoint 1 (density (100000 - 0) 1 200 10) ]).
      intro total. rewrite H0, H1. unfold Qdiv. ring. }
    split; [exact Hs|].
    rewrite Hs. intro H. vm_compute in H. apply H. reflexivity.
  - eexists. split; [exact Hp|]. split; [reflexivity|]. split; [|exact Ht].
    repeat constructor; cbn [probability]; assumption.
  - unfold normalizedProbabilities. rewrite Hp. cbn [bind map pp_cal_BP probability].
    unfold CompareOxCal.js_divide.
    apply Qeq_bool_iff in Ht. rewrite Ht.
    apply Qeq_bool_iff in H0. apply Qeq_bool_iff in H1. rewrite H0, H1.
    reflexivity.
Qed.

Lemma calibrateDate_zero_total_witness :
  normalizedProbabilities underflowingDensity gapCurve (100000 - 0) 1
    (JsString C14_BP_MODE)
  = Ok [(0, DataLoaderJs.FNaN); (1, DataLoaderJs.FNaN)].
Proof.
  exact (proj2 (proj2 (proj2 (calibrateDate_zero_total underflowingDensity
                                underflowingDensity_vanishes)))).
Defined.

(** ** calibrateDate: errors *)

(** C5 (the code against it).  On the two-point curve, whose radiocarbon
    ages 100 and 200 leave the band [145, 155] empty, a call with age 150 and
    uncertainty 1 passes every validation and finds its curve, yet throws a
    [TypeError]: no calendar year is evaluated and the mode point is
    [undefined]. *)
Theorem calibrateDate_throws_on_empty_range
  (calculateProbability : Q -> Q -> Q -> Q -> Q) :
  valid_c14_age (JsNumber 150) = Some 150
  /\ valid_uncertainty (JsNumber 1) = Some 1
  /\ valid_reservoir_correction (JsNumber 0) = Some 0
  /\ known_curve_type (JsString INTCAL20) = Some INTCAL20
  /\ (r <- loaded_curves (testLoader gapCurve) ;;
      deref (curve_lookup r INTCAL20)) = Ok (EntryArray gapCurve)
  /\ calendarBounds gapCurve 150 1 (JsString "c14_bp") = Ok (PInf, NInf)
  /\ calibrateDate calculateProbability (testLoader gapCurve)
       (JsNumber 150) (JsNumber 1) (JsNumber 0)
       (JsString INTCAL20) (JsString "c14_bp")
     = ([WarnInvalidDistribution; WarnInvalidDistribution], Throw TypeError).
Proof.
  repeat split; reflexivity.
Qed.

Section Errors.

Variable calculateProbability : Q -> Q -> Q -> Q -> Q.
Variable loader : DataLoader.

(** The errors [calibrateDate] raises by design, in the order of its
    checks; an unknown curve type only logs a warning and selects
    IntCal20. *)
Lemma calibrateDate_raises
  (c14_age uncertainty_ reservoir curveType mode : JsPrim) :
  let call := calibrateDate calculateProbability loader
                c14_age uncertainty_ reservoir curveType mode in
  let reservoir' := default_param (JsNumber 0) reservoir in
  let curveType' := default_param (JsString INTCAL20) curveType in
  (valid_c14_age c14_age = None ->
   call = ([], Throw (InvalidRadiocarbonAge c14_age)))
  /\ (valid_c14_age c14_age <> None ->
      valid_uncertainty uncertainty_ = None ->
      call = ([], Throw (InvalidUncertainty uncertainty_)))
  /\ (valid_c14_age c14_age <> None ->
      valid_uncertainty uncertainty_ <> None ->
      valid_reservoir_correction reservoir' = None ->
      call = ([], Throw (InvalidReservoirCorrection reservoir')))
  /\ (valid_c14_age c14_age <> None ->
      valid_uncertainty uncertainty_ <> None ->
      valid_reservoir_correction reservoir' <> None ->
      (known_curve_type curveType' = None ->
       resolve_curve_type curveType'
       = ([WarnInvalidCurveType curveType'], INTCAL20))
      /\ (forall message,
            getCalibrationData loader = None ->
            loadCalibrationData loader = Rejected message ->
            call = (fst (resolve_curve_type curveType'),
                    Throw (FailedToLoad message)))
      /\ (forall curves,
            loaded_curves loader = Ok curves ->
            (forall p ps,
                curve_lookup curves (snd (resolve_curve_type curveType'))
                <> Some (EntryArray (p :: ps))) ->
            call = (fst (resolve_curve_type curveType'),
                    Throw (CurveDataMissing
                             (snd (resolve_curve_type curveType')))))).
Proof.
  intros call reservoir' curveType'. subst call. unfold calibrateDate.
  fold reservoir' curveType'.
  split; [intros ->; reflexivity|].
  split.
  { intros H1 ->. destruct (valid_c14_age c14_age); [reflexivity|congruence]. }
  split.
  { intros H1 H2 ->.
    destruct (valid_c14_age c14_age); [|congruence].
    destruct (valid_uncertainty uncertainty_); [reflexivity|congruence]. }
  intros H1 H2 H3.
  destruct (valid_c14_age c14_age) as [age|]; [|congruence].
  destruct (valid_uncertainty uncertainty_) as [u|]; [|congruence].
  destruct (valid_reservoir_correction reservoir') as [rc|]; [|congruence].
  split; [|split].
  - intro E. unfold resolve_curve_type. rewrite E. reflexivity.
  - intros message Hc Hl. unfold loaded_curves. rewrite Hc, Hl.
    destruct (resolve_curve_type curveType'). reflexivity.
  - intros curves Hload Hmiss. rewrite Hload.
    destruct (resolve_curve_type curveType') as [w ct]. cbn [fst snd] in *.
    destruct (curve_lookup curves ct) as [[v|[|p ps]]|]; try reflexivity.
    exfalso. apply (Hmiss p ps). reflexivity.
Qed.

(** A range without a calendar year makes the call throw a [TypeError]. *)
Lemma calibrate_throws_on_empty_range (age u rc : Q) (curveType : string)
  (mode : JsPrim) (curveData : list CurvePoint) (b : ExtQ * ExtQ) :
  calendarBounds curveData (age - rc) u mode = Ok b ->
  (b = (PInf, NInf) \/ exists lo hi, b = (Fin lo, Fin hi) /\ hi < lo) ->
  calibrate calculateProbability loader age u rc curveType mode curveData
  = ([WarnInvalidDistribution; WarnInvalidDistribution], Throw TypeError).
Proof.
  intros Hb Hempty.
  assert (Eu : createUniformDistribution curveData (fst b) (snd b) = Ok []).
  { destruct Hempty as [->|(lo & hi & -> & Hlt)]; [reflexivity|].
    cbn [fst snd createUniformDistribution].
    assert (Hf : Z.to_nat (Qfloor (hi - lo) + 1) = 0%nat).
    { assert (Hx : hi - lo < inject_Z 0) by (change (inject_Z 0) with 0; lra).
      apply Qfloor_below in Hx. lia. }
    rewrite Hf. simpl. apply Qle_bool_false in Hlt. rewrite Hlt.
    reflexivity. }
  unfold calibrate, normalizedDistribution.
  rewrite Hb. cbn [bind]. rewrite Eu. reflexivity.
Qed.

End Errors.

(** ** Instances of the search-mode and reservoir-correction properties *)

Lemma unknown_search_mode_is_fixed_range_witness :
  policy_bounds testCurveData 300 10 (JsString "nearest") = Ok (Fin 0, Fin 12000)
  /\ calibrateDate rationalDensity (testLoader testCurveData)
       (JsNumber 300) (JsNumber 10) JsUndefined JsUndefined (JsString "nearest")
     = map_logged (with_search_mode (JsString "nearest"))
         (calibrateDate rationalDensity (testLoader testCurveData)
            (JsNumber 300) (JsNumber 10) JsUndefined JsUndefined
            (JsString "fixed_range")).
Proof.
  pose proof (unknown_search_mode_is_fixed_range rationalDensity
                (testLoader testCurveData)
                (JsNumber 300) (JsNumber 10) JsUndefined JsUndefined
                (JsString "nearest")
                ltac:(discriminate) ltac:(discriminate) ltac:(discriminate))
    as [H1 H2].
  split; [apply H1|exact H2].
Defined.

Lemma reservoir_correction_equivalence_witness :
  map_logged computed_part
    (calibrateDate rationalDensity (testLoader testCurveData)
       (JsNumber 700) (JsNumber 10) (JsNumber 400) JsUndefined JsUndefined)
  = map_logged computed_part
      (calibrateDate rationalDensity (testLoader testCurveData)
         (JsNumber (700 - 400)) (JsNumber 10) (JsNumber 0)
         JsUndefined JsUndefined).
Proof.
  apply (reservoir_correction_equivalence rationalDensity
           (testLoader testCurveData) 700 10 400 JsUndefined JsUndefined).
  - apply Qle_bool_iff. reflexivity.
  - apply Qle_bool_iff. reflexivity.
  - apply Qle_bool_iff. reflexivity.
  - apply Qle_bool_iff. reflexivity.
  - reflexivity.
Defined.

(** ** The distributions the pipeline hands to findHPD *)

Lemma uniform_loop_years (curveData : list CurvePoint) (endYear : Q) :
  forall (fuel : nat) (calBP : Q) (l : list CurvePoint),
    uniform_loop fuel curveData calBP endYear = Ok l ->
    forall (i : nat) p, nth_error l i = Some p ->
                        cal_BP p == calBP + inject_Z (Z.of_nat i).
Proof.
  induction fuel as [|fuel IH]; intros calBP l E i p Hp; simpl in E.
  - destruct (Qle_bool calBP endYear); [discriminate|].
    injection E as <-. destruct i; discriminate.
  - destruct (Qle_bool calBP endYear).
    + destruct (getCurveValueAt calBP curveData) as [v|e|]; try discriminate.
      cbn [bind] in E.
      destruct (uniform_loop fuel curveData (calBP + 1) endYear)
        as [rest|e|] eqn:Er; try discriminate.
      cbn [bind] in E. injection E as <-.
      destruct i as [|i]; simpl in Hp.
      * injection Hp as <-. simpl. unfold inject_Z. lra.
      * rewrite (IH _ _ Er i p Hp).
        rewrite Nat2Z.inj_succ. unfold Z.succ. rewrite inject_Z_plus.
        change (inject_Z 1) with 1. lra.
    + injection E as <-. destruct i; discriminate.
Qed.

Lemma createUniformDistribution_years (curveData : list CurvePoint)
  (b : ExtQ * ExtQ) (l : list CurvePoint) :
  createUniformDistribution curveData (fst b) (snd b) = Ok l ->
  forall (i j : nat) p q,
    nth_error l i = Some p -> nth_error l j = Some q ->
    cal_BP p - cal_BP q == inject_Z (Z.of_nat i) - inject_Z (Z.of_nat j).
Proof.
  intros E i j p q Hp Hq. unfold createUniformDistribution in E.
  destruct (fst b) as [|s|], (snd b) as [|e|]; try discriminate;
    try (injection E as <-; destruct i; discriminate).
  rewrite (uniform_loop_years _ _ _ _ _ E i p Hp).
  rewrite (uniform_loop_years _ _ _ _ _ E j q Hq). lra.
Qed.

Lemma integers_apart (a b : Z) :
  a <> b -> 1 <= Qabs (inject_Z a - inject_Z b).
Proof.
  intro H. unfold Qminus. rewrite <- inject_Z_opp, <- inject_Z_plus.
  apply Qabs_case; intro H0.
  - change 1 with (inject_Z 1). rewrite <- Zle_Qle.
    change 0 with (inject_Z 0) in H0. rewrite <- Zle_Qle in H0. lia.
  - rewrite <- inject_Z_opp.
    change 1 with (inject_Z 1). rewrite <- Zle_Qle.
    change 0 with (inject_Z 0) in H0. rewrite <- Zle_Qle in H0. lia.
Qed.

(** What [calibrateDate] passes to [findHPD] has one point per calendar
    year. *)
Lemma normalizedDistribution_yearly
  (density : Q -> Q -> Q -> Q -> Q) (curveData : list CurvePoint)
  (age u : Q) (m : JsPrim) (dist : list ProbabilityPoint) :
  normalizedDistribution density curveData age u m = Ok dist ->
  yearly dist.
Proof.
  intro E. unfold normalizedDistribution in E.
  destruct (calendarBounds curveData age u m) as [b|e|]; try discriminate.
  cbn [bind] in E.
  destruct (createUniformDistribution curveData (fst b) (snd b))
    as [uniformCurve|e|] eqn:Ec; try discriminate.
  cbn [bind] in E. injection E as E.
  rewrite map_map in E. cbn [pp_cal_BP probability] in E.
  intros p q Hp Hq. rewrite <- E in Hp, Hq.
  apply In_nth_error in Hp. apply In_nth_error in Hq.
  destruct Hp as [i Hi], Hq as [j Hj].
  rewrite nth_error_map in Hi, Hj.
  destruct (nth_error uniformCurve i) as [pi|] eqn:Ei; [|discriminate].
  destruct (nth_error uniformCurve j) as [pj|] eqn:Ej; [|discriminate].
  cbn [option_map] in Hi, Hj. injection Hi as <-. injection Hj as <-.
  destruct (Nat.eq_dec i j) as [->|Hne].
  - left. congruence.
  - right. cbn [pp_cal_BP].
    rewrite (createUniformDistribution_years _ _ _ Ec i j pi pj Ei Ej).
    apply integers_apart. lia.
Qed.

(** With a density that is never negative, neither is a normalised
    probability. *)
Lemma normalizedDistribution_nonnegative
  (density : Q -> Q -> Q -> Q -> Q) (curveData : list CurvePoint)
  (age u : Q) (m : JsPrim) (dist : list ProbabilityPoint) :
  nonnegative_density density -> 0 < u ->
  normalizedDistribution density curveData age u m = Ok dist ->
  nonnegative dist.
Proof.
  intros Hd Hu E. rewrite normalizedDistribution_probabilities in E.
  unfold probabilities in E.
  destruct (calendarBounds curveData age u m) as [b|e|]; try discriminate.
  cbn [bind] in E.
  destruct (createUniformDistribution curveData (fst b) (snd b))
    as [uniformCurve|e|]; try discriminate.
  cbn [bind] in E. injection E as E.
  set (ps := map _ uniformCurve) in E.
  assert (Hps : nonnegative ps).
  { intros p Hp. subst ps. apply in_map_iff in Hp.
    destruct Hp as (point & <- & _). cbn [probability]. apply Hd, Hu. }
  intros p Hp. rewrite <- E in Hp. apply in_map_iff in Hp.
  destruct Hp as (p0 & <- & Hp0). cbn [probability].
  unfold Qdiv. apply Qmult_le_0_compat; [apply Hps, Hp0|].
  apply Qinv_le_0_compat. rewrite sum_probability_mass.
  apply mass_nonneg, Hps.
Qed.

(* ================================================================== *)
(** * Part III: further properties of the code                          *)
(* ================================================================== *)

(** ** getCurveValueAt on any curve *)

Lemma curve_search_match_in (curveData : list CurvePoint) (calBP : Q) :
  forall (fuel : nat) (low high : Z) (p : CurvePoint),
    curve_search fuel curveData calBP low high = Ok (ExactMatch p) ->
    In p curveData /\ cal_BP p == calBP.
Proof.
  induction fuel as [|fuel IH]; intros low high p E; simpl in E.
  - discriminate.
  - destruct (low <=? high)%Z; [|discriminate].
    destruct (js_index curveData ((low + high) / 2)) as [q|] eqn:Eq;
      [|discriminate].
    cbn [deref bind] in E.
    destruct (Qlt_bool (cal_BP q) calBP) eqn:E1; [apply (IH _ _ _ E)|].
    destruct (Qlt_bool calBP (cal_BP q)) eqn:E2; [apply (IH _ _ _ E)|].
    injection E as <-. qbool. split.
    + eapply js_index_In; eassumption.
    + lra.
Qed.

Lemma interpolate_between (t : Q) (lower upper : CurvePoint) :
  cal_BP lower < t -> t < cal_BP upper ->
  between (c14_BP lower) (c14_BP upper) (cv_c14_BP (interpolate t lower upper))
  /\ between (error lower) (error upper) (cv_error (interpolate t lower upper)).
Proof.
  intros H1 H2.
  rewrite (interpolate_linear t lower upper) by (intro E; lra).
  cbv zeta. cbn [cv_c14_BP cv_error].
  set (f := (t - cal_BP lower) / (cal_BP upper - cal_BP lower)).
  assert (Hf : f * (cal_BP upper - cal_BP lower) == t - cal_BP lower).
  { subst f. field. lra. }
  assert (Hf0 : 0 <= f).
  { subst f. apply Qlt_le_weak. apply Qlt_shift_div_l; lra. }
  assert (Hf1 : f <= 1).
  { subst f. apply Qlt_le_weak. apply Qlt_shift_div_r; lra. }
  assert (Hmix : forall a b, between a b (a + f * (b - a))).
  { intros a b. unfold between.
    destruct (Qlt_le_dec a b) as [Hab|Hab].
    - left. split; nra.
    - right. split; nra. }
  split; apply Hmix.
Qed.

(** X1.  [getCurveValueAt] never reads outside the curve: on the empty
    curve it throws a [TypeError]; on any non-empty curve, sorted or not, it
    returns a value, and that value lies between the values of two curve
    points (no extrapolation), for the radiocarbon age and for the error. *)
Theorem getCurveValueAt_no_extrapolation (curveData : list CurvePoint)
  (calBP : Q) :
  getCurveValueAt calBP [] = Throw TypeError
  /\ (curveData <> [] ->
      exists v lower upper,
        getCurveValueAt calBP curveData = Ok v
        /\ In lower curveData /\ In upper curveData
        /\ between (c14_BP lower) (c14_BP upper) (lookup_c14_BP v)
        /\ between (error lower) (error upper) (lookup_error v)).
Proof.
  split; [reflexivity|]. intro Hne.
  assert (Hself : forall p, In p curveData ->
            exists v lower upper,
              Ok (CurvePointItself p) = Ok v
              /\ In lower curveData /\ In upper curveData
              /\ between (c14_BP lower) (c14_BP upper) (lookup_c14_BP v)
              /\ between (error lower) (error upper) (lookup_error v)).
  { intros p Hp. exists (CurvePointItself p), p, p.
    split; [reflexivity|]. split; [exact Hp|]. split; [exact Hp|].
    split; left; split; apply Qle_refl. }
  assert (Hlen : (0 < length curveData)%nat)
    by (destruct curveData; [congruence|simpl; lia]).
  set (len := Z.of_nat (length curveData)).
  destruct (js_index_some curveData 0 ltac:(lia)) as [first Hf].
  destruct (js_index_some curveData (len - 1) ltac:(subst len; lia))
    as [last Hl].
  destruct (Qlt_le_dec (cal_BP first) calBP) as [H1|H1].
  2:{ replace (getCurveValueAt calBP curveData)
        with (@Ok CurveLookup (CurvePointItself first)).
      - apply Hself. eapply js_index_In; eassumption.
      - unfold getCurveValueAt. rewrite Hf. simpl.
        apply Qle_bool_iff in H1. rewrite H1. reflexivity. }
  destruct (Qlt_le_dec calBP (cal_BP last)) as [H2|H2].
  2:{ replace (getCurveValueAt calBP curveData)
        with (@Ok CurveLookup (CurvePointItself last)).
      - apply Hself. eapply js_index_In; eassumption.
      - unfold getCurveValueAt. rewrite Hf. simpl.
        apply Qle_bool_false in H1. rewrite H1.
        fold len. rewrite Hl. simpl.
        apply Qle_bool_iff in H2. rewrite H2. reflexivity. }
  rewrite (getCurveValueAt_inside _ _ _ _ Hf Hl H1 H2). fold len.
  destruct (curve_search_total curveData calBP (S (length curveData))
              0 (len - 1))
    as [(p & E)|(k & E & Hk1 & Hk2)]; try (subst len; lia).
  - rewrite E. cbn [bind].
    apply Hself. apply (curve_search_match_in _ _ _ _ _ _ E).
  - rewrite E. cbn [bind].
    assert (Hk0 : (0 < k)%Z).
    { destruct (Z.lt_ge_cases 0 k) as [H|H]; [exact H|].
      destruct (Z.eq_dec k 0) as [->|Hk0].
      - destruct (Hk2 ltac:(subst len; lia)) as (p & Hp & Hlt).
        rewrite Hf in Hp. injection Hp as <-. lra.
      - destruct (Hk2 ltac:(subst len; lia)) as (p & Hp & _).
        apply js_index_inv in Hp. lia. }
    destruct (Hk1 Hk0) as (lo & Hlo & Hlo').
    assert (Hkn : (k - 1 < len - 1)%Z).
    { destruct (Z.lt_ge_cases (k - 1) (len - 1)) as [H|H]; [exact H|].
      apply js_index_inv in Hlo as Hr. destruct Hr as [Hr _].
      assert (k = len) by (subst len; lia). subst k.
      rewrite Hl in Hlo. injection Hlo as <-. lra. }
    destruct (Hk2 Hkn) as (hi & Hhi & Hhi').
    rewrite Hlo, Hhi. cbn [deref bind].
    exists (Interpolated (interpolate calBP lo hi)), lo, hi.
    split; [reflexivity|].
    split; [eapply js_index_In; eassumption|].
    split; [eapply js_index_In; eassumption|].
    cbn [lookup_c14_BP lookup_error].
    apply interpolate_between; assumption.
Qed.

Lemma getCurveValueAt_no_extrapolation_witness :
  exists v lower upper,
    getCurveValueAt 250 testCurveData = Ok v
    /\ In lower testCurveData /\ In upper testCurveData
    /\ between (c14_BP lower) (c14_BP upper) (lookup_c14_BP v)
    /\ between (error lower) (error upper) (lookup_error v).
Proof.
  apply (proj2 (getCurveValueAt_no_extrapolation testCurveData 250)).
  discriminate.
Defined.

(** ** createUniformDistribution: one point per year *)

Lemma Qfloor_unique (x : Q) (n : Z) :
  inject_Z n <= x -> x < inject_Z (n + 1) -> Qfloor x = n.
Proof.
  intros H1 H2.
  pose proof (Qfloor_le x) as Hle. pose proof (Qlt_floor x) as Hlt.
  assert (inject_Z (Qfloor x) < inject_Z (n + 1)) by lra.
  assert (inject_Z n < inject_Z (Qfloor x + 1)) by lra.
  rewrite <- Zlt_Qlt in *. lia.
Qed.

Lemma Qfloor_minus_one (x y : Q) : y == x - 1 -> Qfloor y = (Qfloor x - 1)%Z.
Proof.
  intro E. apply Qfloor_unique.
  - pose proof (Qfloor_le x) as H. unfold Z.sub.
    rewrite inject_Z_plus, inject_Z_opp. change (inject_Z 1) with 1. lra.
  - pose proof (Qlt_floor x) as H.
    replace (Qfloor x - 1 + 1)%Z with (Qfloor x) by lia.
    rewrite inject_Z_plus in H. change (inject_Z 1) with 1 in H. lra.
Qed.

Lemma uniform_loop_shape (curveData : list CurvePoint) (endYear : Q) :
  forall (fuel : nat) (calBP : Q) (l : list CurvePoint),
    (Qfloor (endYear - calBP) + 1 <= Z.of_nat fuel)%Z ->
    uniform_loop fuel curveData calBP endYear = Ok l ->
    Z.of_nat (length l) = Z.max 0 (Qfloor (endYear - calBP) + 1)
    /\ (forall i p, nth_error l i = Some p ->
          exists year v,
            year == calBP + inject_Z (Z.of_nat i)
            /\ year <= endYear
            /\ getCurveValueAt year curveData = Ok v
            /\ p = {| cal_BP := year; c14_BP := lookup_c14_BP v;
                      error := lookup_error v |}).
Proof.
  induction fuel as [|fuel IH]; intros calBP l Hf E; simpl in E.
  - destruct (Qle_bool calBP endYear); [discriminate|].
    injection E as <-. split; [cbn [length]; lia|].
    intros i p Hp. destruct i; discriminate.
  - destruct (Qle_bool calBP endYear) eqn:Ele; qbool.
    + destruct (getCurveValueAt calBP curveData) as [v|e|] eqn:Ev;
        try discriminate.
      cbn [bind] in E.
      destruct (uniform_loop fuel curveData (calBP + 1) endYear)
        as [rest|e|] eqn:Er; try discriminate.
      cbn [bind] in E. injection E as <-.
      assert (Hfl : Qfloor (endYear - (calBP + 1))
                    = (Qfloor (endYear - calBP) - 1)%Z)
        by (apply Qfloor_minus_one; lra).
      assert (Hpos : (0 <= Qfloor (endYear - calBP))%Z).
      { change 0%Z with (Qfloor 0). apply Qfloor_resp_le. lra. }
      destruct (IH (calBP + 1) rest ltac:(lia) Er) as [Hlen Hnth].
      split.
      * cbn [length]. rewrite Nat2Z.inj_succ, Hlen, Hfl. lia.
      * intros i p Hp. destruct i as [|i]; simpl in Hp.
        -- injection Hp as <-. exists calBP, v.
           split; [simpl; unfold inject_Z; lra|]. tauto.
        -- destruct (Hnth i p Hp) as (year & w & Hy & Hrest).
           exists year, w. split; [|exact Hrest].
           rewrite Hy, Nat2Z.inj_succ. unfold Z.succ.
           rewrite inject_Z_plus. change (inject_Z 1) with 1. lra.
    + injection E as <-. split.
      * assert (Hx : endYear - calBP < inject_Z 0)
          by (change (inject_Z 0) with 0; lra).
        apply Qfloor_below in Hx. cbn [length]. lia.
      * intros i p Hp. destruct i; discriminate.
Qed.



(** ** findCalendarRangeByC14BP: what the returned range contains *)

Lemma findCalendarRangeByC14BP_value (curveData : list CurvePoint) (age u : Q) :
  0 <= u ->
  findCalendarRangeByC14BP curveData age u
  = Ok {| range_min := math_min (map cal_BP (searched_points curveData age u));
          range_max := math_max (map cal_BP (searched_points curveData age u)) |}.
Proof.
  intro Hu. unfold findCalendarRangeByC14BP.
  destruct curveData as [|p ps].
  - reflexivity.
  - rewrite (selectedCurvePoints_spec (p :: ps) age u ltac:(discriminate) Hu).
    reflexivity.
Qed.

Lemma searched_points_in (curveData : list CurvePoint) (age u : Q)
  (p : CurvePoint) :
  In p (searched_points curveData age u) -> In p curveData.
Proof.
  unfold searched_points, band_points.
  pose proof (js_sort_perm by_ascending_c14_BP curveData) as HP.
  destruct (_ || _); intro H.
  - apply (Permutation_in _ HP). exact H.
  - apply filter_In in H. apply (Permutation_in _ HP). tauto.
Qed.

Lemma in_band_iff (lo hi : Q) (p : CurvePoint) :
  in_band lo hi p = true <-> lo <= c14_BP p /\ c14_BP p <= hi.
Proof.
  unfold in_band. rewrite andb_true_iff, !Qle_bool_iff. tauto.
Qed.

Lemma band_points_iff (curveData : list CurvePoint) (age u : Q)
  (p : CurvePoint) :
  In p (band_points curveData age u)
  <-> In p curveData
      /\ age - 5 * u <= c14_BP p /\ c14_BP p <= age + 5 * u.
Proof.
  unfold band_points. rewrite filter_In, in_band_iff.
  pose proof (js_sort_perm by_ascending_c14_BP curveData) as HP.
  split; intros [H1 H2]; (split; [|exact H2]).
  - apply (Permutation_in _ HP). exact H1.
  - apply (Permutation_in _ (Permutation_sym HP)). exact H1.
Qed.

(** X3.  The range [findCalendarRangeByC14BP] returns contains the calendar
    age of every curve point whose radiocarbon age lies within five
    uncertainties of the given age, and each finite bound it returns is the
    calendar age of a curve point. *)
Theorem findCalendarRangeByC14BP_covers_band (curveData : list CurvePoint)
  (age u : Q) :
  0 <= u ->
  exists r,
    findCalendarRangeByC14BP curveData age u = Ok r
    /\ (forall p, In p curveData ->
          age - 5 * u <= c14_BP p -> c14_BP p <= age + 5 * u ->
          exists lo hi, range_min r = Fin lo /\ range_max r = Fin hi
                        /\ lo <= cal_BP p /\ cal_BP p <= hi)
    /\ (forall lo, range_min r = Fin lo ->
          exists p, In p curveData /\ cal_BP p = lo)
    /\ (forall hi, range_max r = Fin hi ->
          exists p, In p curveData /\ cal_BP p = hi).
Proof.
  intro Hu. eexists. split; [apply findCalendarRangeByC14BP_value, Hu|].
  cbn [range_min range_max].
  set (pts := searched_points curveData age u).
  assert (Hattained : forall m, In m (map cal_BP pts) ->
                                exists p, In p curveData /\ cal_BP p = m).
  { intros m Hm. apply in_map_iff in Hm. destruct Hm as (p & <- & Hp).
    exists p. split; [|reflexivity].
    apply (searched_points_in curveData age u). exact Hp. }
  split; [|split].
  - intros p Hp H1 H2.
    assert (Hb : In p (band_points curveData age u))
      by (apply band_points_iff; tauto).
    assert (Hpts : In p pts).
    { subst pts. rewrite searched_points_band; [exact Hb|].
      intro E. rewrite E in Hb. contradiction. }
    assert (Hne : map cal_BP pts <> []).
    { intro E. apply (in_map cal_BP) in Hpts. rewrite E in Hpts.
      contradiction. }
    destruct (math_min_least _ Hne) as (lo & Elo & _ & Hlo).
    destruct (math_max_greatest _ Hne) as (hi & Ehi & _ & Hhi).
    exists lo, hi. split; [exact Elo|]. split; [exact Ehi|].
    split; [apply Hlo|apply Hhi]; apply in_map; exact Hpts.
  - intros lo E. apply Hattained.
    destruct (map cal_BP pts) as [|v l] eqn:El; [discriminate E|].
    destruct (math_min_least (v :: l) ltac:(discriminate)) as (m & Em & Hin & _).
    rewrite Em in E. injection E as <-. exact Hin.
  - intros hi E. apply Hattained.
    destruct (map cal_BP pts) as [|v l] eqn:El; [discriminate E|].
    destruct (math_max_greatest (v :: l) ltac:(discriminate))
      as (m & Em & Hin & _).
    rewrite Em in E. injection E as <-. exact Hin.
Qed.

Lemma findCalendarRangeByC14BP_covers_band_witness :
  exists r,
    findCalendarRangeByC14BP testCurveData 300 10 = Ok r
    /\ exists lo hi, range_min r = Fin lo /\ range_max r = Fin hi
                     /\ lo <= 200 /\ 200 <= hi.
Proof.
  destruct (findCalendarRangeByC14BP_covers_band testCurveData 300 10
              ltac:(apply Qle_bool_iff; reflexivity)) as (r & Er & Hcov & _).
  exists r. split; [exact Er|].
  apply (Hcov (mkCurvePoint 200 300 15)).
  - simpl. tauto.
  - apply Qle_bool_iff. reflexivity.
  - apply Qle_bool_iff. reflexivity.
Defined.

Lemma forallb_exists_false {A : Type} (f : A -> bool) (l : list A) :
  forallb f l = false -> exists x, In x l /\ f x = false.
Proof.
  induction l as [|a l IH]; simpl; [discriminate|].
  destruct (f a) eqn:E; simpl.
  - intro H. destruct (IH H) as (x & Hx & Hf). exists x. tauto.
  - intros _. exists a. tauto.
Qed.

(** X4.  [findCalendarRangeByC14BP] returns the empty range
    [{min: Infinity, max: -Infinity}] exactly when the curve is empty, or
    when no curve point has its radiocarbon age in the band while some
    point lies below the band and some point lies above it. *)
Theorem findCalendarRangeByC14BP_empty_range (curveData : list CurvePoint)
  (age u : Q) :
  0 <= u ->
  findCalendarRangeByC14BP curveData age u
  = Ok {| range_min := PInf; range_max := NInf |}
  <-> curveData = []
      \/ ((forall p, In p curveData ->
             c14_BP p < age - 5 * u \/ age + 5 * u < c14_BP p)
          /\ (exists p, In p curveData /\ c14_BP p < age - 5 * u)
          /\ (exists p, In p curveData /\ age + 5 * u < c14_BP p)).
Proof.
  intro Hu. rewrite (findCalendarRangeByC14BP_value curveData age u Hu).
  pose proof (js_sort_perm by_ascending_c14_BP curveData) as HP.
  assert (Hempty : Ok {| range_min :=
                           math_min (map cal_BP (searched_points curveData age u));
                         range_max :=
                           math_max (map cal_BP (searched_points curveData age u)) |}
                   = Ok {| range_min := PInf; range_max := NInf |}
                   <-> searched_points curveData age u = []).
  { destruct (searched_points curveData age u) as [|q qs] eqn:E.
    - split; reflexivity.
    - split; [|discriminate]. intro H. exfalso.
      destruct (math_min_least (map cal_BP (q :: qs)) ltac:(discriminate))
        as (m & Em & _).
      congruence. }
  rewrite Hempty. clear Hempty.
  unfold searched_points.
  set (l := js_sort by_ascending_c14_BP curveData) in *.
  set (lo := age - 5 * u). set (hi := age + 5 * u).
  fold lo hi.
  destruct (forallb (fun p => Qlt_bool (c14_BP p) lo) l) eqn:Ea.
  { cbn [orb]. rewrite forallb_forall in Ea. split.
    - intro E. left. rewrite E in HP. apply Permutation_nil. exact HP.
    - intros [->|(_ & _ & (p & Hp & Hlt))]; [reflexivity|].
      apply (Permutation_in _ (Permutation_sym HP)) in Hp.
      specialize (Ea p Hp). cbv beta in Ea. qbool. subst lo hi. lra. }
  destruct (forallb (fun p => Qlt_bool hi (c14_BP p)) l) eqn:Eb.
  { cbn [orb]. rewrite forallb_forall in Eb. split.
    - intro E. left. rewrite E in HP. apply Permutation_nil. exact HP.
    - intros [->|(_ & (p & Hp & Hlt) & _)]; [reflexivity|].
      apply (Permutation_in _ (Permutation_sym HP)) in Hp.
      specialize (Eb p Hp). cbv beta in Eb. qbool. subst lo hi. lra. }
  cbn [orb].
  assert (Hna : exists p, In p curveData /\ lo <= c14_BP p).
  { destruct (forallb_exists_false _ _ Ea) as (p & Hp & Hf).
    exists p. split; [apply (Permutation_in _ HP), Hp|].
    cbv beta in Hf. qbool. exact Hf. }
  assert (Hnb : exists p, In p curveData /\ c14_BP p <= hi).
  { destruct (forallb_exists_false _ _ Eb) as (p & Hp & Hf).
    exists p. split; [apply (Permutation_in _ HP), Hp|].
    cbv beta in Hf. qbool. exact Hf. }
  split.
  - intro E. right.
    assert (Hout : forall p, In p curveData -> c14_BP p < lo \/ hi < c14_BP p).
    { intros p Hp.
      destruct (Qlt_le_dec (c14_BP p) lo) as [H|H]; [left; exact H|].
      destruct (Qlt_le_dec hi (c14_BP p)) as [H'|H']; [right; exact H'|].
      exfalso.
      assert (Hin : In p (band_points curveData age u))
        by (apply band_points_iff; tauto).
      rewrite E in Hin. contradiction. }
    split; [exact Hout|]. split.
    + destruct Hnb as (p & Hp & Hle). exists p. split; [exact Hp|].
      destruct (Hout p Hp); [assumption|lra].
    + destruct Hna as (p & Hp & Hle). exists p. split; [exact Hp|].
      destruct (Hout p Hp); [lra|assumption].
  - intros [->|(Hout & _)].
    + reflexivity.
    + destruct (band_points curveData age u) as [|q qs] eqn:E;
        [reflexivity|exfalso].
      assert (Hq : In q (band_points curveData age u))
        by (rewrite E; left; reflexivity).
      apply band_points_iff in Hq. destruct Hq as (Hq & H1 & H2).
      destruct (Hout q Hq); subst lo hi; lra.
Qed.

Lemma findCalendarRangeByC14BP_empty_range_witness :
  findCalendarRangeByC14BP gapCurve 150 1
  = Ok {| range_min := PInf; range_max := NInf |}.
Proof.
  apply (findCalendarRangeByC14BP_empty_range gapCurve 150 1).
  - apply Qle_bool_iff. reflexivity.
  - right. split; [|split].
    + intros p Hp. simpl in Hp.
      decompose [or] Hp; try contradiction; subst p; simpl;
        [left|right]; reflexivity.
    + exists (mkCurvePoint 0 100 10). split; [left; reflexivity|reflexivity].
    + exists (mkCurvePoint 1 200 10).
      split; [right; left; reflexivity|reflexivity].
Defined.

(** ** findHPD: shape of the interval list *)

Lemma contiguous_well_formed (rest : list ProbabilityPoint) :
  forall start prev,
    key_sorted pp_cal_BP (prev :: rest) ->
    pp_cal_BP start <= pp_cal_BP prev ->
    Forall (fun iv => ivl_min iv <= ivl_max iv)
           (contiguous_intervals start prev rest)
    /\ apart (contiguous_intervals start prev rest)
    /\ exists iv t, contiguous_intervals start prev rest = iv :: t
                    /\ ivl_min iv = pp_cal_BP start.
Proof.
  unfold key_sorted.
  induction rest as [|curr rest IH]; intros start prev Hs Hsp.
  - simpl. split; [repeat constructor; exact Hsp|].
    split; [tauto|]. eauto.
  - inversion Hs as [|? ? Hs' Hall]; subst.
    assert (Hpc : pp_cal_BP prev <= pp_cal_BP curr).
    { rewrite Forall_forall in Hall. apply Hall. left. reflexivity. }
    cbn [contiguous_intervals].
    destruct (Qlt_bool 1 (pp_cal_BP curr - pp_cal_BP prev)) eqn:E; qbool.
    + destruct (IH curr curr Hs' (Qle_refl _)) as (Hwf & Hap & iv & t & Eiv & Emin).
      split; [constructor; [exact Hsp|exact Hwf]|].
      split.
      * cbn [apart]. rewrite Eiv in *. split; [|exact Hap].
        rewrite Emin. exact E.
      * eauto.
    + apply (IH start curr Hs'). lra.
Qed.

(** X5.  For an array of points whose calendar ages and probabilities are
    finite numbers (no [NaN]), or an argument that is not an array, and for
    any finite number as confidence, the intervals [findHPD] returns are
    well formed: each has [min <= max], and they are listed in ascending
    order with a gap of more than one year between one interval's [max] and
    the next one's [min]. *)
Theorem findHPD_intervals_well_formed (probDist : DistributionArg) (conf : Q) :
  Forall (fun iv => ivl_min iv <= ivl_max iv) (snd (findHPD probDist conf))
  /\ apart (snd (findHPD probDist conf)).
Proof.
  destruct probDist as [v|[|p dist]]; try (split; [constructor|exact I]).
  cbn [findHPD snd]. unfold intervals_of.
  pose proof (js_sort_sorted by_ascending_cal_BP pp_cal_BP
                by_ascending_cal_BP_key
                (includedPoints (p :: dist) (effective_confidence conf))) as Hs.
  destruct (js_sort by_ascending_cal_BP _) as [|start rest].
  - split; [constructor|exact I].
  - destruct (contiguous_well_formed rest start start Hs (Qle_refl _))
      as (H1 & H2 & _).
    split; assumption.
Qed.

(** ** findHPD: the most probable point is always covered *)

Lemma findHPD_intervals (dist : list ProbabilityPoint) (conf : Q) :
  dist <> [] ->
  snd (findHPD (AnArray dist) conf)
  = intervals_of (includedPoints dist (effective_confidence conf)).
Proof.
  intro Hne. destruct dist; [congruence|reflexivity].
Qed.

Lemma includedPoints_incl (dist : list ProbabilityPoint) (c : Q) :
  incl (includedPoints dist c) dist.
Proof.
  unfold includedPoints. intros p Hp.
  destruct (collect_points_spec (js_sort by_descending_probability dist)
              (sum_probability dist * c) 0) as (k & _ & E & _).
  rewrite E in Hp. apply in_firstn in Hp.
  apply (Permutation_in _ (js_sort_perm by_descending_probability dist)).
  exact Hp.
Qed.

Lemma includedPoints_head (dist : list ProbabilityPoint) (c : Q) :
  dist <> [] ->
  exists m, js_index (js_sort by_descending_probability dist) 0 = Some m
            /\ In m (includedPoints dist c)
            /\ (forall p, In p dist -> probability p <= probability m).
Proof.
  intro Hne.
  destruct (js_sort_head by_descending_probability dist Hne) as [m Em].
  exists m. split; [exact Em|].
  pose proof (sortedByProb_descending dist) as Hd.
  pose proof (js_sort_perm by_descending_probability dist) as HP.
  unfold includedPoints.
  destruct (js_sort by_descending_probability dist) as [|m' rest];
    [discriminate Em|].
  cbn in Em. injection Em as ->.
  split; [left; reflexivity|].
  intros p Hp. apply (Permutation_in _ (Permutation_sym HP)) in Hp.
  destruct Hd as [Hm _]. destruct Hp as [<-|Hp]; [apply Qle_refl|].
  apply Hm, Hp.
Qed.

(** X6.  For a non-empty distribution and any confidence, [findHPD] returns
    at least one interval; every interval bound is the calendar age of a
    point of the distribution; and a point of greatest probability (the
    first one in the descending order) is covered by the intervals. *)
Theorem findHPD_covers_most_probable (dist : list ProbabilityPoint) (conf : Q) :
  dist <> [] ->
  let intervals := snd (findHPD (AnArray dist) conf) in
  intervals <> []
  /\ (forall iv, In iv intervals ->
        exists p q, In p dist /\ In q dist
                    /\ ivl_min iv = pp_cal_BP p /\ ivl_max iv = pp_cal_BP q)
  /\ (exists m,
        js_index (js_sort by_descending_probability dist) 0 = Some m
        /\ In m dist
        /\ (forall p, In p dist -> probability p <= probability m)
        /\ covered intervals m = true).
Proof.
  intros Hne intervals. subst intervals.
  rewrite (findHPD_intervals dist conf Hne).
  set (c := effective_confidence conf).
  destruct (includedPoints_head dist c Hne) as (m & Em & Hm & Hmax).
  pose proof (intervals_cover_included _ m Hm) as Hcov.
  split; [|split].
  - intro E. rewrite E in Hcov. discriminate Hcov.
  - intros iv Hiv.
    destruct (intervals_of_endpoints _ _ Hiv) as (p & q & Hp & Hq & E).
    exists p, q.
    split; [apply (includedPoints_incl dist c), Hp|].
    split; [apply (includedPoints_incl dist c), Hq|exact E].
  - exists m. split; [exact Em|].
    split; [apply (includedPoints_incl dist c), Hm|].
    split; [exact Hmax|exact Hcov].
Qed.

Lemma findHPD_covers_most_probable_witness :
  snd (findHPD (AnArray testProbDist) (6 # 10)) <> []
  /\ covered (snd (findHPD (AnArray testProbDist) (6 # 10)))
       (mkProbabilityPoint 102 (4 # 10)) = true.
Proof.
  pose proof (findHPD_covers_most_probable testProbDist (6 # 10)
                ltac:(discriminate)) as H.
  cbv zeta in H. destruct H as (H1 & _ & (m & Em & _ & _ & Hc)).
  split; [exact H1|].
  vm_compute in Em. injection Em as <-. exact Hc.
Defined.

(** ** findHPD: a higher confidence covers more *)

Lemma contiguous_bridge (rest : list ProbabilityPoint) :
  forall start prev,
    key_sorted pp_cal_BP (prev :: rest) ->
    pp_cal_BP start <= pp_cal_BP prev ->
    forall ya yb y,
      ya <= y -> y <= yb -> yb - ya <= 1 ->
      ((pp_cal_BP start <= ya /\ ya <= pp_cal_BP prev)
       \/ exists a, In a rest /\ pp_cal_BP a == ya) ->
      ((pp_cal_BP start <= yb /\ yb <= pp_cal_BP prev)
       \/ exists b, In b rest /\ pp_cal_BP b == yb) ->
      exists iv, In iv (contiguous_intervals start prev rest)
                 /\ ivl_min iv <= y /\ y <= ivl_max iv.
Proof.
  unfold key_sorted.
  induction rest as [|curr rest IH];
    intros start prev Hs Hsp ya yb y Hay Hyb Hgap Ha Hb.
  - simpl. eexists. split; [left; reflexivity|]. simpl.
    destruct Ha as [Ha|(a & [] & _)]. destruct Hb as [Hb|(b & [] & _)].
    lra.
  - inversion Hs as [|? ? Hs' Hall]; subst.
    rewrite Forall_forall in Hall.
    assert (Hpc : pp_cal_BP prev <= pp_cal_BP curr)
      by (apply Hall; left; reflexivity).
    assert (Hrest : forall a, In a rest -> pp_cal_BP curr <= pp_cal_BP a).
    { inversion Hs' as [|? ? _ Hall']; subst.
      rewrite Forall_forall in Hall'. exact Hall'. }
    assert (Hlater : forall v, (exists a, In a (curr :: rest)
                                          /\ pp_cal_BP a == v) ->
                               pp_cal_BP curr <= v).
    { intros v (a & [<-|Ha'] & Ev); [lra|].
      specialize (Hrest a Ha'). lra. }
    assert (Hnext : forall v, (exists a, In a (curr :: rest)
                                         /\ pp_cal_BP a == v) ->
              (pp_cal_BP curr <= v /\ v <= pp_cal_BP curr)
              \/ exists a, In a rest /\ pp_cal_BP a == v).
    { intros v (a & [<-|Ha'] & Ev); [left; lra|right; eauto]. }
    cbn [contiguous_intervals].
    destruct (Qlt_bool 1 (pp_cal_BP curr - pp_cal_BP prev)) eqn:E; qbool.
    + destruct Ha as [Ha|Ha], Hb as [Hb|Hb].
      * eexists. split; [left; reflexivity|]. simpl. lra.
      * apply Hlater in Hb. lra.
      * apply Hlater in Ha. lra.
      * destruct (IH curr curr Hs' (Qle_refl _) ya yb y Hay Hyb Hgap
                    (Hnext _ Ha) (Hnext _ Hb)) as (iv & Hiv & Hin).
        exists iv. split; [right; exact Hiv|exact Hin].
    + apply (IH start curr Hs' ltac:(lra) ya yb y Hay Hyb Hgap).
      * destruct Ha as [Ha|(a & [<-|Ha'] & Ev)];
          [left; lra|left; lra|right; eauto].
      * destruct Hb as [Hb|(b & [<-|Hb'] & Ev)];
          [left; lra|left; lra|right; eauto].
Qed.

Lemma bridged_covered (included : list ProbabilityPoint)
  (x : ProbabilityPoint) :
  bridged included (pp_cal_BP x) -> covered (intervals_of included) x = true.
Proof.
  intros (a & b & Ha & Hb & H1 & H2 & Hgap).
  apply covered_iff. unfold intervals_of.
  pose proof (js_sort_perm by_ascending_cal_BP included) as HP.
  pose proof (js_sort_sorted by_ascending_cal_BP pp_cal_BP
                by_ascending_cal_BP_key included) as Hs.
  apply (Permutation_in _ (Permutation_sym HP)) in Ha.
  apply (Permutation_in _ (Permutation_sym HP)) in Hb.
  destruct (js_sort by_ascending_cal_BP included) as [|start rest];
    [contradiction|].
  assert (Hloc : forall z, In z (start :: rest) ->
            (pp_cal_BP start <= pp_cal_BP z /\ pp_cal_BP z <= pp_cal_BP start)
            \/ exists c, In c rest /\ pp_cal_BP c == pp_cal_BP z).
  { intros z [<-|Hz]; [left; split; apply Qle_refl|right].
    exists z. split; [exact Hz|reflexivity]. }
  apply (contiguous_bridge rest start start Hs (Qle_refl _)
           (pp_cal_BP a) (pp_cal_BP b) (pp_cal_BP x) H1 H2 Hgap
           (Hloc a Ha) (Hloc b Hb)).
Qed.

(** The points kept at a lower confidence are kept at a higher one, and so
    is what lies between two of them that are at most a year apart. *)
Lemma covered_grows (dist : list ProbabilityPoint) (c1 c2 : Q) :
  dist <> [] -> nonnegative dist -> 0 < c1 -> c1 <= c2 -> c2 <= 1 ->
  forall x : ProbabilityPoint,
    covered (intervals_of (includedPoints dist c1)) x = true ->
    covered (intervals_of (includedPoints dist c2)) x = true.
Proof.
  intros Hne Hnn H0 H12 H1 x.
  destruct (includedPoints_prefix dist c1 Hne Hnn ltac:(lra) ltac:(lra))
    as (k1 & Hk1 & Hi1 & Hr1 & Hf1).
  destruct (includedPoints_prefix dist c2 Hne Hnn ltac:(lra) ltac:(lra))
    as (k2 & Hk2 & Hi2 & Hr2 & Hf2).
  assert (Hle : (k1 <= k2)%nat).
  { destruct (Nat.le_gt_cases k1 k2) as [Hle|Hgt]; [exact Hle|].
    exfalso. specialize (Hf1 k2 ltac:(lia)).
    pose proof (mass_nonneg dist Hnn) as Hm.
    pose proof (sum_probability_mass dist) as Hs.
    assert (sum_probability dist * c1 <= sum_probability dist * c2) by nra.
    lra. }
  destruct (firstn_le_app (js_sort by_descending_probability dist) k1 k2 Hle)
    as [l' El].
  intro Hc. apply bridged_covered.
  apply covered_bridged in Hc.
  destruct Hc as (a & b & Ha & Hb & Hab).
  exists a, b. rewrite Hi2, El. rewrite Hi1 in Ha, Hb.
  split; [apply in_or_app; left; exact Ha|].
  split; [apply in_or_app; left; exact Hb|exact Hab].
Qed.

(** X7.  For a distribution without negative probabilities and confidences
    [c1 <= c2] in (0, 1], every calendar age covered by the intervals of
    [findHPD(dist, c1)] is covered by the intervals of [findHPD(dist, c2)]. *)
Theorem findHPD_nested (dist : list ProbabilityPoint) (c1 c2 : Q) :
  nonnegative dist -> 0 < c1 -> c1 <= c2 -> c2 <= 1 ->
  forall x : ProbabilityPoint,
    covered (snd (findHPD (AnArray dist) c1)) x = true ->
    covered (snd (findHPD (AnArray dist) c2)) x = true.
Proof.
  intros Hnn H0 H12 H1 x.
  destruct dist as [|p0 dist0] eqn:Ed; [simpl; congruence|].
  rewrite <- Ed in *.
  assert (Hne : dist <> []) by (rewrite Ed; discriminate).
  rewrite (findHPD_valid dist c1 Hne H0 ltac:(lra)).
  rewrite (findHPD_valid dist c2 Hne ltac:(lra) H1).
  cbn [snd]. apply covered_grows; assumption.
Qed.

Lemma findHPD_nested_witness :
  covered (snd (findHPD (AnArray testProbDist) 1))
    (mkProbabilityPoint 101 0) = true.
Proof.
  apply (findHPD_nested testProbDist (6 # 10) 1).
  - intros p Hp. simpl in Hp.
    decompose [or] Hp; try contradiction; subst p;
      apply Qle_bool_iff; reflexivity.
  - reflexivity.
  - apply Qle_bool_iff. reflexivity.
  - apply Qle_bool_iff. reflexivity.
  - reflexivity.
Defined.

(** ** Sorting: what comes first, and sorted input *)

Section SortingMore.

Context {A : Type}.
Variable cmp : A -> A -> Q.
Variable key : A -> Q.
Hypothesis cmp_key : forall a b, cmp a b < 0 <-> key a < key b.

(** The head of the sorted array is the first element of least key. *)
Lemma fold_insert_first_least (l : list A) :
  forall (h : A) (t : list A),
  exists m rest l1 l2,
    fold_left (fun acc x => sort_insert cmp x acc) l (h :: t) = m :: rest
    /\ h :: l = l1 ++ m :: l2
    /\ (forall x, In x l1 -> key m < key x)
    /\ (forall x, In x l2 -> key m <= key x).
Proof.
  induction l as [|x l IH]; intros h t.
  - exists h, t, [], []. simpl. repeat split; try tauto.
  - cbn [fold_left sort_insert].
    destruct (Qlt_bool (cmp x h) 0) eqn:E; qbool.
    + apply cmp_key in E.
      destruct (IH x (h :: t)) as (m & rest & l1 & l2 & Ef & El & H1 & H2).
      exists m, rest, (h :: l1), l2.
      split; [exact Ef|]. split; [simpl; rewrite El; reflexivity|].
      split; [|exact H2].
      intros y [<-|Hy]; [|apply H1, Hy].
      destruct l1 as [|a l1].
      * simpl in El. injection El as ->. exact E.
      * simpl in El. injection El as <- _.
        specialize (H1 x (or_introl eq_refl)). lra.
    + assert (Hhx : key h <= key x).
      { apply Qnot_lt_le. intro Hlt. apply cmp_key in Hlt. lra. }
      destruct (IH h (sort_insert cmp x t))
        as (m & rest & l1 & l2 & Ef & El & H1 & H2).
      destruct l1 as [|a l1].
      * simpl in El. injection El as <- <-.
        exists h, rest, [], (x :: l).
        split; [exact Ef|]. split; [reflexivity|].
        split; [intros y []|].
        intros y [<-|Hy]; [exact Hhx|apply H2, Hy].
      * simpl in El. injection El as <- El.
        exists m, rest, (h :: x :: l1), l2.
        split; [exact Ef|]. split; [simpl; rewrite El; reflexivity|].
        split; [|exact H2].
        pose proof (H1 h (or_introl eq_refl)) as Hmh.
        intros y [<-|[<-|Hy]]; [exact Hmh|lra|].
        apply H1. right. exact Hy.
Qed.

Lemma js_sort_first_least (l : list A) (m : A) :
  js_index (js_sort cmp l) 0 = Some m ->
  exists l1 l2,
    l = l1 ++ m :: l2
    /\ (forall x, In x l1 -> key m < key x)
    /\ (forall x, In x l2 -> key m <= key x).
Proof.
  destruct l as [|h l]; [discriminate|].
  unfold js_sort. cbn [fold_left sort_insert].
  destruct (fold_insert_first_least l h [])
    as (m' & rest & l1 & l2 & Ef & El & H1 & H2).
  rewrite Ef. cbn. intro E. injection E as <-. eauto.
Qed.

(** Sorting an array that is already in order changes nothing. *)
Lemma sort_insert_last (x : A) (acc : list A) :
  (forall y, In y acc -> key y <= key x) ->
  sort_insert cmp x acc = acc ++ [x].
Proof.
  induction acc as [|y acc IH]; intro H; simpl.
  - reflexivity.
  - assert (Hy : Qlt_bool (cmp x y) 0 = false).
    { apply Qlt_bool_false. apply Qnot_lt_le. intro Hlt.
      apply cmp_key in Hlt. specialize (H y (or_introl eq_refl)). lra. }
    rewrite Hy. f_equal. apply IH. intros z Hz. apply H. right. exact Hz.
Qed.

Lemma fold_insert_sorted_id (l acc : list A) :
  key_sorted key (acc ++ l) ->
  fold_left (fun acc x => sort_insert cmp x acc) l acc = acc ++ l.
Proof.
  revert acc. induction l as [|x l IH]; intros acc Hs; simpl.
  - rewrite app_nil_r. reflexivity.
  - rewrite sort_insert_last.
    + rewrite IH; rewrite <- app_assoc; [reflexivity|exact Hs].
    + intros y Hy. unfold key_sorted in Hs.
      clear IH. induction acc as [|a acc IHa]; [contradiction|].
      simpl in Hs. inversion Hs as [|? ? Hs' Hall]; subst.
      destruct Hy as [<-|Hy].
      * rewrite Forall_forall in Hall. apply Hall.
        apply in_or_app. right. left. reflexivity.
      * apply IHa; assumption.
Qed.

Lemma js_sort_sorted_id (l : list A) :
  key_sorted key l -> js_sort cmp l = l.
Proof. intro H. unfold js_sort. apply (fold_insert_sorted_id l []). exact H. Qed.

End SortingMore.

(** ** calibrateDate: what a returned result contains *)

Lemma sorted_by_index {A : Type} (key : A -> Q) (l : list A) :
  (forall (i j : nat) a b, (i < j)%nat ->
     nth_error l i = Some a -> nth_error l j = Some b -> key a <= key b) ->
  key_sorted key l.
Proof.
  unfold key_sorted. induction l as [|x l IH]; intro H.
  - constructor.
  - constructor.
    + apply IH. intros i j a b Hij Ha Hb.
      apply (H (S i) (S j) a b); [lia|exact Ha|exact Hb].
    + apply Forall_forall. intros y Hy.
      apply In_nth_error in Hy. destruct Hy as [n Hn].
      apply (H 0%nat (S n) x y); [lia|reflexivity|exact Hn].
Qed.

Section Returned.

Variable calculateProbability : Q -> Q -> Q -> Q -> Q.
Variable loader : DataLoader.

(** A returned result, taken apart: the normalised distribution it was built
    from and the way each field is read off it. *)
Lemma calibrateDate_inv
  (c14_age uncertainty_ reservoir curveType mode : JsPrim)
  (w : list Warning) (r : CalibrationResult) :
  calibrateDate calculateProbability loader
    c14_age uncertainty_ reservoir curveType mode = (w, Ok r) ->
  exists (age u rc : Q) (m : JsPrim) (curveData : list CurvePoint)
         (dist : list ProbabilityPoint) (mp : ProbabilityPoint),
    0 < u
    /\ normalizedDistribution calculateProbability curveData (age - rc) u m
       = Ok dist
    /\ js_index (js_sort by_descending_probability dist) 0 = Some mp
    /\ calibrated_years_BP r = pp_cal_BP mp
    /\ calendar_year r = 1950 - pp_cal_BP mp
    /\ hpd68_ranges r = snd (findHPD (AnArray dist) (682 # 1000))
    /\ hpd95_ranges r = snd (findHPD (AnArray dist) (954 # 1000))
    /\ range_1sigma r
       = {| range_min := math_min (map ivl_min (hpd68_ranges r));
            range_max := math_max (map ivl_max (hpd68_ranges r)) |}
    /\ range_2sigma r
       = {| range_min := math_min (map ivl_min (hpd95_ranges r));
            range_max := math_max (map ivl_max (hpd95_ranges r)) |}
    /\ distribution r = js_sort by_ascending_x (map chart_point dist).
Proof.
  intro E. unfold calibrateDate in E.
  destruct (valid_c14_age c14_age) as [age|]; [|discriminate].
  destruct (valid_uncertainty uncertainty_) as [u|] eqn:Eu; [|discriminate].
  apply valid_uncertainty_positive in Eu.
  destruct (valid_reservoir_correction _) as [rc|]; [|discriminate].
  destruct (resolve_curve_type _) as [w0 ct].
  destruct (loaded_curves loader) as [curves|e|]; try discriminate.
  destruct (curve_lookup curves ct) as [[v|[|p ps]]|]; try discriminate.
  unfold calibrate in E.
  destruct (normalizedDistribution calculateProbability (p :: ps) (age - rc) u
              (default_param (JsString C14_BP_MODE) mode))
    as [dist|e|] eqn:En; try discriminate.
  destruct (findHPD (AnArray dist) (682 # 1000)) as [w68 hpd68] eqn:E68.
  destruct (findHPD (AnArray dist) (954 # 1000)) as [w95 hpd95] eqn:E95.
  destruct (js_index (js_sort by_descending_probability dist) 0)
    as [mp|] eqn:Em; cbn [deref bind] in E; [|discriminate].
  injection E as _ <-.
  exists age, u, rc, (default_param (JsString C14_BP_MODE) mode), (p :: ps),
         dist, mp.
  split; [exact Eu|]. split; [exact En|]. split; [exact Em|].
  rewrite E68, E95. cbn. repeat split.
Qed.

(** The normalised distribution runs through consecutive calendar years. *)
Lemma normalizedDistribution_years (curveData : list CurvePoint)
  (age u : Q) (m : JsPrim) (dist : list ProbabilityPoint) :
  normalizedDistribution calculateProbability curveData age u m = Ok dist ->
  forall (i j : nat) p q,
    nth_error dist i = Some p -> nth_error dist j = Some q ->
    pp_cal_BP p - pp_cal_BP q
    == inject_Z (Z.of_nat i) - inject_Z (Z.of_nat j).
Proof.
  intros E i j p q Hi Hj. unfold normalizedDistribution in E.
  destruct (calendarBounds curveData age u m) as [b|e|]; try discriminate.
  cbn [bind] in E.
  destruct (createUniformDistribution curveData (fst b) (snd b))
    as [uniformCurve|e|] eqn:Ec; try discriminate.
  cbn [bind] in E. injection E as E.
  rewrite map_map in E. cbn [pp_cal_BP probability] in E.
  rewrite <- E in Hi, Hj. rewrite nth_error_map in Hi, Hj.
  destruct (nth_error uniformCurve i) as [pi|] eqn:Ei; [|discriminate].
  destruct (nth_error uniformCurve j) as [pj|] eqn:Ej; [|discriminate].
  cbn [option_map] in Hi, Hj. injection Hi as <-. injection Hj as <-.
  cbn [pp_cal_BP].
  apply (createUniformDistribution_years _ _ _ Ec i j pi pj Ei Ej).
Qed.

(** The chart of a result is the normalised distribution in its own order:
    the final sort by calendar age finds it sorted. *)
Lemma distribution_unsorted (curveData : list CurvePoint)
  (age u : Q) (m : JsPrim) (dist : list ProbabilityPoint) :
  normalizedDistribution calculateProbability curveData age u m = Ok dist ->
  js_sort by_ascending_x (map chart_point dist) = map chart_point dist.
Proof.
  intro E. apply (js_sort_sorted_id by_ascending_x chart_x).
  - intros a b. unfold by_ascending_x. split; intro H; lra.
  - apply sorted_by_index. intros i j a b Hij Ha Hb.
    rewrite nth_error_map in Ha, Hb.
    destruct (nth_error dist i) as [p|] eqn:Ei; [|discriminate].
    destruct (nth_error dist j) as [q|] eqn:Ej; [|discriminate].
    cbn [option_map] in Ha, Hb. injection Ha as <-. injection Hb as <-.
    cbn [chart_point chart_x].
    pose proof (normalizedDistribution_years _ _ _ _ _ E i j p q Ei Ej) as Hy.
    assert (inject_Z (Z.of_nat i) <= inject_Z (Z.of_nat j))
      by (rewrite <- Zle_Qle; lia).
    lra.
Qed.

(** X8.  In a returned result whose charted probabilities add up to a
    positive number (they do not when every density has underflowed to 0)
    [calibrated_years_BP] is the calendar age of a charted point of
    greatest probability, the earliest such age when several points share
    that probability, and [calendar_year] is 1950 minus it. *)
Theorem calibrateDate_mode
  (c14_age uncertainty_ reservoir curveType mode : JsPrim)
  (w : list Warning) (r : CalibrationResult) :
  calibrateDate calculateProbability loader
    c14_age uncertainty_ reservoir curveType mode = (w, Ok r) ->
  0 < sum_y (distribution r) ->
  calendar_year r = 1950 - calibrated_years_BP r
  /\ exists top : ChartPoint,
       In top (distribution r)
       /\ chart_x top = calibrated_years_BP r
       /\ forall pt : ChartPoint, In pt (distribution r) ->
            chart_y pt <= chart_y top
            /\ (chart_y pt == chart_y top -> chart_x top <= chart_x pt).
Proof.
  intros E _. apply calibrateDate_inv in E.
  destruct E as (age & u & rc & m & curveData & dist & mp & Hu & En & Em
                 & Hbp & Hcy & _ & _ & _ & _ & Hd).
  split; [rewrite Hcy, Hbp; reflexivity|].
  rewrite Hd, (distribution_unsorted _ _ _ _ _ En).
  destruct (js_sort_first_least by_descending_probability
              (fun p => - probability p)
              ltac:(intros a b; unfold by_descending_probability;
                    split; intro H; lra)
              dist mp Em) as (l1 & l2 & El & H1 & H2).
  exists (chart_point mp). split; [|split].
  - apply in_map. rewrite El. apply in_or_app. right. left. reflexivity.
  - rewrite Hbp. reflexivity.
  - intros pt Hpt. apply in_map_iff in Hpt. destruct Hpt as (p & <- & Hp).
    cbn [chart_point chart_x chart_y].
    assert (Hmi : nth_error dist (length l1) = Some mp).
    { rewrite El, nth_error_app2 by lia. rewrite Nat.sub_diag. reflexivity. }
    rewrite El in Hp. apply in_app_or in Hp.
    destruct Hp as [Hp|[<-|Hp]].
    + specialize (H1 p Hp). cbv beta in H1. split; [lra|]. intro Heq. lra.
    + split; [lra|]. intros _. lra.
    + pose proof (H2 p Hp) as Hle. cbv beta in Hle. split; [lra|]. intros _.
      apply In_nth_error in Hp. destruct Hp as [k Hk].
      assert (Hpi : nth_error dist (length l1 + S k) = Some p).
      { rewrite El, nth_error_app2 by lia.
        replace (length l1 + S k - length l1)%nat with (S k) by lia.
        exact Hk. }
      pose proof (normalizedDistribution_years _ _ _ _ _ En _ _ _ _ Hpi Hmi)
        as Hy.
      assert (inject_Z (Z.of_nat (length l1))
              <= inject_Z (Z.of_nat (length l1 + S k)))
        by (rewrite <- Zle_Qle; lia).
      lra.
Qed.

End Returned.

Lemma calibrateDate_mode_witness :
  exists w r,
    sampleCall 100 = (w, Ok r)
    /\ 0 < sum_y (distribution r)
    /\ calendar_year r = 1950 - calibrated_years_BP r.
Proof.
  destruct (sampleCall 100) as [w [r|e|]] eqn:E;
    [|vm_compute in E; discriminate|vm_compute in E; discriminate].
  assert (Hs : 0 < sum_y (distribution r)).
  { pose proof E as E'. vm_compute in E'. injection E' as _ <-.
    vm_compute. reflexivity. }
  exists w, r. split; [reflexivity|]. split; [exact Hs|].
  exact (proj1 (calibrateDate_mode _ _ _ _ _ _ _ _ _ E Hs)).
Defined.

Lemma covered_bounds (ivs : list Interval) (p : ProbabilityPoint) :
  covered ivs p = true ->
  exists lo hi,
    math_min (map ivl_min ivs) = Fin lo /\ math_max (map ivl_max ivs) = Fin hi
    /\ lo <= pp_cal_BP p /\ pp_cal_BP p <= hi.
Proof.
  intro H. apply covered_iff in H. destruct H as (iv & Hiv & Hlo & Hhi).
  assert (Hne : ivs <> []) by (intro E; rewrite E in Hiv; exact Hiv).
  destruct (math_min_least (map ivl_min ivs)) as (lo & Elo & _ & Hleast).
  { intro E. apply map_eq_nil in E. contradiction. }
  destruct (math_max_greatest (map ivl_max ivs)) as (hi & Ehi & _ & Hgreat).
  { intro E. apply map_eq_nil in E. contradiction. }
  exists lo, hi. split; [exact Elo|]. split; [exact Ehi|].
  specialize (Hleast (ivl_min iv) (in_map _ _ _ Hiv)).
  specialize (Hgreat (ivl_max iv) (in_map _ _ _ Hiv)).
  split; lra.
Qed.

(** In the exact model a higher target keeps at least as many points. *)
Lemma included_grows (dist : list ProbabilityPoint) (c1 c2 : Q) :
  dist <> [] ->
  sum_probability dist * c1 <= sum_probability dist * c2 ->
  exists k1 k2 : nat,
    (k1 <= k2)%nat
    /\ includedPoints dist c1
       = firstn k1 (js_sort by_descending_probability dist)
    /\ includedPoints dist c2
       = firstn k2 (js_sort by_descending_probability dist).
Proof.
  intros Hne Ht.
  pose proof (js_sort_perm by_descending_probability dist) as HP.
  assert (Hne' : js_sort by_descending_probability dist <> []).
  { intro E. rewrite E in HP. apply Permutation_nil in HP. congruence. }
  destruct (rounded_prefix_grows Qplus _ _ _ Hne' Ht)
    as (k1 & k2 & Hk & E1 & E2).
  rewrite collect_points_exact_operations in E1, E2.
  exists k1, k2. split; [exact Hk|]. split; assumption.
Qed.

Lemma covered_prefix_grows (l : list ProbabilityPoint) (k1 k2 : nat) :
  (k1 <= k2)%nat ->
  forall x : ProbabilityPoint,
    covered (intervals_of (firstn k1 l)) x = true ->
    covered (intervals_of (firstn k2 l)) x = true.
Proof.
  intros Hle x Hc.
  destruct (firstn_le_app l k1 k2 Hle) as [l' El].
  apply bridged_covered. apply covered_bridged in Hc.
  destruct Hc as (a & b & Ha & Hb & Hab).
  exists a, b. rewrite El.
  split; [apply in_or_app; left; exact Ha|].
  split; [apply in_or_app; left; exact Hb|exact Hab].
Qed.

(** In the exact model, whatever the probabilities: a point the intervals
    leave out is no more probable than a point they cover. *)
Lemma density_order (dist : list ProbabilityPoint) (c : Q) :
  dist <> [] -> yearly dist ->
  let intervals := intervals_of (includedPoints dist c) in
  forall p q, In p dist -> In q dist ->
    covered intervals p = true -> covered intervals q = false ->
    probability q <= probability p.
Proof.
  intros Hne Hy intervals p q Hp Hq Hcp Hcq.
  pose proof (js_sort_perm by_descending_probability dist) as HP.
  pose proof (sortedByProb_descending dist) as Hd.
  destruct (rounded_includedPoints_prefix Qplus Qmult dist c Hne)
    as (k & Hk & Hinc & _ & _).
  rewrite includedPoints_exact_operations in Hinc.
  set (sortedByProb := js_sort by_descending_probability dist) in *.
  assert (Hincl : incl (includedPoints dist c) dist).
  { intros x Hx. rewrite Hinc in Hx. apply in_firstn in Hx.
    apply (Permutation_in _ HP). exact Hx. }
  apply (descending_split sortedByProb k Hd).
  - rewrite <- Hinc. apply (bridged_yearly dist _ p Hy Hincl Hp).
    apply covered_bridged. exact Hcp.
  - apply (Permutation_in _ (Permutation_sym HP)) in Hq.
    rewrite <- (firstn_skipn k sortedByProb) in Hq.
    apply in_app_or in Hq. destruct Hq as [Hq|Hq]; [|exact Hq].
    exfalso. rewrite <- Hinc in Hq.
    assert (covered intervals q = true)
      by (apply intervals_cover_included; exact Hq).
    congruence.
Qed.

Lemma Qsquare_nonneg (d : Q) : 0 <= d * d.
Proof.
  destruct d as [n p]. unfold Qle, Qmult. simpl. nia.
Qed.

Lemma rationalDensity_nonnegative : nonnegative_density rationalDensity.
Proof.
  intros a e c ce He. unfold rationalDensity.
  assert (H : 0 < 1 + (a - c) * (a - c)).
  { pose proof (Qsquare_nonneg (a - c)). lra. }
  unfold Qdiv. rewrite Qmult_1_l. apply Qlt_le_weak.
  apply Qinv_lt_0_compat. exact H.
Qed.

Section Ranges.

Variable calculateProbability : Q -> Q -> Q -> Q -> Q.
Variable loader : DataLoader.

(** X9.  In a returned result both sigma ranges are finite, the one-sigma
    range lies inside the two-sigma range, the most probable calendar age
    lies inside the one-sigma range, and every calendar age covered by a
    68.2% interval is covered by a 95.4% interval. *)
Theorem calibrateDate_ranges_nested
  (c14_age uncertainty_ reservoir curveType mode : JsPrim)
  (w : list Warning) (r : CalibrationResult) :
  calibrateDate calculateProbability loader
    c14_age uncertainty_ reservoir curveType mode = (w, Ok r) ->
  (exists lo1 hi1 lo2 hi2 : Q,
     range_1sigma r = {| range_min := Fin lo1; range_max := Fin hi1 |}
     /\ range_2sigma r = {| range_min := Fin lo2; range_max := Fin hi2 |}
     /\ lo2 <= lo1 /\ lo1 <= calibrated_years_BP r
     /\ calibrated_years_BP r <= hi1 /\ hi1 <= hi2)
  /\ forall x : ProbabilityPoint,
       covered (hpd68_ranges r) x = true -> covered (hpd95_ranges r) x = true.
Proof.
  intro E. apply calibrateDate_inv in E.
  destruct E as (age & u & rc & m & curveData & dist & mp & Hu & En & Em
                 & Hbp & _ & H68 & H95 & H1s & H2s & _).
  assert (Hne : dist <> []) by (intro E0; rewrite E0 in Em; discriminate).
  assert (Htot : 0 <= sum_probability dist).
  { rewrite sum_probability_mass.
    destruct (normalizedDistribution_total _ _ _ _ _ _ En) as [Ez|Eo];
      [rewrite Ez|rewrite Eo]; apply Qle_bool_iff; reflexivity. }
  assert (Hnest : forall x, covered (hpd68_ranges r) x = true ->
                            covered (hpd95_ranges r) x = true).
  { rewrite H68, H95.
    rewrite (findHPD_valid dist (682 # 1000) Hne ltac:(reflexivity)
               ltac:(apply Qle_bool_iff; reflexivity)).
    rewrite (findHPD_valid dist (954 # 1000) Hne ltac:(reflexivity)
               ltac:(apply Qle_bool_iff; reflexivity)).
    cbn [snd].
    destruct (included_grows dist (682 # 1000) (954 # 1000) Hne)
      as (k1 & k2 & Hk & E1 & E2).
    { rewrite !(Qmult_comm (sum_probability dist)).
      apply Qmult_le_compat_r; [apply Qle_bool_iff; reflexivity|exact Htot]. }
    rewrite E1, E2. apply covered_prefix_grows. exact Hk. }
  split; [|exact Hnest].
  assert (Hmode : covered (hpd68_ranges r) mp = true).
  { rewrite H68, findHPD_intervals by exact Hne.
    apply intervals_cover_included.
    destruct (includedPoints_head dist (effective_confidence (682 # 1000)) Hne)
      as (m' & Em' & Hin & _).
    rewrite Em in Em'. injection Em' as <-. exact Hin. }
  destruct (covered_bounds _ _ Hmode) as (lo1 & hi1 & Elo1 & Ehi1 & Hl1 & Hh1).
  destruct (covered_bounds _ _ (Hnest _ Hmode))
    as (lo2 & hi2 & Elo2 & Ehi2 & _ & _).
  exists lo1, hi1, lo2, hi2.
  split; [rewrite H1s, Elo1, Ehi1; reflexivity|].
  split; [rewrite H2s, Elo2, Ehi2; reflexivity|].
  rewrite Hbp.
  (* the ends of the one-sigma range are covered at 68.2%, hence at 95.4% *)
  assert (Hends : forall iv, In iv (hpd68_ranges r) ->
            lo2 <= ivl_min iv /\ ivl_max iv <= hi2).
  { intros iv Hiv. pose proof Hiv as Hiv'.
    rewrite H68, findHPD_intervals in Hiv' by exact Hne.
    apply intervals_of_endpoints in Hiv'.
    destruct Hiv' as (p & q & Hp & Hq & Ep & Eq).
    assert (Hcp : covered (hpd68_ranges r) p = true)
      by (rewrite H68, findHPD_intervals by exact Hne;
          apply intervals_cover_included, Hp).
    assert (Hcq : covered (hpd68_ranges r) q = true)
      by (rewrite H68, findHPD_intervals by exact Hne;
          apply intervals_cover_included, Hq).
    destruct (covered_bounds _ _ (Hnest _ Hcp)) as (a & b & Ea & Eb & Ha & _).
    destruct (covered_bounds _ _ (Hnest _ Hcq)) as (a' & b' & Ea' & Eb' & _ & Hb).
    rewrite Elo2 in Ea, Ea'. rewrite Ehi2 in Eb, Eb'.
    injection Ea as <-. injection Eb' as <-.
    rewrite Ep, Eq. split; assumption. }
  destruct (math_min_least (map ivl_min (hpd68_ranges r)))
    as (lo & Elo & Hlo & _).
  { intro E0. apply map_eq_nil in E0. rewrite E0 in Hmode. discriminate. }
  destruct (math_max_greatest (map ivl_max (hpd68_ranges r)))
    as (hi & Ehi & Hhi & _).
  { intro E0. apply map_eq_nil in E0. rewrite E0 in Hmode. discriminate. }
  rewrite Elo1 in Elo. injection Elo as <-.
  rewrite Ehi1 in Ehi. injection Ehi as <-.
  apply in_map_iff in Hlo. destruct Hlo as (iv1 & <- & Hiv1).
  apply in_map_iff in Hhi. destruct Hhi as (iv2 & <- & Hiv2).
  split; [apply (Hends iv1 Hiv1)|].
  split; [exact Hl1|]. split; [exact Hh1|apply (Hends iv2 Hiv2)].
Qed.

(** X10.  The chart of a returned result is non-empty and steps through
    calendar ages one year at a time in ascending order; with a density
    that is never negative, and charted probabilities that add up to a
    positive number, no charted probability is negative. *)
Theorem calibrateDate_distribution_yearly
  (c14_age uncertainty_ reservoir curveType mode : JsPrim)
  (w : list Warning) (r : CalibrationResult) :
  calibrateDate calculateProbability loader
    c14_age uncertainty_ reservoir curveType mode = (w, Ok r) ->
  distribution r <> []
  /\ (forall (i : nat) (a b : ChartPoint),
        nth_error (distribution r) i = Some a ->
        nth_error (distribution r) (S i) = Some b ->
        chart_x b == chart_x a + 1)
  /\ (nonnegative_density calculateProbability ->
      0 < sum_y (distribution r) ->
      Forall (fun pt => 0 <= chart_y pt) (distribution r)).
Proof.
  intro E. apply calibrateDate_inv in E.
  destruct E as (age & u & rc & m & curveData & dist & mp & Hu & En & Em
                 & _ & _ & _ & _ & _ & _ & Hd).
  rewrite Hd, (distribution_unsorted _ _ _ _ _ _ En).
  split; [|split].
  - intro E0. apply map_eq_nil in E0. rewrite E0 in Em. discriminate.
  - intros i a b Ha Hb. rewrite nth_error_map in Ha, Hb.
    destruct (nth_error dist i) as [p|] eqn:Ei; [|discriminate].
    destruct (nth_error dist (S i)) as [q|] eqn:Ej; [|discriminate].
    cbn [option_map] in Ha, Hb. injection Ha as <-. injection Hb as <-.
    cbn [chart_point chart_x].
    pose proof (normalizedDistribution_years _ _ _ _ _ _ En _ _ _ _ Ej Ei)
      as Hy.
    rewrite Nat2Z.inj_succ in Hy. unfold Z.succ in Hy.
    rewrite inject_Z_plus in Hy. change (inject_Z 1) with 1 in Hy. lra.
  - intros Hdens _. apply Forall_forall. intros pt Hpt.
    apply in_map_iff in Hpt.
    destruct Hpt as (p & <- & Hp). cbn [chart_point chart_y].
    apply (normalizedDistribution_nonnegative _ _ _ _ _ _ Hdens Hu En).
    exact Hp.
Qed.

End Ranges.

Lemma calibrateDate_ranges_nested_witness :
  exists w r,
    sampleCall 100 = (w, Ok r)
    /\ forall x : ProbabilityPoint,
         covered (hpd68_ranges r) x = true -> covered (hpd95_ranges r) x = true.
Proof.
  destruct (sampleCall 100) as [w [r|e|]] eqn:E;
    [|vm_compute in E; discriminate|vm_compute in E; discriminate].
  exists w, r. split; [reflexivity|].
  exact (proj2 (calibrateDate_ranges_nested rationalDensity
                  (testLoader gapCurve) _ _ _ _ _ _ _ E)).
Defined.

Lemma calibrateDate_distribution_yearly_witness :
  exists w r,
    sampleCall 100 = (w, Ok r)
    /\ Forall (fun pt => 0 <= chart_y pt) (distribution r).
Proof.
  destruct (sampleCall 100) as [w [r|e|]] eqn:E;
    [|vm_compute in E; discriminate|vm_compute in E; discriminate].
  assert (Hs : 0 < sum_y (distribution r)).
  { pose proof E as E'. vm_compute in E'. injection E' as _ <-.
    vm_compute. reflexivity. }
  exists w, r. split; [reflexivity|].
  exact (proj2 (proj2 (calibrateDate_distribution_yearly rationalDensity
                         (testLoader gapCurve) _ _ _ _ _ _ _ E))
           rationalDensity_nonnegative Hs).
Defined.

(** ** calibrateDate: an unknown curve type *)

(** X11.  A curve type that is given but is not one of the three known
    names changes nothing but the log: the call returns exactly what the
    same call with ["IntCal20"] returns, with one warning about the curve
    type put first when the three argument checks pass, and with no warning
    when one of them throws. *)
Theorem calibrateDate_unknown_curve_type
  (calculateProbability : Q -> Q -> Q -> Q -> Q) (loader : DataLoader)
  (c14_age uncertainty_ reservoir curveType mode : JsPrim) :
  curveType <> JsUndefined ->
  known_curve_type curveType = None ->
  let o := calibrateDate calculateProbability loader
             c14_age uncertainty_ reservoir (JsString INTCAL20) mode in
  calibrateDate calculateProbability loader
    c14_age uncertainty_ reservoir curveType mode
  = (if arguments_accepted c14_age uncertainty_ reservoir
     then WarnInvalidCurveType curveType :: fst o else fst o,
     snd o).
Proof.
  intros Hdef Hunknown o. subst o.
  unfold calibrateDate, arguments_accepted.
  assert (Ed : default_param (JsString INTCAL20) curveType = curveType)
    by (destruct curveType; try reflexivity; congruence).
  rewrite Ed.
  destruct (valid_c14_age c14_age) as [age|]; [|reflexivity].
  destruct (valid_uncertainty uncertainty_) as [u|]; [|reflexivity].
  destruct (valid_reservoir_correction _) as [rc|]; [|reflexivity].
  unfold resolve_curve_type. rewrite Hunknown.
  change (known_curve_type (default_param (JsString INTCAL20)
                              (JsString INTCAL20)))
    with (Some INTCAL20).
  cbv iota beta.
  destruct (loaded_curves loader) as [curves|e|]; try reflexivity.
  destruct (curve_lookup curves INTCAL20) as [[v|[|p ps]]|]; try reflexivity.
  destruct (calibrate _ _ _ _ _ _ _ _) as [w' r']. reflexivity.
Qed.

Lemma calibrateDate_unknown_curve_type_witness :
  calibrateDate rationalDensity (testLoader gapCurve)
    (JsNumber 100) (JsNumber 1) JsUndefined (JsString "IntCal13") JsUndefined
  = (WarnInvalidCurveType (JsString "IntCal13") :: fst (sampleCall 100),
     snd (sampleCall 100)).
Proof.
  apply (calibrateDate_unknown_curve_type rationalDensity (testLoader gapCurve)
           (JsNumber 100) (JsNumber 1) JsUndefined (JsString "IntCal13")
           JsUndefined).
  - discriminate.
  - reflexivity.
Defined.

(** ** calculateProbability: the shape of the density *)

Lemma totalError_positive (c14Error curveError : R) :
  (0 < c14Error)%R -> (0 < sqrt (c14Error ^ 2 + curveError ^ 2))%R.
Proof.
  intro H. apply sqrt_lt_R0. apply Rplus_lt_le_0_compat.
  - apply pow_lt. exact H.
  - apply pow2_ge_0.
Qed.

Lemma exp_monotone (x y : R) : (x <= y)%R -> (exp x <= exp y)%R.
Proof.
  intros [H| ->].
  - left. apply exp_increasing. exact H.
  - right. reflexivity.
Qed.

(** X12.  For a positive measurement error the density falls as the
    distance between the measured radiocarbon age and the curve's
    radiocarbon age grows, the two errors being the same; in particular it
    depends on the two ages only through that distance. *)
Theorem calculateProbability_falls_with_deviation
  (c14Age c14Age' curveC14BP curveC14BP' c14Error curveError : R) :
  (0 < c14Error)%R ->
  (Rabs (c14Age - curveC14BP) <= Rabs (c14Age' - curveC14BP'))%R ->
  (LikelihoodModel.calculateProbability c14Age' c14Error curveC14BP' curveError
   <= LikelihoodModel.calculateProbability c14Age c14Error curveC14BP curveError)%R.
Proof.
  intros He Hd. unfold LikelihoodModel.calculateProbability.
  pose proof (totalError_positive c14Error curveError He) as Ht.
  set (t := sqrt (c14Error ^ 2 + curveError ^ 2)) in *.
  assert (Hs : (0 < sqrt (2 * PI))%R).
  { apply sqrt_lt_R0. apply Rmult_lt_0_compat; [apply Rlt_0_2|apply PI_RGT_0]. }
  unfold Rdiv at 1 3. apply Rmult_le_compat_r.
  - left. apply Rinv_0_lt_compat. apply Rmult_lt_0_compat; assumption.
  - apply exp_monotone.
    assert (H2 : (((c14Age - curveC14BP) / t) ^ 2
                  <= ((c14Age' - curveC14BP') / t) ^ 2)%R).
    { rewrite <- !Rsqr_pow2. apply Rsqr_le_abs_1.
      unfold Rdiv. rewrite !Rabs_mult.
      apply Rmult_le_compat_r; [apply Rabs_pos|exact Hd]. }
    Lra.lra.
Qed.

Lemma calculateProbability_falls_with_deviation_witness :
  (LikelihoodModel.calculateProbability 3 1 0 0
   <= LikelihoodModel.calculateProbability 1 1 2 0)%R.
Proof.
  apply (calculateProbability_falls_with_deviation 1 3 2 0 1 0).
  - exact Rlt_0_1.
  - unfold Rabs.
    destruct (Rcase_abs (1 - 2)), (Rcase_abs (3 - 0)); Lra.lra.
Defined.

(** X13.  For a positive measurement error the density is not negative and
    at most [1 / (c14Error * sqrt (2 * PI))], whatever the curve point;
    where the two radiocarbon ages agree it is
    [1 / (totalError * sqrt (2 * PI))]. *)
Theorem calculateProbability_bounded
  (c14Age c14Error curveC14BP curveError : R) :
  (0 < c14Error)%R ->
  (0 <= LikelihoodModel.calculateProbability c14Age c14Error curveC14BP curveError
   <= 1 / (c14Error * sqrt (2 * PI)))%R
  /\ LikelihoodModel.calculateProbability curveC14BP c14Error curveC14BP curveError
     = (1 / (sqrt (c14Error ^ 2 + curveError ^ 2) * sqrt (2 * PI)))%R.
Proof.
  intro He.
  pose proof (totalError_positive c14Error curveError He) as Ht.
  assert (Hs : (0 < sqrt (2 * PI))%R).
  { apply sqrt_lt_R0. apply Rmult_lt_0_compat; [apply Rlt_0_2|apply PI_RGT_0]. }
  split; [split|].
  - unfold LikelihoodModel.calculateProbability.
    apply Rmult_le_pos; [left; apply exp_pos|].
    left. apply Rinv_0_lt_compat. apply Rmult_lt_0_compat; assumption.
  - unfold LikelihoodModel.calculateProbability.
    set (t := sqrt (c14Error ^ 2 + curveError ^ 2)) in *.
    assert (Hte : (c14Error <= t)%R).
    { subst t. rewrite <- (sqrt_pow2 c14Error) at 1 by (left; exact He).
      apply sqrt_le_1_alt.
      rewrite <- (Rplus_0_r (c14Error ^ 2)) at 1.
      apply Rplus_le_compat_l, pow2_ge_0. }
    assert (Hexp : (exp (- (1 / 2) * ((c14Age - curveC14BP) / t) ^ 2) <= 1)%R).
    { apply Rle_trans with (exp 0); [|right; apply exp_0].
      apply exp_monotone.
      pose proof (pow2_ge_0 ((c14Age - curveC14BP) / t)) as H.
      revert H. generalize (((c14Age - curveC14BP) / t) ^ 2)%R.
      clear. intros x H. Lra.lra. }
    apply Rle_trans with (1 / (t * sqrt (2 * PI)))%R.
    + unfold Rdiv. apply Rmult_le_compat_r; [|exact Hexp].
      left. apply Rinv_0_lt_compat. apply Rmult_lt_0_compat; assumption.
    + unfold Rdiv. rewrite !Rmult_1_l. apply Rinv_le_contravar.
      * apply Rmult_lt_0_compat; assumption.
      * apply Rmult_le_compat_r; [left; exact Hs|exact Hte].
  - unfold LikelihoodModel.calculateProbability.
    replace (- (1 / 2)
             * ((curveC14BP - curveC14BP)
                / sqrt (c14Error ^ 2 + curveError ^ 2)) ^ 2)%R
      with 0%R; [rewrite exp_0; reflexivity|].
    unfold Rminus. rewrite Rplus_opp_r. unfold Rdiv.
    rewrite Rmult_0_l. simpl. ring.
Qed.

Lemma calculateProbability_bounded_witness :
  (0 <= LikelihoodModel.calculateProbability 1 1 2 0)%R.
Proof.
  exact (proj1 (proj1 (calculateProbability_bounded 1 1 2 0 Rlt_0_1))).
Defined.

(** ** The data loader: parsing *)

Lemma in_without_null {A : Type} (l : list (option A)) (a : A) :
  In a (DataLoaderJs.without_null l) <-> In (Some a) l.
Proof.
  induction l as [|[x|] l IH]; simpl.
  - tauto.
  - rewrite IH. split; intros [H|H]; auto; left; congruence.
  - rewrite IH. split; [auto|]. intros [H|H]; [discriminate|exact H].
Qed.

Lemma parse_line_in_range (host : DataLoaderJs.Host) (line : string)
  (p : DataLoaderJs.Point) :
  DataLoaderJs.parse_line host line = Some p -> DataLoaderJs.in_range p.
Proof.
  unfold DataLoaderJs.parse_line.
  destruct (if DataLoaderJs.includes "," line then _ else _)
    as [|part0 [|part1 [|part2 rest]]]; try discriminate.
  destruct (DataLoaderJs.parseFloat host part0) as [|cal]; try discriminate.
  destruct (DataLoaderJs.parseFloat host part1) as [|c14]; try discriminate.
  destruct (DataLoaderJs.parseFloat host part2) as [|err]; try discriminate.
  destruct (_ || _) eqn:E; [discriminate|].
  apply orb_false_elim in E. destruct E as [E E5].
  apply orb_false_elim in E. destruct E as [E E4].
  apply orb_false_elim in E. destruct E as [E E3].
  apply orb_false_elim in E. destruct E as [E1 E2].
  destruct cal as [|cal|], c14 as [|c14|]; try discriminate.
  intro Hp. injection Hp as <-.
  unfold DataLoaderJs.in_range. cbn.
  cbn in E1, E2, E3, E4. qbool.
  split; [split; lra|]. split; [split; lra|].
  unfold DataLoaderJs.ext_le_bool in E5. apply negb_false_iff in E5.
  destruct err as [|e|]; cbn in E5; try discriminate.
  - right. exists e. split; [reflexivity|]. qbool. exact E5.
  - left. reflexivity.
Qed.

Lemma parseCalibrationFile_lines (host : DataLoaderJs.Host)
  (fileContent : JsPrim) (p : DataLoaderJs.Point) :
  In p (DataLoaderJs.parseCalibrationFile host fileContent) ->
  exists s line,
    fileContent = JsString s
    /\ In line (DataLoaderJs.split_on "010" s)
    /\ DataLoaderJs.data_line host line = true
    /\ DataLoaderJs.parse_line host line = Some p.
Proof.
  unfold DataLoaderJs.parseCalibrationFile.
  destruct fileContent as [| |b|q| |s]; try contradiction.
  destruct (String.eqb s ""); [contradiction|].
  unfold DataLoaderJs.parsed_lines.
  destruct (length (filter _ _) =? 0)%nat; [contradiction|].
  destruct (length (DataLoaderJs.without_null _) =? 0)%nat; [contradiction|].
  intro H. apply in_without_null, in_map_iff in H.
  destruct H as (line & Hp & Hl). apply filter_In in Hl.
  exists s, line. tauto.
Qed.

Lemma parsed_point_in_range (host : DataLoaderJs.Host) (fileContent : JsPrim)
  (p : DataLoaderJs.Point) :
  In p (DataLoaderJs.parseCalibrationFile host fileContent) ->
  DataLoaderJs.in_range p.
Proof.
  intro Hp. apply parseCalibrationFile_lines in Hp.
  destruct Hp as (s & line & _ & _ & _ & Hp).
  apply (parse_line_in_range host line p Hp).
Qed.

(** X14.  Whatever the host's string functions and number parser return,
    and whatever is passed as file content, every point
    [parseCalibrationFile] returns has a calendar age and a radiocarbon age
    within [0, 100000] and an error above zero, which may be [Infinity]. *)
Theorem parseCalibrationFile_points_in_range (host : DataLoaderJs.Host)
  (fileContent : JsPrim) :
  Forall DataLoaderJs.in_range
         (DataLoaderJs.parseCalibrationFile host fileContent).
Proof.
  apply Forall_forall. apply parsed_point_in_range.
Qed.

(** ** The data loader: loading and the cache *)

Lemma promise_all_values {A : Type} (l : list (option A)) (values : list A) :
  DataLoaderJs.promise_all l = Some values <-> l = map Some values.
Proof.
  revert values. induction l as [|[a|] l IH]; intro values; simpl.
  - split; intro H.
    + injection H as <-. reflexivity.
    + destruct values; [reflexivity|discriminate].
  - destruct (DataLoaderJs.promise_all l) as [vs|].
    + split; intro H.
      * injection H as <-. simpl. f_equal. apply IH. reflexivity.
      * destruct values as [|v values]; [discriminate|].
        simpl in H. injection H as <- H. apply IH in H.
        injection H as <-. reflexivity.
    + split; intro H; [discriminate|].
      destruct values as [|v values]; [discriminate|].
      simpl in H. injection H as _ H. apply IH in H. discriminate.
  - split; intro H; [discriminate|].
    destruct values; discriminate.
Qed.

Lemma promise_all_rejected {A : Type} (l : list (option A)) :
  DataLoaderJs.promise_all l = None <-> In None l.
Proof.
  induction l as [|[a|] l IH]; simpl.
  - split; [discriminate|contradiction].
  - destruct (DataLoaderJs.promise_all l).
    + split; [discriminate|]. intros [H|H]; [discriminate|].
      apply IH in H. discriminate.
    + split; [|reflexivity]. intros _. right. apply IH. reflexivity.
  - split; auto.
Qed.

Lemma by_ascending_cal_BP_point (a b : DataLoaderJs.Point) :
  DataLoaderJs.by_ascending_cal_BP a b < 0
  <-> DataLoaderJs.cal_BP a < DataLoaderJs.cal_BP b.
Proof. unfold DataLoaderJs.by_ascending_cal_BP. split; intro H; lra. Qed.

(** The filter of line 219 finds nothing to remove in what the parser
    returned. *)
Lemma sortedData_perm (host : DataLoaderJs.Host) (fileContent : JsPrim) :
  Permutation
    (DataLoaderJs.sortedData (DataLoaderJs.parseCalibrationFile host fileContent))
    (DataLoaderJs.parseCalibrationFile host fileContent).
Proof.
  unfold DataLoaderJs.sortedData. rewrite filter_all.
  - apply js_sort_perm.
  - intros p Hp.
    destruct (parsed_point_in_range host fileContent p Hp) as [[H0 _] _].
    apply Qle_bool_iff. exact H0.
Qed.

Lemma fetch_curve_some (host : DataLoaderJs.Host) (curveType filePath : string)
  (entry : string * list DataLoaderJs.Point) :
  DataLoaderJs.fetch_curve host curveType filePath = Some entry ->
  exists text,
    DataLoaderJs.fetch host filePath
    = DataLoaderJs.FetchResponse true (Some text)
    /\ entry = (curveType,
                DataLoaderJs.parseCalibrationFile host (JsString text))
    /\ DataLoaderJs.parseCalibrationFile host (JsString text) <> [].
Proof.
  unfold DataLoaderJs.fetch_curve.
  destruct (DataLoaderJs.fetch host filePath) as [|[|] [text|]];
    try discriminate.
  destruct (DataLoaderJs.parseCalibrationFile host (JsString text)) eqn:E;
    [discriminate|].
  cbn [length Nat.eqb]. intro H. injection H as <-. exists text.
  rewrite E. repeat split. discriminate.
Qed.

(** What the loader guarantees of one loaded curve, given the file it came
    from. *)
Lemma loaded_entry (host : DataLoaderJs.Host) (file : string * string)
  (fetched : string * list DataLoaderJs.Point) :
  DataLoaderJs.fetch_curve host (fst file) (snd file) = Some fetched ->
  let entry := (fst fetched, DataLoaderJs.sortedData (snd fetched)) in
  fst entry = fst file
  /\ snd entry <> []
  /\ key_sorted DataLoaderJs.cal_BP (snd entry)
  /\ Forall DataLoaderJs.in_range (snd entry)
  /\ exists text,
       DataLoaderJs.fetch host (snd file)
       = DataLoaderJs.FetchResponse true (Some text)
       /\ Permutation (snd entry)
            (DataLoaderJs.parseCalibrationFile host (JsString text)).
Proof.
  intro H. apply fetch_curve_some in H.
  destruct H as (text & Ef & -> & Hne). cbn [fst snd].
  pose proof (sortedData_perm host (JsString text)) as HP.
  split; [reflexivity|]. split; [|split; [|split]].
  - intro E. rewrite E in HP. apply Permutation_nil in HP. contradiction.
  - apply (js_sort_sorted _ _ by_ascending_cal_BP_point).
  - apply Forall_forall. intros p Hp.
    apply (parsed_point_in_range host (JsString text)).
    apply (Permutation_in _ HP Hp).
  - exists text. split; [exact Ef|exact HP].
Qed.

(** What the loader stores for the files that were fetched. *)
Lemma sorted_entries (host : DataLoaderJs.Host) :
  forall (files : list (string * string))
         (curveResults : list (string * list DataLoaderJs.Point)),
    map (fun file => DataLoaderJs.fetch_curve host (fst file) (snd file)) files
    = map Some curveResults ->
    Forall2
      (fun file entry =>
         fst entry = fst file
         /\ snd entry <> []
         /\ key_sorted DataLoaderJs.cal_BP (snd entry)
         /\ Forall DataLoaderJs.in_range (snd entry)
         /\ exists text,
              DataLoaderJs.fetch host (snd file)
              = DataLoaderJs.FetchResponse true (Some text)
              /\ Permutation (snd entry)
                   (DataLoaderJs.parseCalibrationFile host (JsString text)))
      files
      (map (fun entry => (fst entry, DataLoaderJs.sortedData (snd entry)))
           curveResults).
Proof.
  induction files as [|file files IH];
    intros [|fetched rest] E; try discriminate; cbn [map].
  - constructor.
  - cbn [map] in E. injection E as E1 E2. constructor.
    + apply (loaded_entry host file fetched E1).
    + apply IH. exact E2.
Qed.

(** The loaded curves carry the names of the three files and are not
    empty. *)
Lemma loaded_names (host : DataLoaderJs.Host)
  (cache : option DataLoaderJs.Curves) (curves : DataLoaderJs.Curves) :
  DataLoaderJs.loadCalibrationData host None = (cache, DataLoaderJs.Loaded curves) ->
  Forall2 (fun file entry => fst entry = fst file /\ snd entry <> [])
          DataLoaderJs.curveFiles curves.
Proof.
  unfold DataLoaderJs.loadCalibrationData.
  destruct (DataLoaderJs.promise_all _) as [curveResults|] eqn:E;
    [|discriminate].
  intro H. injection H as _ <-.
  apply promise_all_values in E.
  eapply Forall2_impl; [|apply (sorted_entries host _ _ E)].
  cbn beta. intros file entry H. tauto.
Qed.

(** X15.  When a load from an empty cache succeeds, the cache holds the
    returned curves; they are the three curves in the order IntCal20,
    SHCal20, Marine20, and each one is non-empty, ascending in calendar
    age, within the parser's ranges, and a rearrangement of exactly the
    points parsed from the body of its file. *)
Theorem loadCalibrationData_loaded (host : DataLoaderJs.Host)
  (cache : option DataLoaderJs.Curves) (curves : DataLoaderJs.Curves) :
  DataLoaderJs.loadCalibrationData host None = (cache, DataLoaderJs.Loaded curves) ->
  DataLoaderJs.getCalibrationData cache = Some curves
  /\ Forall2
       (fun file entry =>
          fst entry = fst file
          /\ snd entry <> []
          /\ key_sorted DataLoaderJs.cal_BP (snd entry)
          /\ Forall DataLoaderJs.in_range (snd entry)
          /\ exists text,
               DataLoaderJs.fetch host (snd file)
               = DataLoaderJs.FetchResponse true (Some text)
               /\ Permutation (snd entry)
                    (DataLoaderJs.parseCalibrationFile host (JsString text)))
       DataLoaderJs.curveFiles curves.
Proof.
  unfold DataLoaderJs.loadCalibrationData, DataLoaderJs.getCalibrationData.
  destruct (DataLoaderJs.promise_all _) as [curveResults|] eqn:E;
    [|discriminate].
  intro H. injection H as <- <-. split; [reflexivity|].
  apply promise_all_values in E.
  apply (sorted_entries host _ _ E).
Qed.

Lemma loadCalibrationData_loaded_witness :
  exists curves,
    DataLoaderJs.getCalibrationData
      (fst (DataLoaderJs.loadCalibrationData sampleHost None)) = Some curves
    /\ map fst curves = ["IntCal20"; "SHCal20"; "Marine20"]%string.
Proof.
  destruct (DataLoaderJs.loadCalibrationData sampleHost None)
    as [cache [curves|msg]] eqn:E; [|vm_compute in E; discriminate].
  exists curves.
  destruct (loadCalibrationData_loaded sampleHost cache curves E) as [Hc Hf].
  split; [exact Hc|].
  assert (Hk : map fst curves = map fst DataLoaderJs.curveFiles).
  { clear -Hf. induction Hf as [|file entry files curves [Hk _] _ IH].
    - reflexivity.
    - simpl. rewrite Hk, IH. reflexivity. }
  exact Hk.
Defined.

(** X16.  A load from an empty cache fails exactly when one of the three
    files is not fetched with an [ok] response and a readable body from
    which at least one point is parsed; it then rejects with the one
    general message and leaves the cache empty. *)
Theorem loadCalibrationData_failed (host : DataLoaderJs.Host) :
  (exists file, In file DataLoaderJs.curveFiles
                /\ DataLoaderJs.fetch_curve host (fst file) (snd file) = None)
  <-> DataLoaderJs.loadCalibrationData host None
      = (None, DataLoaderJs.LoadFailed DataLoaderJs.load_failure).
Proof.
  unfold DataLoaderJs.loadCalibrationData.
  destruct (DataLoaderJs.promise_all _) as [curveResults|] eqn:E.
  - split; [|discriminate].
    intros (file & Hin & Hf). exfalso.
    assert (Hn : DataLoaderJs.promise_all
                   (map (fun file => DataLoaderJs.fetch_curve host (fst file)
                                       (snd file)) DataLoaderJs.curveFiles)
                 = None).
    { apply promise_all_rejected. apply in_map_iff. exists file. tauto. }
    congruence.
  - split; [reflexivity|]. intros _.
    apply promise_all_rejected, in_map_iff in E.
    destruct E as (file & Hf & Hin). exists file. tauto.
Qed.

(** X17.  Once a load has succeeded, every later load returns the same
    curves and leaves the cache as it is, whatever the host would answer:
    the files are fetched once. *)
Theorem loadCalibrationData_cached (host host' : DataLoaderJs.Host)
  (cache : option DataLoaderJs.Curves) (curves : DataLoaderJs.Curves) :
  DataLoaderJs.loadCalibrationData host None
  = (cache, DataLoaderJs.Loaded curves) ->
  DataLoaderJs.loadCalibrationData host' cache
  = (cache, DataLoaderJs.Loaded curves).
Proof.
  unfold DataLoaderJs.loadCalibrationData at 1.
  destruct (DataLoaderJs.promise_all _) as [curveResults|]; [|discriminate].
  intro H. injection H as <- <-. reflexivity.
Qed.

Lemma loadCalibrationData_cached_witness :
  DataLoaderJs.loadCalibrationData offlineHost
    (fst (DataLoaderJs.loadCalibrationData sampleHost None))
  = DataLoaderJs.loadCalibrationData sampleHost None.
Proof.
  destruct (DataLoaderJs.loadCalibrationData sampleHost None)
    as [cache [curves|msg]] eqn:E; [|vm_compute in E; discriminate].
  exact (loadCalibrationData_cached sampleHost offlineHost cache curves E).
Defined.

Lemma loadCalibrationData_failed_witness :
  DataLoaderJs.loadCalibrationData offlineHost None
  = (None, DataLoaderJs.LoadFailed DataLoaderJs.load_failure).
Proof.
  apply (proj1 (loadCalibrationData_failed offlineHost)).
  exists ("IntCal20", "/intcal20.14c")%string.
  split; [left; reflexivity|reflexivity].
Defined.

(** ** The data loader and the engine together *)

Lemma as_curve_nonempty (data : list DataLoaderJs.Point)
  (curveData : list CurvePoint) :
  as_curve data = Some curveData -> data <> [] -> curveData <> [].
Proof.
  destruct data as [|p rest]; [congruence|]. simpl.
  destruct (as_curve_point p); [|discriminate].
  destruct (as_curve rest); [|discriminate].
  intros H _. injection H as <-. discriminate.
Qed.

(** In the engine's view of loaded curves every known curve type is a
    non-empty array. *)
Lemma loaded_curve_lookup (host : DataLoaderJs.Host)
  (cache : option DataLoaderJs.Curves) (curves : DataLoaderJs.Curves)
  (calibrationCurves : CurveSet) (curveType : string) :
  DataLoaderJs.loadCalibrationData host None
  = (cache, DataLoaderJs.Loaded curves) ->
  as_curve_set curves = Some calibrationCurves ->
  In curveType CURVE_TYPES ->
  exists p ps,
    curve_lookup calibrationCurves curveType = Some (EntryArray (p :: ps)).
Proof.
  intros E Ecs Hin. apply loaded_names in E. rename E into Hf.
  unfold DataLoaderJs.curveFiles in Hf.
  inversion Hf as [|f1 [k1 d1] fs1 r1 (K1 & N1) Hf1]; subst.
  inversion Hf1 as [|f2 [k2 d2] fs2 r2 (K2 & N2) Hf2]; subst.
  inversion Hf2 as [|f3 [k3 d3] fs3 r3 (K3 & N3) Hf3]; subst.
  inversion Hf3; subst.
  cbn [fst snd] in *. subst k1 k2 k3.
  cbn [as_curve_set] in Ecs.
  destruct (as_curve d1) as [l1|] eqn:E1; [|discriminate].
  destruct (as_curve d2) as [l2|] eqn:E2; [|discriminate].
  destruct (as_curve d3) as [l3|] eqn:E3; [|discriminate].
  injection Ecs as <-.
  pose proof (as_curve_nonempty _ _ E1 N1) as M1.
  pose proof (as_curve_nonempty _ _ E2 N2) as M2.
  pose proof (as_curve_nonempty _ _ E3 N3) as M3.
  destruct l1 as [|p1 l1]; [congruence|].
  destruct l2 as [|p2 l2]; [congruence|].
  destruct l3 as [|p3 l3]; [congruence|].
  destruct Hin as [<-|[<-|[<-|[]]]]; cbn; eauto.
Qed.

Lemma resolve_curve_type_known (v : JsPrim) :
  In (snd (resolve_curve_type v)) CURVE_TYPES.
Proof.
  unfold resolve_curve_type, known_curve_type.
  destruct v as [| |b|q| |s]; try (left; reflexivity).
  destruct (existsb (String.eqb s) CURVE_TYPES) eqn:E; [|left; reflexivity].
  apply existsb_exists in E. destruct E as (k & Hk & Ek).
  apply String.eqb_eq in Ek. subst k. exact Hk.
Qed.

(** X18.  After a successful load whose points all carry a finite error,
    a call of [calibrateDate] whose three numeric arguments pass their
    checks finds its curve whatever curve type is asked for: it returns a
    result or throws the [TypeError] of an empty calendar range, and never
    reports a load failure or missing curve data. *)
Theorem calibrateDate_after_load
  (host : DataLoaderJs.Host) (cache : option DataLoaderJs.Curves)
  (curves : DataLoaderJs.Curves) (calibrationCurves : CurveSet)
  (calculateProbability : Q -> Q -> Q -> Q -> Q)
  (pending : LoadOutcome) (metadata : string -> option CurveMetadata)
  (c14_age uncertainty_ reservoir curveType mode : JsPrim) :
  DataLoaderJs.loadCalibrationData host None
  = (cache, DataLoaderJs.Loaded curves) ->
  as_curve_set curves = Some calibrationCurves ->
  arguments_accepted c14_age uncertainty_ reservoir = true ->
  let call :=
    calibrateDate calculateProbability
      {| getCalibrationData := Some calibrationCurves;
         loadCalibrationData := pending;
         CURVE_METADATA := metadata |}
      c14_age uncertainty_ reservoir curveType mode in
  (exists r, snd call = Ok r) \/ snd call = Throw TypeError.
Proof.
  intros El Ecs Hargs call. subst call.
  unfold arguments_accepted in Hargs. unfold calibrateDate.
  destruct (valid_c14_age c14_age) as [age|]; [|discriminate].
  destruct (valid_uncertainty uncertainty_) as [u|] eqn:Eu; [|discriminate].
  apply valid_uncertainty_positive in Eu.
  destruct (valid_reservoir_correction _) as [rc|]; [|discriminate].
  pose proof (resolve_curve_type_known
                (default_param (JsString INTCAL20) curveType)) as Hk.
  destruct (resolve_curve_type _) as [w ct]. cbn [snd] in Hk.
  unfold loaded_curves. cbn [getCalibrationData].
  destruct (loaded_curve_lookup host cache curves calibrationCurves ct
              El Ecs Hk) as (p & ps & Ep).
  rewrite Ep.
  set (loader := {| getCalibrationData := Some calibrationCurves;
                    loadCalibrationData := pending;
                    CURVE_METADATA := metadata |}).
  set (m := default_param (JsString C14_BP_MODE) mode).
  destruct (calendarBounds_shape (p :: ps) (age - rc) u m
              ltac:(discriminate) Eu) as (b & Eb & Hb).
  assert (Hcases : b = (PInf, NInf)
                   \/ (exists lo hi, b = (Fin lo, Fin hi) /\ hi < lo)
                   \/ (exists lo hi, b = (Fin lo, Fin hi) /\ lo <= hi)).
  { destruct Hb as [->|(lo & hi & ->)]; [left; reflexivity|].
    destruct (Qlt_le_dec hi lo); [right; left|right; right]; eauto. }
  destruct Hcases as [H|[H|(lo & hi & -> & Hle)]].
  - rewrite (calibrate_throws_on_empty_range calculateProbability loader
               age u rc ct m (p :: ps) b Eb (or_introl H)).
    right. reflexivity.
  - rewrite (calibrate_throws_on_empty_range calculateProbability loader
               age u rc ct m (p :: ps) b Eb (or_intror H)).
    right. reflexivity.
  - destruct (calibrate_returns calculateProbability loader age u rc ct m
                (p :: ps) lo hi Eb Hle) as (w' & r & Er).
    rewrite Er. left. exists r. reflexivity.
Qed.

Lemma calibrateDate_after_load_witness :
  exists calibrationCurves,
    as_curve_set
      (match snd (DataLoaderJs.loadCalibrationData sampleHost None) with
       | DataLoaderJs.Loaded curves => curves
       | DataLoaderJs.LoadFailed _ => []
       end) = Some calibrationCurves
    /\ let call :=
         calibrateDate rationalDensity
           {| getCalibrationData := Some calibrationCurves;
              loadCalibrationData := Rejected "offline";
              CURVE_METADATA := fun _ => None |}
           (JsNumber 100) (JsNumber 1) JsUndefined (JsString "Marine20")
           JsUndefined in
       (exists r, snd call = Ok r) \/ snd call = Throw TypeError.
Proof.
  destruct (DataLoaderJs.loadCalibrationData sampleHost None)
    as [cache [curves|msg]] eqn:E; [|vm_compute in E; discriminate].
  cbn [snd].
  destruct (as_curve_set curves) as [calibrationCurves|] eqn:Ecs.
  - exists calibrationCurves. split; [reflexivity|].
    exact (calibrateDate_after_load sampleHost cache curves calibrationCurves
             rationalDensity (Rejected "offline") (fun _ => None)
             (JsNumber 100) (JsNumber 1) JsUndefined (JsString "Marine20")
             JsUndefined E Ecs eq_refl).
  - exfalso. vm_compute in E. injection E as _ <-.
    vm_compute in Ecs. discriminate.
Defined.

(** ** The validation script: overlap and coverage *)

(** X19.  For two ranges given with [endBP <= startBP], the script's
    [rangesOverlap] answers true exactly when some year lies in both
    ranges, bounds included. *)
Theorem rangesOverlap_shared_year (range1 range2 : CompareOxCal.BPRange) :
  CompareOxCal.endBP range1 <= CompareOxCal.startBP range1 ->
  CompareOxCal.endBP range2 <= CompareOxCal.startBP range2 ->
  (CompareOxCal.rangesOverlap range1 range2 = true
   <-> exists year : Q,
         (CompareOxCal.endBP range1 <= year
          /\ year <= CompareOxCal.startBP range1)
         /\ (CompareOxCal.endBP range2 <= year
             /\ year <= CompareOxCal.startBP range2)).
Proof.
  intros H1 H2. unfold CompareOxCal.rangesOverlap. split.
  - intro H. apply andb_prop in H. destruct H as [Ha Hb]. qbool.
    destruct (Qlt_le_dec (CompareOxCal.endBP range1)
                (CompareOxCal.endBP range2)) as [Hlt|Hle].
    + exists (CompareOxCal.endBP range2). repeat split; lra.
    + exists (CompareOxCal.endBP range1). repeat split; lra.
  - intros (year & [Ha Hb] & [Hc Hd]).
    apply andb_true_intro. split; apply Qle_bool_iff; lra.
Qed.

Lemma rangesOverlap_shared_year_witness :
  CompareOxCal.rangesOverlap
    {| CompareOxCal.startBP := 300; CompareOxCal.endBP := 200 |}
    {| CompareOxCal.startBP := 200; CompareOxCal.endBP := 100 |} = true
  <-> exists year : Q,
        (200 <= year /\ year <= 300) /\ (100 <= year /\ year <= 200).
Proof.
  apply (rangesOverlap_shared_year
           {| CompareOxCal.startBP := 300; CompareOxCal.endBP := 200 |}
           {| CompareOxCal.startBP := 200; CompareOxCal.endBP := 100 |});
    apply Qle_bool_iff; reflexivity.
Defined.

(** X20.  The overlap test of the unit tests asks for more than the
    script's: it answers true exactly when the two ranges share two
    different years, so ranges that only touch in one year overlap for the
    script and not for the unit tests; whenever the unit tests see an
    overlap the script sees one. *)
Theorem rangesOverlap_of_tests_is_stricter (a b : CompareOxCal.BPRange) :
  (OxCalTest.rangesOverlap a b = true
   <-> exists year year' : Q,
         year < year'
         /\ CompareOxCal.endBP a <= year /\ year' <= CompareOxCal.startBP a
         /\ CompareOxCal.endBP b <= year /\ year' <= CompareOxCal.startBP b)
  /\ (OxCalTest.rangesOverlap a b = true ->
      CompareOxCal.rangesOverlap a b = true).
Proof.
  assert (Hiff : OxCalTest.rangesOverlap a b = true
                 <-> (CompareOxCal.endBP a < CompareOxCal.startBP a
                      /\ CompareOxCal.endBP a < CompareOxCal.startBP b)
                     /\ (CompareOxCal.endBP b < CompareOxCal.startBP a
                         /\ CompareOxCal.endBP b < CompareOxCal.startBP b)).
  { unfold OxCalTest.rangesOverlap. rewrite Qlt_bool_iff.
    destruct (Qle_bool (CompareOxCal.startBP a) (CompareOxCal.startBP b))
      eqn:Es;
    destruct (Qle_bool (CompareOxCal.endBP a) (CompareOxCal.endBP b)) eqn:Ee;
    match goal with
    | |- context [Qle_bool 0 ?d] => destruct (Qle_bool 0 d) eqn:Ed
    end;
    qbool; split; intro H; try lra; repeat split; lra. }
  split.
  - rewrite Hiff. split.
    + intros [[H1 H2] [H3 H4]].
      destruct (Qlt_le_dec (CompareOxCal.endBP a) (CompareOxCal.endBP b));
      destruct (Qlt_le_dec (CompareOxCal.startBP a) (CompareOxCal.startBP b)).
      * exists (CompareOxCal.endBP b), (CompareOxCal.startBP a).
        repeat split; lra.
      * exists (CompareOxCal.endBP b), (CompareOxCal.startBP b).
        repeat split; lra.
      * exists (CompareOxCal.endBP a), (CompareOxCal.startBP a).
        repeat split; lra.
      * exists (CompareOxCal.endBP a), (CompareOxCal.startBP b).
        repeat split; lra.
    + intros (y & y' & Hlt & H1 & H2 & H3 & H4). repeat split; lra.
  - intro H. apply Hiff in H. destruct H as [[H1 H2] [H3 H4]].
    unfold CompareOxCal.rangesOverlap.
    apply andb_true_intro. split; apply Qle_bool_iff; lra.
Qed.

Lemma years_from_length (n : nat) (year : Q) :
  length (years_from n year) = n.
Proof.
  revert year. induction n as [|n IH]; intro year; simpl.
  - reflexivity.
  - rewrite IH. reflexivity.
Qed.

Lemma coverage_loop_counts (ourRanges : list Interval) (startBP_ : Q) :
  forall (fuel : nat) (year : Q) (yearsCovered : Z),
    (Qfloor (startBP_ - year) + 1 <= Z.of_nat fuel)%Z ->
    CompareOxCal.coverage_loop fuel ourRanges year startBP_ yearsCovered
    = Ok (yearsCovered
          + Z.of_nat
              (length
                 (filter (CompareOxCal.year_covered ourRanges)
                    (years_from (Z.to_nat (Qfloor (startBP_ - year) + 1))
                                year))))%Z.
Proof.
  induction fuel as [|fuel IH]; intros year acc Hf;
    cbn [CompareOxCal.coverage_loop].
  - replace (Z.to_nat (Qfloor (startBP_ - year) + 1)) with 0%nat by lia.
    assert (Hlt : startBP_ < year).
    { pose proof (Qlt_floor (startBP_ - year)) as H.
      assert (inject_Z (Qfloor (startBP_ - year) + 1) <= inject_Z 0)
        by (rewrite <- Zle_Qle; lia).
      change (inject_Z 0) with 0 in *. lra. }
    apply Qle_bool_false in Hlt. rewrite Hlt.
    cbn [years_from filter length]. f_equal. lia.
  - destruct (Qle_bool year startBP_) eqn:E; qbool.
    + assert (Hfl : Qfloor (startBP_ - (year + 1))
                    = (Qfloor (startBP_ - year) - 1)%Z)
        by (apply Qfloor_minus_one; lra).
      assert (Hpos : (0 <= Qfloor (startBP_ - year))%Z).
      { change 0%Z with (Qfloor 0). apply Qfloor_resp_le. lra. }
      rewrite IH by lia. rewrite Hfl.
      replace (Z.to_nat (Qfloor (startBP_ - year) + 1))
        with (S (Z.to_nat (Qfloor (startBP_ - year) - 1 + 1))) by lia.
      cbn [years_from filter].
      destruct (CompareOxCal.year_covered ourRanges year);
        cbn [length]; f_equal; lia.
    + assert (Hx : startBP_ - year < inject_Z 0)
        by (change (inject_Z 0) with 0; lra).
      apply Qfloor_below in Hx.
      replace (Z.to_nat (Qfloor (startBP_ - year) + 1)) with 0%nat by lia.
      cbn [years_from filter length]. f_equal. lia.
Qed.

Lemma filter_keeps_all {A : Type} (f : A -> bool) (l : list A) :
  length (filter f l) = length l <-> forallb f l = true.
Proof.
  induction l as [|x l IH]; simpl.
  - tauto.
  - pose proof (filter_length_le f l) as Hle.
    destruct (f x); simpl.
    + rewrite <- IH. split; intro H; lia.
    + split; [intro H; lia|discriminate].
Qed.

(** X21.  For a range with [endBP <= startBP], [calculateCoverage] returns
    a number: a hundred times the count of covered years among [endBP],
    [endBP + 1], ... up to [startBP], divided by [startBP - endBP + 1].  It
    lies between 0 and 100, and it is 100 exactly when every one of those
    years is covered and [startBP - endBP] is a whole number. *)
Theorem calculateCoverage_percentage (oxcalRange : CompareOxCal.BPRange)
  (ourRanges : list Interval) :
  CompareOxCal.endBP oxcalRange <= CompareOxCal.startBP oxcalRange ->
  let width :=
    CompareOxCal.startBP oxcalRange - CompareOxCal.endBP oxcalRange in
  let covered_count :=
    Z.of_nat (length (filter (CompareOxCal.year_covered ourRanges)
                             (oxcal_years oxcalRange))) in
  exists coverage : Q,
    CompareOxCal.calculateCoverage oxcalRange ourRanges
    = Ok (DataLoaderJs.FNum (Fin coverage))
    /\ coverage == inject_Z covered_count / (width + 1) * 100
    /\ 0 <= coverage /\ coverage <= 100
    /\ (coverage == 100
        <-> forallb (CompareOxCal.year_covered ourRanges)
              (oxcal_years oxcalRange) = true
            /\ inject_Z (Qfloor width) == width).
Proof.
  intros Hle width covered_count.
  assert (Hw : 0 <= width) by (unfold width; lra).
  assert (Hfloor : (0 <= Qfloor width)%Z).
  { change 0%Z with (Qfloor 0). apply Qfloor_resp_le. exact Hw. }
  pose proof (Qfloor_le width) as Hfl.
  assert (Hcount : (0 <= covered_count <= Qfloor width + 1)%Z).
  { unfold covered_count. split; [lia|].
    pose proof (filter_length_le (CompareOxCal.year_covered ourRanges)
                  (oxcal_years oxcalRange)) as H.
    unfold oxcal_years in H at 2. rewrite years_from_length in H.
    fold width in H. lia. }
  assert (Hc0 : 0 <= inject_Z covered_count)
    by (change 0 with (inject_Z 0); rewrite <- Zle_Qle; lia).
  assert (Hc1 : inject_Z covered_count <= inject_Z (Qfloor width) + 1).
  { change 1 with (inject_Z 1). rewrite <- inject_Z_plus, <- Zle_Qle. lia. }
  exists (inject_Z covered_count / (width + 1) * 100).
  split; [|split; [reflexivity|]].
  - unfold CompareOxCal.calculateCoverage.
    rewrite coverage_loop_counts by (fold width; lia).
    cbn [bind]. fold width. rewrite Z.add_0_l.
    fold (oxcal_years oxcalRange). fold covered_count.
    unfold CompareOxCal.js_divide.
    assert (Hd : Qeq_bool (width + 1) 0 = false)
      by (apply Qeq_bool_false; intro E; lra).
    rewrite Hd. reflexivity.
  - set (q := inject_Z covered_count / (width + 1)).
    assert (Hq : q * (width + 1) == inject_Z covered_count)
      by (unfold q; field; lra).
    assert (Hq0 : 0 <= q).
    { unfold q. apply Qle_shift_div_l; lra. }
    assert (Hq1 : q <= 1).
    { unfold q. apply Qle_shift_div_r; lra. }
    split; [lra|]. split; [lra|].
    split.
    + intro E. assert (Eq1 : q == 1) by lra.
      rewrite Eq1 in Hq.
      assert (Efl : inject_Z (Qfloor width) == width) by lra.
      split; [|exact Efl].
      apply filter_keeps_all.
      unfold oxcal_years at 2. rewrite years_from_length. fold width.
      assert (Ec : inject_Z covered_count == inject_Z (Qfloor width + 1)).
      { rewrite inject_Z_plus. change (inject_Z 1) with 1. lra. }
      apply (proj1 (inject_Z_injective _ _)) in Ec.
      unfold covered_count in Ec. lia.
    + intros [Hall Efl]. apply filter_keeps_all in Hall.
      unfold oxcal_years in Hall at 2. rewrite years_from_length in Hall.
      fold width in Hall.
      assert (Ec : inject_Z covered_count == width + 1).
      { unfold covered_count. rewrite Hall, Z2Nat.id by lia.
        rewrite inject_Z_plus. change (inject_Z 1) with 1. lra. }
      assert (Eq1 : q == 1).
      { unfold q. rewrite Ec. field. lra. }
      lra.
Qed.

Lemma calculateCoverage_percentage_witness :
  exists coverage : Q,
    CompareOxCal.calculateCoverage
      {| CompareOxCal.startBP := 103; CompareOxCal.endBP := 100 |}
      [ {| ivl_min := 90; ivl_max := 101 |} ]
    = Ok (DataLoaderJs.FNum (Fin coverage))
    /\ coverage == 50.
Proof.
  destruct (calculateCoverage_percentage
              {| CompareOxCal.startBP := 103; CompareOxCal.endBP := 100 |}
              [ {| ivl_min := 90; ivl_max := 101 |} ])
    as (coverage & E & Hc & _).
  - apply Qle_bool_iff. reflexivity.
  - exists coverage. split; [exact E|]. rewrite Hc. reflexivity.
Defined.

(** X22.  For a confidence in (0, 1] the script's own copy of [findHPD]
    returns just the intervals the engine's [findHPD] returns, on every
    distribution, the empty one included; the copy differs only in logging
    nothing and in taking a confidence outside (0, 1] as it is. *)
Theorem script_findHPD_agrees (probDist : list ProbabilityPoint) (conf : Q) :
  0 < conf -> conf <= 1 ->
  CompareOxCal.findHPD probDist conf = snd (findHPD (AnArray probDist) conf).
Proof.
  intros H0 H1. unfold CompareOxCal.findHPD.
  destruct probDist as [|p rest].
  - reflexivity.
  - rewrite findHPD_valid by (try discriminate; assumption).
    cbn [snd]. unfold intervals_of, includedPoints.
    destruct (collect_points _ _ _) as [|x l] eqn:E; reflexivity.
Qed.

Lemma script_findHPD_agrees_witness :
  CompareOxCal.findHPD testProbDist (954 # 1000)
  = snd (findHPD (AnArray testProbDist) (954 # 1000)).
Proof.
  apply (script_findHPD_agrees testProbDist (954 # 1000)).
  - reflexivity.
  - apply Qle_bool_iff. reflexivity.
Defined.

(** ** The input form and the engine's own checks *)

(** X23.  When the form's [validateInputs] accepts a radiocarbon age and
    an uncertainty, the engine's argument checks accept them exactly when
    both are numbers: a number the form lets through is never refused by
    [calibrateDate], while [NaN], [undefined], a boolean or a string can
    pass the form and is then refused by the engine. *)
Theorem form_accepted_then_engine
  (string_to_number : string -> DataLoaderJs.Float)
  (radiocarbon_age uncertainty_ reservoir : JsPrim) :
  snd (InputForm.validateInputs string_to_number radiocarbon_age uncertainty_)
  = true ->
  valid_reservoir_correction (default_param (JsNumber 0) reservoir) <> None ->
  (arguments_accepted radiocarbon_age uncertainty_ reservoir = true
   <-> is_number radiocarbon_age = true /\ is_number uncertainty_ = true).
Proof.
  intros Hform Hrc. unfold arguments_accepted. split.
  - destruct radiocarbon_age as [| |b|q| |s]; try discriminate.
    destruct uncertainty_ as [| |b'|u| |s']; cbn;
      try (destruct (_ || _); discriminate).
    intros _. split; reflexivity.
  - intros [Ha Hu].
    destruct radiocarbon_age as [| |b|q| |s]; try discriminate.
    destruct uncertainty_ as [| |b'|u| |s']; try discriminate.
    unfold InputForm.validateInputs, InputForm.js_lt, InputForm.js_gt,
      InputForm.js_le in Hform.
    cbn [snd InputForm.is_null InputForm.to_number] in Hform.
    unfold DataLoaderJs.ext_le_bool in Hform.
    cbn [DataLoaderJs.ext_lt_bool] in Hform.
    destruct (Qlt_bool q 0 || Qlt_bool 50000 q) eqn:Eq; [discriminate|].
    destruct (negb (Qlt_bool 0 u)) eqn:Eu; [discriminate|].
    apply orb_false_elim in Eq. destruct Eq as [E1 E2].
    apply negb_false_iff in Eu. qbool.
    unfold valid_c14_age, valid_uncertainty.
    assert (F1 : Qlt_bool q 0 = false) by (apply Qlt_bool_false; exact E1).
    assert (F2 : Qlt_bool 100000 q = false) by (apply Qlt_bool_false; lra).
    assert (F3 : Qle_bool u 0 = false) by (apply Qle_bool_false; exact Eu).
    rewrite F1, F2, F3. cbn [orb].
    destruct (valid_reservoir_correction _); [reflexivity|congruence].
Qed.

Lemma form_accepted_then_engine_witness :
  arguments_accepted (JsNumber 3000) (JsNumber 30) JsUndefined = true
  <-> is_number (JsNumber 3000) = true /\ is_number (JsNumber 30) = true.
Proof.
  apply (form_accepted_then_engine (fun _ => DataLoaderJs.FNaN)
           (JsNumber 3000) (JsNumber 30) JsUndefined).
  - reflexivity.
  - discriminate.
Defined.

(** ** The query string *)

Lemma includes_in (values : list string) (s : string) :
  QueryParams.includes values (Some s) = true -> In s values.
Proof.
  unfold QueryParams.includes. intro H. apply existsb_exists in H.
  destruct H as (k & Hk & Ek). apply String.eqb_eq in Ek. subst k. exact Hk.
Qed.

(** X24.  Whatever the query string holds and whatever [parseFloat] makes
    of it, the input [parseQueryParams] builds names one of the three known
    curves and one of the three search modes, and its reservoir correction
    is a number other than [NaN]; passed to [calibrateDate], the curve
    draws no warning and a finite reservoir correction passes its check. *)
Theorem parseQueryParams_normalised
  (get : string -> option string) (parseFloat : string -> DataLoaderJs.Float) :
  let inputData := QueryParams.parseQueryParams get parseFloat in
  In (QueryParams.curve inputData) CURVE_TYPES
  /\ In (QueryParams.search_mode inputData) InputForm.SEARCH_MODES
  /\ QueryParams.reservoir_correction inputData <> DataLoaderJs.FNaN
  /\ resolve_curve_type (JsString (QueryParams.curve inputData))
     = ([], QueryParams.curve inputData)
  /\ forall reservoir : JsPrim,
       float_argument (QueryParams.reservoir_correction inputData)
       = Some reservoir ->
       valid_reservoir_correction (default_param (JsNumber 0) reservoir)
       <> None.
Proof.
  intro inputData.
  assert (Hcurve : In (QueryParams.curve inputData) CURVE_TYPES).
  { unfold inputData, QueryParams.parseQueryParams. cbn [QueryParams.curve].
    destruct (get "curve"%string) as [c|]; [|left; reflexivity].
    destruct (QueryParams.includes CURVE_TYPES (Some c)) eqn:E;
      [apply includes_in; exact E|left; reflexivity]. }
  split; [exact Hcurve|]. split; [|split; [|split]].
  - unfold inputData, QueryParams.parseQueryParams.
    cbn [QueryParams.search_mode].
    destruct (get "mode"%string) as [m|]; [|left; reflexivity].
    destruct (QueryParams.includes InputForm.SEARCH_MODES (Some m)) eqn:E;
      [apply includes_in; exact E|left; reflexivity].
  - unfold inputData, QueryParams.parseQueryParams.
    cbn [QueryParams.reservoir_correction]. unfold QueryParams.or_zero.
    destruct (QueryParams.getNumericParam get parseFloat "reservoir")
      as [[|[|q|]]|]; try discriminate.
    destruct (Qeq_bool q 0); discriminate.
  - unfold resolve_curve_type, known_curve_type.
    assert (E : existsb (String.eqb (QueryParams.curve inputData)) CURVE_TYPES
                = true).
    { apply existsb_exists. exists (QueryParams.curve inputData).
      split; [exact Hcurve|apply String.eqb_refl]. }
    rewrite E. reflexivity.
  - intros reservoir Hr. unfold float_argument in Hr.
    destruct (QueryParams.reservoir_correction inputData) as [|[|q|]] eqn:E;
      try discriminate.
    + exfalso. revert E. unfold inputData, QueryParams.parseQueryParams.
      cbn [QueryParams.reservoir_correction]. unfold QueryParams.or_zero.
      destruct (QueryParams.getNumericParam get parseFloat "reservoir")
        as [[|[|q|]]|]; try discriminate.
      destruct (Qeq_bool q 0); discriminate.
    + injection Hr as <-. discriminate.
Qed.

(** ** calibrateDate: the years it evaluates *)

Lemma ext_max_above (a : ExtQ) (f lo : Q) :
  ext_max a (Fin f) = Fin lo ->
  f <= lo /\ (forall p, a = Fin p -> p <= lo).
Proof.
  destruct a as [|p|]; simpl; try discriminate.
  - intro H. injection H as <-. split; [lra|]. intros p H. discriminate.
  - destruct (Qle_bool p f) eqn:E; intro H; injection H as <-; qbool;
      (split; [lra|]); intros p' Hp; injection Hp as <-; lra.
Qed.

Lemma ext_min_below (a : ExtQ) (l hi : Q) :
  ext_min a (Fin l) = Fin hi ->
  hi <= l /\ (forall p, a = Fin p -> hi <= p).
Proof.
  destruct a as [|p|]; simpl; try discriminate.
  - destruct (Qle_bool p l) eqn:E; intro H; injection H as <-; qbool;
      (split; [lra|]); intros p' Hp; injection Hp as <-; lra.
  - intro H. injection H as <-. split; [lra|]. intros p H. discriminate.
Qed.

Lemma createUniformDistribution_years_within (curveData : list CurvePoint)
  (b : ExtQ * ExtQ) (l : list CurvePoint) (p : CurvePoint) :
  createUniformDistribution curveData (fst b) (snd b) = Ok l ->
  In p l ->
  exists lo hi, b = (Fin lo, Fin hi) /\ lo <= cal_BP p /\ cal_BP p <= hi.
Proof.
  intros E Hp. destruct b as [[|lo|] [|hi|]]; cbn [fst snd] in E;
    unfold createUniformDistribution in E; try discriminate;
    try (injection E as <-; contradiction).
  exists lo, hi. split; [reflexivity|].
  apply In_nth_error in Hp. destruct Hp as [i Hi].
  destruct (uniform_loop_shape curveData hi
              (Z.to_nat (Qfloor (hi - lo) + 1)) lo l ltac:(lia) E)
    as [_ Hnth].
  destruct (Hnth i p Hi) as (year & v & Hy & Hle & _ & ->).
  cbn [cal_BP].
  assert (0 <= inject_Z (Z.of_nat i))
    by (change 0 with (inject_Z 0); rewrite <- Zle_Qle; lia).
  split; lra.
Qed.

(** X25.  A returned result was computed from the curve stored under the
    curve type it echoes, and every year of its chart lies between the
    calendar ages of that curve's first and last point; unless the echoed
    search mode is ["c14_bp"] or ["full_curve"], every charted year also
    lies within [0, 12000]. *)
Theorem calibrateDate_years_within_curve
  (calculateProbability : Q -> Q -> Q -> Q -> Q) (loader : DataLoader)
  (c14_age uncertainty_ reservoir curveType mode : JsPrim)
  (w : list Warning) (r : CalibrationResult) :
  calibrateDate calculateProbability loader
    c14_age uncertainty_ reservoir curveType mode = (w, Ok r) ->
  exists (calibrationCurves : CurveSet) (curveData : list CurvePoint)
         (first last : CurvePoint),
    loaded_curves loader = Ok calibrationCurves
    /\ curve_lookup calibrationCurves (curve (input r))
       = Some (EntryArray curveData)
    /\ js_index curveData 0 = Some first
    /\ js_index curveData (Z.of_nat (length curveData) - 1) = Some last
    /\ forall pt : ChartPoint, In pt (distribution r) ->
         (cal_BP first <= chart_x pt /\ chart_x pt <= cal_BP last)
         /\ (search_mode (input r) <> JsString "c14_bp" ->
             search_mode (input r) <> JsString "full_curve" ->
             0 <= chart_x pt /\ chart_x pt <= 12000).
Proof.
  intro E. unfold calibrateDate in E.
  destruct (valid_c14_age c14_age) as [age|]; [|discriminate].
  destruct (valid_uncertainty uncertainty_) as [u|]; [|discriminate].
  destruct (valid_reservoir_correction _) as [rc|]; [|discriminate].
  destruct (resolve_curve_type _) as [w0 ct].
  destruct (loaded_curves loader) as [curves|e|]; try discriminate.
  destruct (curve_lookup curves ct) as [[v|[|p ps]]|] eqn:El;
    try discriminate.
  set (m := default_param (JsString C14_BP_MODE) mode) in *.
  set (curveData := p :: ps) in *.
  unfold calibrate in E.
  destruct (normalizedDistribution calculateProbability curveData (age - rc) u m)
    as [dist|e|] eqn:En; try discriminate.
  destruct (findHPD (AnArray dist) (682 # 1000)) as [w68 hpd68].
  destruct (findHPD (AnArray dist) (954 # 1000)) as [w95 hpd95].
  destruct (js_index (js_sort by_descending_probability dist) 0)
    as [mp|]; cbn [deref bind] in E; [|discriminate].
  injection E as _ <-. cbn [input curve search_mode distribution].
  unfold normalizedDistribution in En.
  destruct (calendarBounds curveData (age - rc) u m) as [b|e|] eqn:Eb;
    try discriminate.
  cbn [bind] in En.
  destruct (createUniformDistribution curveData (fst b) (snd b))
    as [uniformCurve|e|] eqn:Ec; try discriminate.
  cbn [bind] in En. injection En as En.
  rewrite map_map in En. cbn [pp_cal_BP probability] in En.
  unfold calendarBounds in Eb.
  destruct (policy_bounds curveData (age - rc) u m) as [pb|e|] eqn:Ep;
    try discriminate.
  cbn [bind] in Eb.
  destruct (js_index curveData 0) as [first|] eqn:Ef; [|discriminate].
  destruct (js_index curveData (Z.of_nat (length curveData) - 1))
    as [last|] eqn:Ela; [|discriminate].
  cbn [deref bind] in Eb. injection Eb as Eb.
  exists curves, curveData, first, last.
  split; [reflexivity|]. split; [exact El|].
  split; [exact Ef|]. split; [exact Ela|].
  intros pt Hpt.
  apply (Permutation_in _ (js_sort_perm by_ascending_x _)) in Hpt.
  rewrite <- En, map_map in Hpt. apply in_map_iff in Hpt.
  destruct Hpt as (cp & <- & Hcp). cbn [chart_x pp_cal_BP].
  destruct (createUniformDistribution_years_within _ _ _ _ Ec Hcp)
    as (lo & hi & Eb' & Hlo & Hhi).
  rewrite <- Eb in Eb'. injection Eb' as Emax Emin.
  apply ext_max_above in Emax. apply ext_min_below in Emin.
  destruct Emax as [Hf Hpl], Emin as [Hl Hph].
  split; [split; lra|].
  intros Hn1 Hn2.
  assert (Epb : pb = (Fin 0, Fin 12000)).
  { unfold policy_bounds in Ep.
    destruct m as [| |bo|q| |s]; try (injection Ep as <-; reflexivity).
    destruct (String.eqb s "c14_bp") eqn:E1.
    - apply String.eqb_eq in E1. subst s. congruence.
    - destruct (String.eqb s "full_curve") eqn:E2.
      + apply String.eqb_eq in E2. subst s. congruence.
      + injection Ep as <-. reflexivity. }
  subst pb. cbn [fst snd] in Hpl, Hph.
  specialize (Hpl 0 eq_refl). specialize (Hph 12000 eq_refl).
  split; lra.
Qed.

Lemma calibrateDate_years_within_curve_witness :
  exists w r,
    sampleCall 100 = (w, Ok r)
    /\ forall pt : ChartPoint, In pt (distribution r) ->
         0 <= chart_x pt /\ chart_x pt <= 1.
Proof.
  destruct (sampleCall 100) as [w [r|e|]] eqn:E;
    [|vm_compute in E; discriminate|vm_compute in E; discriminate].
  exists w, r. split; [reflexivity|].
  destruct (calibrateDate_years_within_curve _ _ _ _ _ _ _ _ _ E)
    as (curves & curveData & first & last & Hl & Hc & Hf & Hla & Hpts).
  assert (Ecurve : curve (input r) = INTCAL20).
  { clear -E. vm_compute in E. injection E as _ <-. reflexivity. }
  rewrite Ecurve in Hc. injection Hl as <-.
  cbn in Hc. injection Hc as <-.
  cbn in Hf, Hla. injection Hf as <-. injection Hla as <-.
  intros pt Hpt. exact (proj1 (Hpts pt Hpt)).
Defined.

(** ** Batch upload: the rows that are kept *)

Lemma above_zero_positive (x : option DataLoaderJs.Float) :
  BatchUpload.above_zero x = true -> positive_number x.
Proof.
  unfold BatchUpload.above_zero, positive_number.
  destruct x as [[|[|q|]]|]; cbn; try discriminate.
  - intro H. qbool. right. exists q. split; [reflexivity|exact H].
  - intros _. left. reflexivity.
Qed.

Lemma map_indexed_in {A B : Type} (f : nat -> A -> B) (l : list A) (b : B) :
  forall index : nat,
    In b (BatchUpload.map_indexed f index l) ->
    exists i a, nth_error l i = Some a /\ b = f (index + i)%nat a.
Proof.
  induction l as [|a l IH]; intros index H; simpl in H.
  - contradiction.
  - destruct H as [<-|H].
    + exists 0%nat, a. split; [reflexivity|]. rewrite Nat.add_0_r. reflexivity.
    + destruct (IH (S index) H) as (i & a' & Hi & ->).
      exists (S i), a'. split; [exact Hi|]. f_equal. lia.
Qed.

Lemma first_number_truthy (l : list DataLoaderJs.Float)
  (x : DataLoaderJs.Float) :
  BatchUpload.first_number l = Some x ->
  BatchUpload.truthy_number x = true.
Proof.
  unfold BatchUpload.first_number. intro H.
  apply find_some in H. exact (proj2 H).
Qed.

(** X26.  When [handleParsedData] keeps rows, it keeps at least one, and
    each kept row is the standard form of a row of the file at that row's
    position, with a radiocarbon age and an uncertainty that are numbers
    above zero and a reservoir correction that is [null] or a number other
    than zero and [NaN]; a finite age of at most 100000 and a finite
    uncertainty of a kept row pass the engine's own checks. *)
Theorem handleParsedData_rows
  (parseFloat : JsPrim -> DataLoaderJs.Float)
  (data : option (list BatchUpload.Row))
  (validatedData : list BatchUpload.StandardRow) :
  BatchUpload.handleParsedData parseFloat data
  = BatchUpload.ParsedData validatedData ->
  validatedData <> []
  /\ forall row : BatchUpload.StandardRow, In row validatedData ->
       (exists (rows : list BatchUpload.Row) (i : nat)
               (original : BatchUpload.Row),
          data = Some rows /\ nth_error rows i = Some original
          /\ row = BatchUpload.standardize parseFloat i original)
       /\ positive_number (BatchUpload.radiocarbon_age row)
       /\ positive_number (BatchUpload.uncertainty row)
       /\ (forall x, BatchUpload.reservoir_correction row = Some x ->
             BatchUpload.truthy_number x = true)
       /\ (forall a u : Q,
             BatchUpload.radiocarbon_age row
             = Some (DataLoaderJs.FNum (Fin a)) ->
             BatchUpload.uncertainty row = Some (DataLoaderJs.FNum (Fin u)) ->
             a <= 100000 ->
             valid_c14_age (JsNumber a) = Some a
             /\ valid_uncertainty (JsNumber u) = Some u).
Proof.
  unfold BatchUpload.handleParsedData.
  destruct data as [[|firstRow rest]|]; try discriminate.
  destruct (negb _ || negb _); [discriminate|].
  match goal with
  | |- context [filter ?f ?l] => remember (filter f l) as kept eqn:Ek
  end.
  destruct (length kept =? 0)%nat eqn:El; [discriminate|].
  intro H. injection H as <-. split.
  - intro E. rewrite E in El. discriminate.
  - intros row Hrow. rewrite Ek in Hrow.
    apply filter_In in Hrow. destruct Hrow as [Hin Hv].
    unfold BatchUpload.valid_row in Hv.
    apply andb_prop in Hv. destruct Hv as [Hv Hu].
    apply andb_prop in Hv. destruct Hv as [_ Ha].
    apply above_zero_positive in Ha. apply above_zero_positive in Hu.
    split; [|split; [exact Ha|split; [exact Hu|split]]].
    + apply map_indexed_in in Hin. destruct Hin as (i & original & Hi & ->).
      exists (firstRow :: rest), i, original. repeat split. exact Hi.
    + apply map_indexed_in in Hin. destruct Hin as (i & original & _ & ->).
      cbn [BatchUpload.standardize BatchUpload.reservoir_correction].
      apply first_number_truthy.
    + intros a u Ea Eu Hle.
      rewrite Ea in Ha. rewrite Eu in Hu.
      destruct Ha as [Ha|(q & Ha & Hq)]; [discriminate|].
      destruct Hu as [Hu|(q' & Hu & Hq')]; [discriminate|].
      injection Ha as ->. injection Hu as ->.
      unfold valid_c14_age, valid_uncertainty.
      assert (F1 : Qlt_bool q 0 = false) by (apply Qlt_bool_false; lra).
      assert (F2 : Qlt_bool 100000 q = false) by (apply Qlt_bool_false; lra).
      assert (F3 : Qle_bool q' 0 = false) by (apply Qle_bool_false; lra).
      rewrite F1, F2, F3. split; reflexivity.
Qed.

Lemma handleParsedData_rows_witness :
  exists validatedData,
    BatchUpload.handleParsedData sampleParseFloat
      (Some [sampleRow 3000 30; sampleRow 0 30; sampleRow 2500 25])
    = BatchUpload.ParsedData validatedData
    /\ validatedData <> [].
Proof.
  destruct (BatchUpload.handleParsedData sampleParseFloat
              (Some [sampleRow 3000 30; sampleRow 0 30; sampleRow 2500 25]))
    as [msg|validatedData] eqn:E; [vm_compute in E; discriminate|].
  exists validatedData. split; [reflexivity|].
  exact (proj1 (handleParsedData_rows sampleParseFloat _ validatedData E)).
Defined.

(** ** calibrateDate: what the HPD intervals of a result hold *)

Section Credible.

Variable calculateProbability : Q -> Q -> Q -> Q -> Q.
Variable loader : DataLoader.

(** X27.  In a returned result, for the 68.2% intervals and for the 95.4%
    intervals alike, no charted year outside the intervals is more probable
    than a charted year inside them. *)
Theorem calibrateDate_hpd_density
  (c14_age uncertainty_ reservoir curveType mode : JsPrim)
  (w : list Warning) (r : CalibrationResult) :
  calibrateDate calculateProbability loader
    c14_age uncertainty_ reservoir curveType mode = (w, Ok r) ->
  highest_density (hpd68_ranges r) (distribution r)
  /\ highest_density (hpd95_ranges r) (distribution r).
Proof.
  intro E. apply calibrateDate_inv in E.
  destruct E as (age & u & rc & m & curveData & dist & mp & Hu & En & Em
                 & _ & _ & H68 & H95 & _ & _ & Hd).
  pose proof (normalizedDistribution_yearly _ _ _ _ _ _ En) as Hy.
  assert (Hne : dist <> []) by (intro E0; rewrite E0 in Em; discriminate).
  assert (Hall : forall conf : Q, 0 < conf -> conf <= 1 ->
            highest_density (snd (findHPD (AnArray dist) conf))
              (distribution r)).
  { intros conf H0 H1. rewrite (findHPD_valid dist conf Hne H0 H1). cbn [snd].
    unfold highest_density.
    rewrite Hd, (distribution_unsorted _ _ _ _ _ _ En).
    intros inside outside Hi Ho Hci Hco.
    apply in_map_iff in Hi. destruct Hi as (p & <- & Hp).
    apply in_map_iff in Ho. destruct Ho as (q & <- & Hq).
    cbn [chart_point chart_y].
    apply (density_order dist conf Hne Hy p q Hp Hq Hci Hco). }
  rewrite H68, H95.
  split; apply Hall; try reflexivity; apply Qle_bool_iff; reflexivity.
Qed.

End Credible.

Lemma calibrateDate_hpd_density_witness :
  exists w r,
    sampleCall 100 = (w, Ok r)
    /\ highest_density (hpd95_ranges r) (distribution r).
Proof.
  destruct (sampleCall 100) as [w [r|e|]] eqn:E;
    [|vm_compute in E; discriminate|vm_compute in E; discriminate].
  exists w, r. split; [reflexivity|].
  exact (proj2 (calibrateDate_hpd_density rationalDensity
                  (testLoader gapCurve) _ _ _ _ _ _ _ E)).
Defined.

(** ** The data loader and the engine: a failed load *)

(** X28.  When a load from an empty cache fails, the cache stays empty and
    a [calibrateDate] call whose three numeric arguments pass their checks
    throws the load error carrying the loader's one general message,
    whatever curve type and search mode it was given; nothing is
    computed. *)
Theorem calibrateDate_load_failure
  (host : DataLoaderJs.Host) (cache : option DataLoaderJs.Curves)
  (message : string)
  (calculateProbability : Q -> Q -> Q -> Q -> Q)
  (metadata : string -> option CurveMetadata)
  (c14_age uncertainty_ reservoir curveType mode : JsPrim) :
  DataLoaderJs.loadCalibrationData host None
  = (cache, DataLoaderJs.LoadFailed message) ->
  arguments_accepted c14_age uncertainty_ reservoir = true ->
  DataLoaderJs.getCalibrationData cache = None
  /\ snd (calibrateDate calculateProbability
            {| getCalibrationData := None;
               loadCalibrationData := Rejected message;
               CURVE_METADATA := metadata |}
            c14_age uncertainty_ reservoir curveType mode)
     = Throw (FailedToLoad DataLoaderJs.load_failure).
Proof.
  intros El Hargs.
  unfold DataLoaderJs.loadCalibrationData in El.
  destruct (DataLoaderJs.promise_all _); [discriminate|].
  injection El as <- <-. split; [reflexivity|].
  unfold arguments_accepted in Hargs. unfold calibrateDate.
  destruct (valid_c14_age c14_age) as [age|]; [|discriminate].
  destruct (valid_uncertainty uncertainty_) as [u|]; [|discriminate].
  destruct (valid_reservoir_correction _) as [rc|]; [|discriminate].
  destruct (resolve_curve_type _) as [w ct].
  reflexivity.
Qed.

Lemma calibrateDate_load_failure_witness :
  snd (calibrateDate rationalDensity
         {| getCalibrationData := None;
            loadCalibrationData := Rejected DataLoaderJs.load_failure;
            CURVE_METADATA := fun _ => None |}
         (JsNumber 100) (JsNumber 1) JsUndefined JsUndefined JsUndefined)
  = Throw (FailedToLoad DataLoaderJs.load_failure).
Proof.
  apply (proj2 (calibrateDate_load_failure offlineHost None
                  DataLoaderJs.load_failure rationalDensity (fun _ => None)
                  (JsNumber 100) (JsNumber 1) JsUndefined JsUndefined
                  JsUndefined eq_refl eq_refl)).
Defined.
